(** * CoTaskLib (Core.hpp): a shallow embedding of the task scheduler core

    The development follows [include/CoTaskLib/Core.hpp]:
    - user code (coroutine bodies) is a small program type [Prog] whose only
      observable actions are emitting a message and calling
      [Backend::Remove];
    - [Backend] is the registry of awaiters ([std::map] kept as a key-sorted
      association list, iterated in key order by [update]);
    - [Promise], [CoroutineHandle], [Task] model one coroutine as an explicit
      state machine; [All] and [Any] are two such machines;
    - [OrderedExecutor] and [TaskFinishSource] are modelled on their own.

    Scope of the model: a resume does not register new awaiters (no spawn
    from inside a coroutine body); finish and cancel callbacks record one
    event and may throw, they do not call back into the backend; a callback
    of an [OrderedExecutor] changes the program state and may throw, it does
    not add to or remove from the executor that is invoking it; the 32-bit
    sorting orders are integers of [Z], on which the code only compares. *)

From Stdlib Require Import String ZArith NArith Lia.
From stdpp Require Import base option list sorting gmap.

Local Open Scope N_scope.

(** ** Errors and exceptions *)

(** One constructor per [throw Error{ ... }] site of Core.hpp. *)
Inductive Error : Type :=
| AwaiterMustNotBeNull      (* U"awaiter must not be nullptr" *)
| BackendNotInitialized     (* U"Backend is not initialized" *)
| TaskNotCompleted          (* U"Task is not completed. ..." *)
| TaskResultOnlyOnce        (* U"Task result can be get only once." *)
| FinishSourceOnlyOnce      (* U"TaskFinishSource: result can be get only once. ..." *)
| FinishSourceNoResult      (* U"TaskFinishSource: TaskFinishSource does not have a result. ..." *)
| ExecutorNotFound (id : N)         (* U"OrderedExecutor::refreshSortingOrder: ID={} not found" *)
| ExecutorCannotInsert (id : N)     (* U"OrderedExecutor::...: ID={} cannot be inserted" *)
| ExecutorInconsistent (id : N).    (* U"OrderedExecutor::...: ID={} inconsistency detected" *)

(** What a C++ [throw] carries: a library [Error] or anything user code throws. *)
Inductive Exn : Type :=
| SivError (e : Error)
| UserException (code : nat).

(** The result of a call that either returns or throws. *)
Inductive Result (X : Type) : Type :=
| Ok (x : X)
| Raise (e : Exn).
Arguments Ok {X} x.
Arguments Raise {X} e.

(** [uint64] identifiers: [id++] wraps around at 2^64. *)
Definition AwaiterID : Type := N.
Definition uint64_succ (n : N) : N := (n + 1) mod 2 ^ 64.

(** ** User code *)

(** What a piece of user code (one resume of a coroutine body) does to the
    outside world: it may emit an observable message and it may call
    [Backend::Remove(id)] (through [~ScopedTaskRunner] or [requestCancel]),
    receiving the exception that call throws, if any. *)
Inductive Prog (X : Type) : Type :=
| Ret (x : X)
| Emit (msg : string) (k : Prog X)
| CallRemove (id : AwaiterID) (k : option Exn -> Prog X).
Arguments Ret {X} x.
Arguments Emit {X} msg k.
Arguments CallRemove {X} id k.

Fixpoint bind {X Y : Type} (p : Prog X) (f : X -> Prog Y) : Prog Y :=
  match p with
  | Ret x => f x
  | Emit msg k => Emit msg (bind k f)
  | CallRemove id k => CallRemove id (fun r => bind (k r) f)
  end.

Notation "'let*' x := p 'in' q" := (bind p (fun x => q))
  (at level 10, x name, p at level 100, q at level 200, only parsing).
Notation "'let*' ' pat := p 'in' q" :=
  (bind p (fun x => match x with pat => q end))
  (at level 10, pat strict pattern, p at level 100, q at level 200, only parsing).

(** [for (auto& x : xs) x.resume();] style loops: run [f] on every element,
    left to right. *)
Fixpoint for_each {X : Type} (f : X -> Prog X) (xs : list X) : Prog (list X) :=
  match xs with
  | [] => Ret []
  | x :: rest =>
      let* x' := f x in
      let* rest' := for_each f rest in
      Ret (x' :: rest')
  end.

(** [true] when the program makes no call into the backend. *)
Fixpoint no_backend_call {X : Type} (p : Prog X) : bool :=
  match p with
  | Ret _ => true
  | Emit _ k => no_backend_call k
  | CallRemove _ _ => false
  end.

(** The messages of a program that makes no call into the backend, and its
    value. *)
Fixpoint emitted {X : Type} (p : Prog X) : list string :=
  match p with
  | Ret _ => []
  | Emit msg k => msg :: emitted k
  | CallRemove _ k => emitted (k None)
  end.

Fixpoint returned {X : Type} (p : Prog X) : X :=
  match p with
  | Ret x => x
  | Emit _ k => returned k
  | CallRemove _ k => returned (k None)
  end.

(** ** [IAwaiter] / [ITask]: the two interfaces have the same two methods *)

Class IAwaiter (A : Type) : Type := {
  resume : A -> Prog A;
  done : A -> bool;
}.

(** [TaskAwaiter<TResult>]: an awaiter whose result can be read with
    [value()]. *)
Class TaskAwaiter (R A : Type) : Type := {
  TaskAwaiter_IAwaiter :: IAwaiter A;
  value : A -> Result R * A;
}.

(** ** Callbacks and the observable trace *)

(** A non-null [std::function] given by the user: calling it is observable
    (its label is appended to the trace) and it may throw. *)
Record Callback : Type := {
  cb_label : string;
  cb_throws : option Exn;
}.

Inductive Event (R : Type) : Type :=
| Emitted (msg : string)
| FinishCalled (label : string) (r : R)
| CancelCalled (label : string).
Arguments Emitted {R} msg.
Arguments FinishCalled {R} label r.
Arguments CancelCalled {R} label.

Section Registry.
Context {R A : Type} `{!TaskAwaiter R A}.

Definition Trace : Type := list (Event R).

(** [if (cancelCallback) { cancelCallback(); }] *)
Definition call_cancel (cancelCallback : option Callback) (tr : Trace)
  : option Exn * Trace :=
  match cancelCallback with
  | None => (None, tr)
  | Some cb => (cb_throws cb, tr ++ [CancelCalled (cb_label cb)])
  end.

(** [if (finishCallback) { finishCallback(result); }] *)
Definition call_finish (finishCallback : option Callback) (r : R) (tr : Trace)
  : option Exn * Trace :=
  match finishCallback with
  | None => (None, tr)
  | Some cb => (cb_throws cb, tr ++ [FinishCalled (cb_label cb) r])
  end.

(** The [fnGetResult] / [fnCallFinishCallback] pattern shared by
    [Backend::Add]'s type-erased callback and by
    [ResumeAwaiterOnceAndRegisterIfNotDone]: read [value()]; if that throws,
    call the cancel callback and rethrow; otherwise call the finish
    callback with the result. *)
Definition fnCallFinishCallback
    (finishCallback cancelCallback : option Callback) (awaiter : A) (tr : Trace)
  : option Exn * A * Trace :=
  match value awaiter with
  | (Raise e, awaiter') =>
      match call_cancel cancelCallback tr with
      | (Some e', tr') => (Some e', awaiter', tr')
      | (None, tr') => (Some e, awaiter', tr')
      end
  | (Ok r, awaiter') =>
      let '(thrown, tr') := call_finish finishCallback r tr in
      (thrown, awaiter', tr')
  end.

(** The lambda [finishCallbackTypeErased] built by [Backend::Add]: its
    captures. *)
Record FinishClosure : Type := {
  captured_finishCallback : option Callback;
  captured_cancelCallback : option Callback;
}.

Record AwaiterEntry : Type := {
  awaiter : A;
  finishCallback : option FinishClosure;
  cancelCallback : option Callback;
}.

Definition set_awaiter (a : A) (e : AwaiterEntry) : AwaiterEntry :=
  {| awaiter := a;
     finishCallback := finishCallback e;
     cancelCallback := cancelCallback e |}.

Definition callEndCallback (e : AwaiterEntry) (tr : Trace)
  : option Exn * AwaiterEntry * Trace :=
  if done (awaiter e) then
    match finishCallback e with
    | Some f =>
        let '(thrown, a', tr') :=
          fnCallFinishCallback (captured_finishCallback f)
                               (captured_cancelCallback f) (awaiter e) tr in
        (thrown, set_awaiter a' e, tr')
    | None => (None, e, tr)
    end
  else
    let '(thrown, tr') := call_cancel (cancelCallback e) tr in
    (thrown, e, tr').

(** *** [std::map<AwaiterID, AwaiterEntry>] as a key-sorted association list *)

Definition EntryMap : Type := list (AwaiterID * AwaiterEntry).

Fixpoint map_find (id : AwaiterID) (m : EntryMap) : option AwaiterEntry :=
  match m with
  | [] => None
  | (k, e) :: rest => if N.eqb k id then Some e else map_find id rest
  end.

Fixpoint map_erase (id : AwaiterID) (m : EntryMap) : EntryMap :=
  match m with
  | [] => []
  | (k, e) :: rest => if N.eqb k id then rest else (k, e) :: map_erase id rest
  end.

(** [emplace]: inserts at the key's place; an existing key is left alone. *)
Fixpoint map_emplace (id : AwaiterID) (e : AwaiterEntry) (m : EntryMap) : EntryMap :=
  match m with
  | [] => [(id, e)]
  | (k, e') :: rest =>
      if N.ltb id k then (id, e) :: (k, e') :: rest
      else if N.eqb k id then (k, e') :: rest
      else (k, e') :: map_emplace id e rest
  end.

(** Writing through [it->second]. *)
Fixpoint map_assign (id : AwaiterID) (e : AwaiterEntry) (m : EntryMap) : EntryMap :=
  match m with
  | [] => []
  | (k, e') :: rest =>
      if N.eqb k id then (k, e) :: rest else (k, e') :: map_assign id e rest
  end.

(** [begin()] and the iterator that follows key [id] ([++it], or the
    result of [erase(it)]): [None] is [end()]. *)
Definition map_begin (m : EntryMap) : option AwaiterID :=
  match m with
  | [] => None
  | (k, _) :: _ => Some k
  end.

Fixpoint map_next (id : AwaiterID) (m : EntryMap) : option AwaiterID :=
  match m with
  | [] => None
  | (k, _) :: rest => if N.ltb id k then Some k else map_next id rest
  end.

Definition keys (m : EntryMap) : list AwaiterID := map fst m.

Definition sorted_keys (m : EntryMap) : Prop := StronglySorted N.lt (keys m).

(** *** The backend singleton *)

Record Backend : Type := {
  m_nextAwaiterID : AwaiterID;
  m_currentAwaiterID : option AwaiterID;
  m_currentAwaiterRemovalNeeded : bool;
  m_awaiterEntries : EntryMap;
}.

(** [Backend() = default] *)
Definition Backend_new : Backend :=
  {| m_nextAwaiterID := 1;
     m_currentAwaiterID := None;
     m_currentAwaiterRemovalNeeded := false;
     m_awaiterEntries := [] |}.

Definition set_entries (m : EntryMap) (b : Backend) : Backend :=
  {| m_nextAwaiterID := m_nextAwaiterID b;
     m_currentAwaiterID := m_currentAwaiterID b;
     m_currentAwaiterRemovalNeeded := m_currentAwaiterRemovalNeeded b;
     m_awaiterEntries := m |}.

Definition set_current (c : option AwaiterID) (b : Backend) : Backend :=
  {| m_nextAwaiterID := m_nextAwaiterID b;
     m_currentAwaiterID := c;
     m_currentAwaiterRemovalNeeded := m_currentAwaiterRemovalNeeded b;
     m_awaiterEntries := m_awaiterEntries b |}.

Definition set_removalNeeded (f : bool) (b : Backend) : Backend :=
  {| m_nextAwaiterID := m_nextAwaiterID b;
     m_currentAwaiterID := m_currentAwaiterID b;
     m_currentAwaiterRemovalNeeded := f;
     m_awaiterEntries := m_awaiterEntries b |}.

Definition set_nextAwaiterID (n : AwaiterID) (b : Backend) : Backend :=
  {| m_nextAwaiterID := n;
     m_currentAwaiterID := m_currentAwaiterID b;
     m_currentAwaiterRemovalNeeded := m_currentAwaiterRemovalNeeded b;
     m_awaiterEntries := m_awaiterEntries b |}.

(** The whole program state seen by the library: the static
    [s_pInstance] ([None] before [Init] and after the addon is released)
    and the trace of observable events. *)
Record World : Type := {
  s_pInstance : option Backend;
  trace : Trace;
}.

Definition set_instance (b : Backend) (w : World) : World :=
  {| s_pInstance := Some b; trace := trace w |}.

Definition set_trace (tr : Trace) (w : World) : World :=
  {| s_pInstance := s_pInstance w; trace := tr |}.

Definition optN_eqb (o : option AwaiterID) (id : AwaiterID) : bool :=
  match o with
  | Some k => N.eqb id k
  | None => false
  end.

(** [static void Backend::Remove(AwaiterID id)]: the exception it throws,
    if any, and the new state. *)
Definition Remove (id : AwaiterID) (w : World) : option Exn * World :=
  match s_pInstance w with
  | None => (None, w)
  | Some b =>
      if optN_eqb (m_currentAwaiterID b) id then
        (None, set_instance (set_removalNeeded true b) w)
      else
        match map_find id (m_awaiterEntries b) with
        | Some e =>
            match callEndCallback e (trace w) with
            | (Some exn, e', tr') =>
                (* the callback threw: [erase] is not reached *)
                (Some exn,
                 set_trace tr'
                   (set_instance
                      (set_entries (map_assign id e' (m_awaiterEntries b)) b) w))
            | (None, _, tr') =>
                (None,
                 set_trace tr'
                   (set_instance
                      (set_entries (map_erase id (m_awaiterEntries b)) b) w))
            end
        | None => (None, w)
        end
  end.

(** [static bool Backend::IsDone(AwaiterID id)] *)
Definition IsDone (id : AwaiterID) (w : World) : Result bool :=
  match s_pInstance w with
  | None => Raise (SivError BackendNotInitialized)
  | Some b =>
      match map_find id (m_awaiterEntries b) with
      | Some e => Ok (done (awaiter e))
      | None => Ok (N.ltb id (m_nextAwaiterID b))
      end
  end.

(** Running user code against the program state. *)
Fixpoint run {X : Type} (p : Prog X) (w : World) : X * World :=
  match p with
  | Ret x => (x, w)
  | Emit msg k => run k (set_trace (trace w ++ [Emitted msg]) w)
  | CallRemove id k =>
      let '(thrown, w') := Remove id w in
      run (k thrown) w'
  end.

(** [static AwaiterID Backend::Add(awaiter, finishCallback, cancelCallback)] *)
Definition Add (awaiter : option A) (finishCallback cancelCallback : option Callback)
    (w : World) : Result AwaiterID * World :=
  match awaiter with
  | None => (Raise (SivError AwaiterMustNotBeNull), w)
  | Some a =>
      match s_pInstance w with
      | None => (Raise (SivError BackendNotInitialized), w)
      | Some b =>
          let id := m_nextAwaiterID b in
          let b1 := set_nextAwaiterID (uint64_succ id) b in
          let entry :=
            {| awaiter := a;
               finishCallback :=
                 Some {| captured_finishCallback := finishCallback;
                         captured_cancelCallback := cancelCallback |};
               cancelCallback := cancelCallback |} in
          (Ok id,
           set_instance (set_entries (map_emplace id entry (m_awaiterEntries b1)) b1) w)
      end
  end.

(** [ResumeAwaiterOnceAndRegisterIfNotDone(awaiter, finishCallback, cancelCallback)] *)
Definition ResumeAwaiterOnceAndRegisterIfNotDone
    (awaiter : A) (finishCallback cancelCallback : option Callback) (w : World)
  : Result (option AwaiterID) * World :=
  if done awaiter then
    match fnCallFinishCallback finishCallback cancelCallback awaiter (trace w) with
    | (Some e, _, tr') => (Raise e, set_trace tr' w)
    | (None, _, tr') => (Ok None, set_trace tr' w)
    end
  else
    let '(awaiter1, w1) := run (resume awaiter) w in
    if done awaiter1 then
      match fnCallFinishCallback finishCallback cancelCallback awaiter1 (trace w1) with
      | (Some e, _, tr') => (Raise e, set_trace tr' w1)
      | (None, _, tr') => (Ok None, set_trace tr' w1)
      end
    else
      match Add (Some awaiter1) finishCallback cancelCallback w1 with
      | (Ok id, w2) => (Ok (Some id), w2)
      | (Raise e, w2) => (Raise e, w2)
      end.

(** *** [ScopedTaskRunner] *)

Record ScopedTaskRunner : Type := { m_id : option AwaiterID }.

(** The constructor ([Task::runScoped]): no runner exists when it throws. *)
Definition ScopedTaskRunner_new
    (task : A) (finishCallback cancelCallback : option Callback) (w : World)
  : Result ScopedTaskRunner * World :=
  match ResumeAwaiterOnceAndRegisterIfNotDone task finishCallback cancelCallback w with
  | (Ok id, w') => (Ok {| m_id := id |}, w')
  | (Raise e, w') => (Raise e, w')
  end.

(** [~ScopedTaskRunner()] *)
Definition ScopedTaskRunner_destroy (r : ScopedTaskRunner) (w : World)
  : option Exn * World :=
  match m_id r with
  | Some id => Remove id w
  | None => (None, w)
  end.

(** [bool ScopedTaskRunner::done() const] *)
Definition ScopedTaskRunner_done (r : ScopedTaskRunner) (w : World) : Result bool :=
  match m_id r with
  | None => Ok true
  | Some id => IsDone id w
  end.

(** [void ScopedTaskRunner::requestCancel()]: when [Remove] throws,
    [m_id.reset()] is not reached. *)
Definition ScopedTaskRunner_requestCancel (r : ScopedTaskRunner) (w : World)
  : option Exn * ScopedTaskRunner * World :=
  match m_id r with
  | Some id =>
      match Remove id w with
      | (None, w') => (None, {| m_id := None |}, w')
      | (Some e, w') => (Some e, r, w')
      end
  | None => (None, r, w)
  end.

(** *** [Backend::update] *)

(** One turn of the [for] loop with the iterator at key [id]: the
    exception pointer, the next iterator and the new backend and trace. *)
Definition update_iteration
    (id : AwaiterID) (exceptionPtr : option Exn) (w : World)
  : option Exn * option AwaiterID * World :=
  match s_pInstance w with
  | None => (exceptionPtr, None, w)
  | Some b =>
      match map_find id (m_awaiterEntries b) with
      | None => (exceptionPtr, None, w)
      | Some entry =>
          (* m_currentAwaiterID = it->first; *)
          let w0 := set_instance (set_current (Some id) b) w in
          (* entry.awaiter->resume(); *)
          let '(a1, w1) := run (resume (awaiter entry)) w0 in
          match s_pInstance w1 with
          | None => (exceptionPtr, None, w1)
          | Some b1 =>
              let entry1 := set_awaiter a1 entry in
              let entries1 := map_assign id entry1 (m_awaiterEntries b1) in
              if m_currentAwaiterRemovalNeeded b1 || done a1 then
                let '(thrown, _, tr2) := callEndCallback entry1 (trace w1) in
                let exceptionPtr' :=
                  match exceptionPtr with
                  | Some e => Some e
                  | None => thrown
                  end in
                (* it = m_awaiterEntries.erase(it); *)
                let b2 :=
                  set_removalNeeded false (set_entries (map_erase id entries1) b1) in
                (exceptionPtr', map_next id entries1, set_trace tr2 (set_instance b2 w1))
              else
                (exceptionPtr, map_next id entries1,
                 set_instance (set_entries entries1 b1) w1)
          end
      end
  end.

(** The loop: [fuel] bounds the number of turns; [None] when it runs out
    before the iterator reaches [end()]. *)
Fixpoint update_loop (fuel : nat) (it : option AwaiterID)
    (exceptionPtr : option Exn) (w : World) : option (option Exn * World) :=
  match it with
  | None => Some (exceptionPtr, w)
  | Some id =>
      match fuel with
      | O => None
      | S fuel' =>
          let '(exceptionPtr', it', w') := update_iteration id exceptionPtr w in
          update_loop fuel' it' exceptionPtr' w'
      end
  end.

(** [void Backend::update()] on the instance [s_pInstance] points to: the
    exception rethrown at the end, if any, and the new state.  No entry is
    added while the loop runs, so one unit of fuel per entry is enough. *)
Definition update (w : World) : option (option Exn * World) :=
  match s_pInstance w with
  | None => None
  | Some b =>
      match update_loop (length (m_awaiterEntries b))
                        (map_begin (m_awaiterEntries b)) None w with
      | Some (exceptionPtr, w') =>
          match s_pInstance w' with
          | Some b' => Some (exceptionPtr, set_instance (set_current None b') w')
          | None => None
          end
      | None => None
      end
  end.

(** [static void Backend::ManualUpdate()] *)
Definition ManualUpdate (w : World) : option (option Exn * World) :=
  match s_pInstance w with
  | None => Some (Some (SivError BackendNotInitialized), w)
  | Some _ => update w
  end.

End Registry.

(** ** Coroutines: [Promise], [std::coroutine_handle], [CoroutineHandleWrapper] *)

(** No object at all: the awaiter type of a coroutine that never awaits a
    sub-task, the companion type of a task without [with]. *)
#[export] Instance Empty_set_IAwaiter : IAwaiter Empty_set := {
  resume := fun x => Ret x;
  done := fun x => match x with end;
}.

Section Coroutine.
Context {Sub : Type} `{!IAwaiter Sub}.
Context {F R : Type}.

(** Where one run of the body, from the point it was suspended at, ends. *)
Inductive BodyStep : Type :=
| AtNextFrame (locals : F)
    (* reached [co_await NextFrame()], i.e. [std::suspend_always] *)
| AtSubAwaiter (locals : F) (sub : Sub)
    (* reached a [co_await task] whose [await_suspend] returned true *)
| CoReturn (r : R)
    (* [co_return]: [return_value] / [return_void], then [final_suspend] *)
| Unhandled (e : Exn).
    (* an exception left the body: [unhandled_exception], then [final_suspend] *)

(** [PromiseBase] and [Promise<TResult>] ([Promise<void>] is the same class
    with [R := unit]; only the text of its first error differs).
    [m_pSubAwaiter] is the pointer together with the awaiter it points
    to; [m_value] is the shared state of the [std::promise]. *)
Record Promise : Type := {
  m_pSubAwaiter : option Sub;
  m_value : option (Result R);
  m_isResultSet : bool;
  m_resultConsumed : bool;
}.

Definition Promise_new : Promise :=
  {| m_pSubAwaiter := None; m_value := None;
     m_isResultSet := false; m_resultConsumed := false |}.

Definition return_value (v : R) (p : Promise) : Promise :=
  {| m_pSubAwaiter := m_pSubAwaiter p; m_value := Some (Ok v);
     m_isResultSet := true; m_resultConsumed := m_resultConsumed p |}.

Definition unhandled_exception (e : Exn) (p : Promise) : Promise :=
  {| m_pSubAwaiter := m_pSubAwaiter p; m_value := Some (Raise e);
     m_isResultSet := true; m_resultConsumed := m_resultConsumed p |}.

Definition setSubAwaiter (pSubAwaiter : option Sub) (p : Promise) : Promise :=
  {| m_pSubAwaiter := pSubAwaiter; m_value := m_value p;
     m_isResultSet := m_isResultSet p; m_resultConsumed := m_resultConsumed p |}.

Definition set_resultConsumed (c : bool) (p : Promise) : Promise :=
  {| m_pSubAwaiter := m_pSubAwaiter p; m_value := m_value p;
     m_isResultSet := m_isResultSet p; m_resultConsumed := c |}.

(** [m_value.get_future().get()]: the stored value, or the stored exception
    rethrown.  On an empty state the C++ call would wait; [value] only
    reaches it once [m_isResultSet] holds, which is set together with the
    state (see [handle_wf]). *)
Definition future_get (state : option (Result R)) : Result R :=
  match state with
  | Some r => r
  | None => Raise (SivError TaskNotCompleted)
  end.

(** [TResult Promise<TResult>::value()] and [void Promise<void>::value()] *)
Definition Promise_value (p : Promise) : Result R * Promise :=
  if negb (m_isResultSet p) then (Raise (SivError TaskNotCompleted), p)
  else if m_resultConsumed p then (Raise (SivError TaskResultOnlyOnce), p)
  else (future_get (m_value p), set_resultConsumed true p).

(** [bool PromiseBase::resumeSubAwaiter()].  Besides the flag and the
    promise, the awaiter that has just finished is handed back: in C++ it
    is an object of the coroutine frame, which the body reads
    ([await_resume]) when it goes on. *)
Definition resumeSubAwaiter (p : Promise) : Prog (bool * Promise * option Sub) :=
  match m_pSubAwaiter p with
  | None => Ret (false, p, None)
  | Some sub =>
      let* sub' := resume sub in
      if done sub' then Ret (false, setSubAwaiter None p, Some sub')
      else Ret (true, setSubAwaiter (Some sub') p, None)
  end.

(** A coroutine: its code (one run of the body from a suspension point to
    the next one, given the awaiter that has just finished, if it was
    suspended on one), its frame and its promise. *)
Record CoroutineHandle : Type := {
  code : F -> option Sub -> Prog BodyStep;
  locals : F;
  at_final_suspend : bool;
  promise : Promise;
}.

Definition set_promise (p : Promise) (h : CoroutineHandle) : CoroutineHandle :=
  {| code := code h; locals := locals h;
     at_final_suspend := at_final_suspend h; promise := p |}.

(** Calling a coroutine function: the frame is created and the body is
    suspended at [initial_suspend] ([std::suspend_always]). *)
Definition coroutine (body : F -> option Sub -> Prog BodyStep) (args : F)
  : CoroutineHandle :=
  {| code := body; locals := args; at_final_suspend := false;
     promise := Promise_new |}.

(** [std::coroutine_handle::done()] *)
Definition handle_done (h : CoroutineHandle) : bool := at_final_suspend h.

(** What the language does with the end of a run of the body. *)
Definition suspend_at (h : CoroutineHandle) (step : BodyStep) : CoroutineHandle :=
  match step with
  | AtNextFrame f =>
      {| code := code h; locals := f; at_final_suspend := false;
         promise := promise h |}
  | AtSubAwaiter f sub =>
      {| code := code h; locals := f; at_final_suspend := false;
         promise := setSubAwaiter (Some sub) (promise h) |}
  | CoReturn r =>
      {| code := code h; locals := locals h; at_final_suspend := true;
         promise := return_value r (promise h) |}
  | Unhandled e =>
      {| code := code h; locals := locals h; at_final_suspend := true;
         promise := unhandled_exception e (promise h) |}
  end.

(** [std::coroutine_handle::resume()] *)
Definition handle_resume (h : CoroutineHandle) (finished : option Sub)
  : Prog CoroutineHandle :=
  let* step := code h (locals h) finished in
  Ret (suspend_at h step).

(** [CoroutineHandleWrapper<TResult>] around a non-null handle (the model
    has no moved-from wrapper). *)
Definition CoroutineHandleWrapper_done (h : CoroutineHandle) : bool :=
  handle_done h.

Definition CoroutineHandleWrapper_value (h : CoroutineHandle)
  : Result R * CoroutineHandle :=
  let '(r, p) := Promise_value (promise h) in (r, set_promise p h).

Definition CoroutineHandleWrapper_resume (h : CoroutineHandle)
  : Prog CoroutineHandle :=
  if CoroutineHandleWrapper_done h then Ret h
  else
    let* '(pending, p, finished) := resumeSubAwaiter (promise h) in
    if (pending : bool) then Ret (set_promise p h)
    else handle_resume (set_promise p h) finished.

(** The [co_await task] expression inside a body, for an awaiter [sub]
    built from the task: [await_ready], then [await_suspend] (one resume;
    the coroutine is suspended on the awaiter only if it is still
    unfinished), else the body goes on with [await_resume]. *)
Definition co_await (sub : Sub) (suspended : F) (goes_on : Sub -> Prog BodyStep)
  : Prog BodyStep :=
  if done sub then goes_on sub
  else
    let* sub' := resume sub in
    if done sub' then goes_on sub'
    else Ret (AtSubAwaiter suspended sub').

End Coroutine.

Arguments BodyStep : clear implicits.
Arguments Promise : clear implicits.
Arguments CoroutineHandle : clear implicits.

(** ** [Task<TResult>] *)

Section Task.
Context {Sub : Type} `{!IAwaiter Sub}.
Context {Conc : Type} `{!IAwaiter Conc}.
Context {F R : Type}.

Record Task : Type := {
  m_handle : CoroutineHandle Sub F R;
  m_concurrentTasksBefore : list Conc;
  m_concurrentTasksAfter : list Conc;
}.

(** [explicit Task(handle_type h)], reached through [get_return_object]. *)
Definition Task_new (h : CoroutineHandle Sub F R) : Task :=
  {| m_handle := h; m_concurrentTasksBefore := []; m_concurrentTasksAfter := [] |}.

(** [void Task::resume()] *)
Definition Task_resume (t : Task) : Prog Task :=
  if CoroutineHandleWrapper_done (m_handle t) then Ret t
  else
    let* before := for_each resume (m_concurrentTasksBefore t) in
    let* h := CoroutineHandleWrapper_resume (m_handle t) in
    let* after := for_each resume (m_concurrentTasksAfter t) in
    Ret {| m_handle := h;
           m_concurrentTasksBefore := before;
           m_concurrentTasksAfter := after |}.

(** [bool Task::done() const] *)
Definition Task_done (t : Task) : bool :=
  CoroutineHandleWrapper_done (m_handle t).

(** [TResult Task::value() const] *)
Definition Task_value (t : Task) : Result R * Task :=
  let '(r, h) := CoroutineHandleWrapper_value (m_handle t) in
  (r, {| m_handle := h;
         m_concurrentTasksBefore := m_concurrentTasksBefore t;
         m_concurrentTasksAfter := m_concurrentTasksAfter t |}).

Inductive WithTiming : Type := Before | After.

(** [Task<TResult> Task::with(Task<TResultOther>&& task, WithTiming timing) &&] *)
Definition Task_with (t : Task) (task : Conc) (timing : WithTiming) : Task :=
  match timing with
  | Before =>
      {| m_handle := m_handle t;
         m_concurrentTasksBefore := m_concurrentTasksBefore t ++ [task];
         m_concurrentTasksAfter := m_concurrentTasksAfter t |}
  | After =>
      {| m_handle := m_handle t;
         m_concurrentTasksBefore := m_concurrentTasksBefore t;
         m_concurrentTasksAfter := m_concurrentTasksAfter t ++ [task] |}
  end.

(** [Task] implements [ITask]; [TaskAwaiter<TResult>] only forwards
    [resume], [done] and [value] to the task it holds. *)
#[export] Instance Task_IAwaiter : IAwaiter Task := {
  resume := Task_resume;
  done := Task_done;
}.

#[export] Instance Task_TaskAwaiter : TaskAwaiter R Task := {
  value := Task_value;
}.

End Task.

Arguments Task : clear implicits.

(** ** A few of the library's own coroutines *)

Section LibraryTasks.
Context {R : Type}.

(** [Task<TResult> FromResult(TResult result) { co_return result; }] *)
Definition FromResult_code (result : R) (_ : option Empty_set)
  : Prog (BodyStep Empty_set R R) :=
  Ret (CoReturn result).

Definition FromResult (result : R) : Task Empty_set Empty_set R R :=
  Task_new (coroutine FromResult_code result).

(** [Task<void> WaitForever() { while (true) { co_await NextFrame(); } }] *)
Definition WaitForever_code (_ : unit) (_ : option Empty_set)
  : Prog (BodyStep Empty_set unit R) :=
  Ret (AtNextFrame tt).

Definition WaitForever : Task Empty_set Empty_set unit R :=
  Task_new (coroutine WaitForever_code tt).

End LibraryTasks.

(** [Task<void> DelayFrame(int32 frames)]:
    [for (int32 i = 0; i < frames; ++i) { co_await NextFrame(); }].
    The frame holds [frames], and [i] once the loop has been entered. *)
Definition DelayFrame_code (fr : Z * option Z) (_ : option Empty_set)
  : Prog (BodyStep Empty_set (Z * option Z) unit) :=
  let '(frames, at_loop) := fr in
  let i := match at_loop with
           | None => 0%Z              (* int32 i = 0 *)
           | Some i => (i + 1)%Z      (* ++i after the co_await *)
           end in
  if (i <? frames)%Z then Ret (AtNextFrame (frames, Some i))
  else Ret (CoReturn tt).

Definition DelayFrame (frames : Z) : Task Empty_set Empty_set (Z * option Z) unit :=
  Task_new (coroutine DelayFrame_code (frames, None)).

(** ** [All] and [Any] *)

(** The result type of an argument: [void] or a value. *)
Inductive result_type (V : Type) : Type :=
| ReturnedVoid
| Returned (v : V).
Arguments ReturnedVoid {V}.
Arguments Returned {V} v.

(** [VoidResultTypeReplace<TResult>]: [VoidResult] stands in for [void]. *)
Inductive VoidResultTypeReplace (V : Type) : Type :=
| VoidResult
| Kept (v : V).
Arguments VoidResult {V}.
Arguments Kept {V} v.

Definition replace_void {V : Type} (r : result_type V) : VoidResultTypeReplace V :=
  match r with
  | ReturnedVoid => VoidResult
  | Returned v => Kept v
  end.

Definition failures {S : Type} (rs : list (Result S)) : list Exn :=
  flat_map (fun r => match r with Ok _ => [] | Raise e => [e] end) rs.

Definition successes {S : Type} (rs : list (Result S)) : list S :=
  flat_map (fun r => match r with Ok s => [s] | Raise _ => [] end) rs.

Section Combinators.
Context {Sub : Type} `{!IAwaiter Sub}.
Context {Conc : Type} `{!IAwaiter Conc}.
Context {F V : Type}.

(** The arguments of one call of [All] / [Any]; their result types may
    differ in C++, here they share [result_type V]. *)
Definition Arg : Type := Task Sub Conc F (result_type V).

(** The order in which [std::make_tuple(f(args)...)] evaluates its
    arguments is not fixed by the language; it only shows when more than
    one of them throws.  [pick] names the exception that wins, given the
    exceptions in argument order. *)
Variable pick : list Exn -> Exn.

Definition make_tuple {S : Type} (rs : list (Result S)) : Result (list S) :=
  match failures rs with
  | [] => Ok (successes rs)
  | e :: es => Raise (pick (e :: es))
  end.

(** [ConvertVoidResult(task)] *)
Definition ConvertVoidResult (task : Arg) : Result (VoidResultTypeReplace V) :=
  match fst (Task_value task) with
  | Ok r => Ok (replace_void r)
  | Raise e => Raise e
  end.

(** [ConvertOptionalVoidResult(task)] *)
Definition ConvertOptionalVoidResult (task : Arg)
  : Result (option (VoidResultTypeReplace V)) :=
  if negb (Task_done task) then Ok None
  else
    match fst (Task_value task) with
    | Ok r => Ok (Some (replace_void r))
    | Raise e => Raise e
    end.

(** Where the coroutine of [All] / [Any] is suspended. *)
Inductive CombinatorPC : Type :=
| AtInitialSuspend
| AtLoopNextFrame.

Definition CombinatorFrame : Type := CombinatorPC * list Arg.

Definition co_return_or_throw {S : Type} (r : Result S)
  : BodyStep Empty_set CombinatorFrame S :=
  match r with
  | Ok s => CoReturn s
  | Raise e => Unhandled e
  end.

(** One turn of the [while (true)] loop of [All]. *)
Definition All_loop (args : list Arg)
  : Prog (BodyStep Empty_set CombinatorFrame (list (VoidResultTypeReplace V))) :=
  let* args' := for_each Task_resume args in               (* (args.resume(), ...) *)
  if forallb Task_done args' then                          (* (args.done() && ...) *)
    Ret (co_return_or_throw (make_tuple (map ConvertVoidResult args')))
  else Ret (AtNextFrame (AtLoopNextFrame, args')).

Definition All_code (fr : CombinatorFrame) (_ : option Empty_set)
  : Prog (BodyStep Empty_set CombinatorFrame (list (VoidResultTypeReplace V))) :=
  match fr with
  | (AtInitialSuspend, args) =>
      if forallb Task_done args then
        Ret (co_return_or_throw (make_tuple (map ConvertVoidResult args)))
      else All_loop args
  | (AtLoopNextFrame, args) => All_loop args
  end.

(** [All(TTasks... args)] *)
Definition All (args : list Arg)
  : Task Empty_set Empty_set CombinatorFrame (list (VoidResultTypeReplace V)) :=
  Task_new (coroutine All_code (AtInitialSuspend, args)).

(** One turn of the [while (true)] loop of [Any]. *)
Definition Any_loop (args : list Arg)
  : Prog (BodyStep Empty_set CombinatorFrame
                   (list (option (VoidResultTypeReplace V)))) :=
  let* args' := for_each Task_resume args in               (* (args.resume(), ...) *)
  if existsb Task_done args' then                          (* (args.done() || ...) *)
    Ret (co_return_or_throw (make_tuple (map ConvertOptionalVoidResult args')))
  else Ret (AtNextFrame (AtLoopNextFrame, args')).

Definition Any_code (fr : CombinatorFrame) (_ : option Empty_set)
  : Prog (BodyStep Empty_set CombinatorFrame
                   (list (option (VoidResultTypeReplace V)))) :=
  match fr with
  | (AtInitialSuspend, args) =>
      if existsb Task_done args then
        Ret (co_return_or_throw (make_tuple (map ConvertOptionalVoidResult args)))
      else Any_loop args
  | (AtLoopNextFrame, args) => Any_loop args
  end.

(** [Any(TTasks... args)] *)
Definition Any (args : list Arg)
  : Task Empty_set Empty_set CombinatorFrame
         (list (option (VoidResultTypeReplace V))) :=
  Task_new (coroutine Any_code (AtInitialSuspend, args)).

End Combinators.

(** ** [TaskFinishSource<TResult>] *)

Section TaskFinishSource.
Context {V : Type}.

Record TaskFinishSource : Type := {
  m_result : option V;             (* std::unique_ptr<TResult> *)
  fs_resultConsumed : bool;        (* m_resultConsumed *)
}.

(** [TaskFinishSource() = default] *)
Definition TaskFinishSource_new : TaskFinishSource :=
  {| m_result := None; fs_resultConsumed := false |}.

(** [bool hasResult() const noexcept] *)
Definition hasResult (s : TaskFinishSource) : bool :=
  match m_result s with
  | Some _ => true
  | None => false
  end.

(** [bool requestFinish(const TResult&)] and [bool requestFinish(TResult&&)] *)
Definition requestFinish (result : V) (s : TaskFinishSource)
  : bool * TaskFinishSource :=
  if fs_resultConsumed s || hasResult s then (false, s)
  else (true, {| m_result := Some result;
                 fs_resultConsumed := fs_resultConsumed s |}).

(** [TResult result()] *)
Definition result (s : TaskFinishSource) : Result V * TaskFinishSource :=
  if fs_resultConsumed s then (Raise (SivError FinishSourceOnlyOnce), s)
  else
    match m_result s with
    | None => (Raise (SivError FinishSourceNoResult), s)
    | Some v => (Ok v, {| m_result := None; fs_resultConsumed := true |})
    end.

(** [bool done() const noexcept] *)
Definition TaskFinishSource_done (s : TaskFinishSource) : bool :=
  hasResult s || fs_resultConsumed s.

(** A call made on a source, and what it gave back. *)
Inductive FinishSourceCall : Type :=
| CallRequestFinish (v : V)
| CallResult.

Inductive FinishSourceAnswer : Type :=
| RequestFinishAnswer (accepted : bool)
| ResultAnswer (r : Result V).

Definition call_source (c : FinishSourceCall) (s : TaskFinishSource)
  : FinishSourceAnswer * TaskFinishSource :=
  match c with
  | CallRequestFinish v =>
      let '(b, s') := requestFinish v s in (RequestFinishAnswer b, s')
  | CallResult =>
      let '(r, s') := result s in (ResultAnswer r, s')
  end.

Fixpoint call_sequence (cs : list FinishSourceCall) (s : TaskFinishSource)
  : list FinishSourceAnswer * TaskFinishSource :=
  match cs with
  | [] => ([], s)
  | c :: rest =>
      let '(a, s1) := call_source c s in
      let '(answers, s2) := call_sequence rest s1 in
      (a :: answers, s2)
  end.

End TaskFinishSource.

Arguments TaskFinishSource : clear implicits.
Arguments FinishSourceCall : clear implicits.
Arguments FinishSourceAnswer : clear implicits.

(** [TaskFinishSource<void>] *)
Record TaskFinishSourceVoid : Type := { m_finishRequested : bool }.

Definition requestFinish_void (s : TaskFinishSourceVoid) : bool * TaskFinishSourceVoid :=
  if m_finishRequested s then (false, s)
  else (true, {| m_finishRequested := true |}).

(** ** [OrderedExecutor<IDType>] *)

Section OrderedExecutor.
(** The program state that the priority functions read and the callbacks
    change.  A callback returns or throws, leaving the state it has reached
    by then. *)
Context {Env : Type}.

Definition IDType : Type := N.

Record CallerKey : Type := {
  key_id : IDType;          (* id *)
  sortingOrder : Z;         (* int32 sortingOrder *)
}.

(** [bool CallerKey::operator<(const CallerKey& other) const noexcept] *)
Definition CallerKey_lt (a other : CallerKey) : bool :=
  if negb (Z.eqb (sortingOrder a) (sortingOrder other)) then
    Z.ltb (sortingOrder a) (sortingOrder other)
  else N.ltb (key_id a) (key_id other).

Record Caller : Type := {
  func : Env -> option Exn * Env;    (* std::function<void()> *)
  sortingOrderFunc : Env -> Z;       (* std::function<int32()> *)
}.

(** [std::map<CallerKey, Caller>], in key order. *)
Definition CallerMap : Type := list (CallerKey * Caller).

Fixpoint callers_find (key : CallerKey) (m : CallerMap) : option Caller :=
  match m with
  | [] => None
  | (k, c) :: rest =>
      if CallerKey_lt k key || CallerKey_lt key k then callers_find key rest
      else Some c
  end.

Fixpoint callers_erase (key : CallerKey) (m : CallerMap) : CallerMap :=
  match m with
  | [] => []
  | (k, c) :: rest =>
      if CallerKey_lt k key || CallerKey_lt key k then (k, c) :: callers_erase key rest
      else rest
  end.

(** [insert]: the new map and whether the pair was inserted. *)
Fixpoint callers_insert (key : CallerKey) (c : Caller) (m : CallerMap)
  : CallerMap * bool :=
  match m with
  | [] => ([(key, c)], true)
  | (k, c') :: rest =>
      if CallerKey_lt key k then ((key, c) :: (k, c') :: rest, true)
      else if CallerKey_lt k key then
        let '(rest', inserted) := callers_insert key c rest in
        ((k, c') :: rest', inserted)
      else ((k, c') :: rest, false)
  end.

Record OrderedExecutor : Type := {
  m_nextID : IDType;
  m_callers : CallerMap;
  m_callerKeyByID : gmap IDType CallerKey;
}.

(** A default-constructed executor: [m_nextID = 1], empty maps. *)
Definition OrderedExecutor_new : OrderedExecutor :=
  {| m_nextID := 1; m_callers := []; m_callerKeyByID := ∅ |}.

(** The first loop of [refreshSortingOrder]: [m_tempNewSortingOrders]. *)
Definition tempNewSortingOrders (env : Env) (m : CallerMap)
  : list (CallerKey * Z) :=
  flat_map
    (fun '(key, caller) =>
       let newSortingOrder := sortingOrderFunc caller env in
       if negb (Z.eqb newSortingOrder (sortingOrder key))
       then [(key, newSortingOrder)] else [])
    m.

(** The second loop of [refreshSortingOrder]. *)
Fixpoint reinsert (changes : list (CallerKey * Z)) (ex : OrderedExecutor)
  : option Exn * OrderedExecutor :=
  match changes with
  | [] => (None, ex)
  | (oldKey, newSortingOrder) :: rest =>
      let id := key_id oldKey in
      match callers_find oldKey (m_callers ex) with
      | None => (Some (SivError (ExecutorNotFound id)), ex)
      | Some newCaller =>
          let erased := callers_erase oldKey (m_callers ex) in
          let newKey := {| key_id := id; sortingOrder := newSortingOrder |} in
          let '(callers', inserted) := callers_insert newKey newCaller erased in
          if negb inserted then
            (Some (SivError (ExecutorCannotInsert id)),
             {| m_nextID := m_nextID ex; m_callers := callers';
                m_callerKeyByID := m_callerKeyByID ex |})
          else
            reinsert rest
              {| m_nextID := m_nextID ex; m_callers := callers';
                 m_callerKeyByID := <[id := newKey]> (m_callerKeyByID ex) |}
      end
  end.

(** [void refreshSortingOrder()] *)
Definition refreshSortingOrder (ex : OrderedExecutor) (env : Env)
  : option Exn * OrderedExecutor :=
  reinsert (tempNewSortingOrders env (m_callers ex)) ex.

(** [IDType add(func, sortingOrderFunc)] *)
Definition add (f : Env -> option Exn * Env) (orderFunc : Env -> Z)
    (ex : OrderedExecutor) (env : Env) : Result IDType * OrderedExecutor :=
  let order := orderFunc env in
  let key := {| key_id := m_nextID ex; sortingOrder := order |} in
  let '(callers', inserted) :=
    callers_insert key {| func := f; sortingOrderFunc := orderFunc |} (m_callers ex) in
  let ex1 := {| m_nextID := m_nextID ex; m_callers := callers';
                m_callerKeyByID := m_callerKeyByID ex |} in
  if negb inserted then (Raise (SivError (ExecutorCannotInsert (m_nextID ex))), ex1)
  else
    match m_callerKeyByID ex !! m_nextID ex with
    | Some _ => (Raise (SivError (ExecutorInconsistent (m_nextID ex))), ex1)
    | None =>
        (Ok (m_nextID ex),
         {| m_nextID := uint64_succ (m_nextID ex); m_callers := callers';
            m_callerKeyByID := <[m_nextID ex := key]> (m_callerKeyByID ex) |})
    end.

(** [CallersIterator findByID(IDType id)]: the key the iterator points to. *)
Definition findByID (id : IDType) (ex : OrderedExecutor) : option CallerKey :=
  match m_callerKeyByID ex !! id with
  | None => None
  | Some key =>
      match callers_find key (m_callers ex) with
      | Some _ => Some key
      | None => None
      end
  end.

(** [void remove(IDType id)] *)
Definition remove (id : IDType) (ex : OrderedExecutor)
  : option Exn * OrderedExecutor :=
  match findByID id ex with
  | None =>
      match m_callerKeyByID ex !! id with
      | Some _ => (Some (SivError (ExecutorInconsistent id)), ex)
      | None => (None, ex)
      end
  | Some key =>
      (None,
       {| m_nextID := m_nextID ex;
          m_callers := callers_erase key (m_callers ex);
          m_callerKeyByID := delete id (m_callerKeyByID ex) |})
  end.

(** The loop of [call]: [caller.func()] for every entry in map order.  An
    exception thrown by a callback leaves the loop, which has no handler. *)
Fixpoint call_all (m : CallerMap) (env : Env) : option Exn * Env :=
  match m with
  | [] => (None, env)
  | (key, caller) :: rest =>
      match func caller env with
      | (Some e, env') => (Some e, env')
      | (None, env') => call_all rest env'
      end
  end.

(** [void call()]: the exception that leaves it, if any, the executor and
    the program state. *)
Definition call (ex : OrderedExecutor) (env : Env)
  : option Exn * OrderedExecutor * Env :=
  match refreshSortingOrder ex env with
  | (Some e, ex') => (Some e, ex', env)
  | (None, ex') =>
      let '(thrown, env') := call_all (m_callers ex') env in
      (thrown, ex', env')
  end.

(** [bool hasSortingOrder(int32 sortingOrder) const] *)
Definition hasSortingOrder (order : Z) (ex : OrderedExecutor) (env : Env) : bool :=
  existsb (fun '(_, caller) => Z.eqb (sortingOrderFunc caller env) order)
          (m_callers ex).

(** [bool hasSortingOrderInRange(int32 sortingOrderMin, int32 sortingOrderMax) const] *)
Definition hasSortingOrderInRange (sortingOrderMin sortingOrderMax : Z)
    (ex : OrderedExecutor) (env : Env) : bool :=
  existsb (fun '(_, caller) =>
             let order := sortingOrderFunc caller env in
             Z.leb sortingOrderMin order && Z.leb order sortingOrderMax)
          (m_callers ex).

End OrderedExecutor.

Arguments Caller : clear implicits.
Arguments CallerMap : clear implicits.
Arguments OrderedExecutor : clear implicits.

(** ** Reachable tasks *)

(** [result_of p x]: [x] is what the program [p] returns for some answers of
    the backend calls it makes. *)
Inductive result_of {X : Type} : Prog X -> X -> Prop :=
| result_Ret (x : X) : result_of (Ret x) x
| result_Emit (msg : string) (k : Prog X) (x : X) :
    result_of k x -> result_of (Emit msg k) x
| result_CallRemove (id : AwaiterID) (k : option Exn -> Prog X)
    (answer : option Exn) (x : X) :
    result_of (k answer) x -> result_of (CallRemove id k) x.

Section TaskHistory.
Context {Sub : Type} `{!IAwaiter Sub}.
Context {Conc : Type} `{!IAwaiter Conc}.
Context {F R : Type}.

(** [TaskHistory t n]: the task [t] comes from a coroutine call through
    calls of [with], [resume] and [value]; [n] of the [value] calls were
    made after its completion. *)
Inductive TaskHistory : Task Sub Conc F R -> nat -> Prop :=
| history_call (body : F -> option Sub -> Prog (BodyStep Sub F R)) (args : F) :
    TaskHistory (Task_new (coroutine body args)) 0
| history_with (t : Task Sub Conc F R) (n : nat) (c : Conc) (timing : WithTiming) :
    TaskHistory t n -> TaskHistory (Task_with t c timing) n
| history_resume (t t' : Task Sub Conc F R) (n : nat) :
    TaskHistory t n -> result_of (Task_resume t) t' -> TaskHistory t' n
| history_value (t : Task Sub Conc F R) (n : nat) :
    TaskHistory t n ->
    TaskHistory (snd (Task_value t)) (if Task_done t then S n else n).

(** The completion slot of a task. *)
Definition completion_slot (t : Task Sub Conc F R) : option (Result R) :=
  m_value (promise (m_handle t)).

(** One call of [resume] or [value] on a task. *)
Inductive task_call : Task Sub Conc F R -> Task Sub Conc F R -> Prop :=
| call_resume (t t' : Task Sub Conc F R) :
    result_of (Task_resume t) t' -> task_call t t'
| call_value (t : Task Sub Conc F R) :
    task_call t (snd (Task_value t)).

(** The facts that hold along every history of a task: the handle is at its
    final suspend point exactly when the result is set; then the slot is
    filled and no sub-awaiter is left; the result is marked consumed exactly
    when [value] was called after completion. *)
Definition history_invariant (t : Task Sub Conc F R) (n : nat) : Prop :=
  let h := m_handle t in
  let p := promise h in
  at_final_suspend h = m_isResultSet p /\
  (at_final_suspend h = true -> is_Some (m_value p) /\ m_pSubAwaiter p = None) /\
  m_resultConsumed p = negb (Nat.eqb n 0) /\
  (at_final_suspend h = false -> n = 0%nat).

End TaskHistory.

(** ** A scripted user coroutine, for concrete runs *)

(** The body runs one segment per resume and suspends with
    [co_await NextFrame()] after each; after the last segment it runs
    [final] and returns or throws what [final] gives. *)
Definition Script (R : Type) : Type := (list (Prog unit) * Prog (Result R))%type.

Definition script_code {R : Type} (fr : Script R) (_ : option Empty_set)
  : Prog (BodyStep Empty_set (Script R) R) :=
  match fr with
  | (segment :: rest, final) =>
      let* _ := segment in Ret (AtNextFrame (rest, final))
  | ([], final) =>
      let* r := final in
      Ret (match r with
           | Ok v => CoReturn v
           | Raise e => Unhandled e
           end)
  end.

Definition script_task {R : Type} (segments : list (Prog unit)) (final : Prog (Result R))
  : Task Empty_set Empty_set (Script R) R :=
  Task_new (coroutine script_code (segments, final)).

(** A coroutine suspended on a sub-task: [co_return co_await inner;] *)
Definition await_code {F R : Type}
    (fr : option (Task Empty_set Empty_set F R))
    (finished : option (Task Empty_set Empty_set F R))
  : Prog (BodyStep (Task Empty_set Empty_set F R)
                   (option (Task Empty_set Empty_set F R)) R) :=
  let goes_on (inner : Task Empty_set Empty_set F R) :=
    Ret (match fst (Task_value inner) with
         | Ok v => CoReturn v
         | Raise e => Unhandled e
         end) in
  match fr, finished with
  | Some inner, _ => co_await inner None goes_on
  | None, Some inner => goes_on inner
  | None, None => Ret (Unhandled (SivError TaskNotCompleted))
  end.

Definition await_task {F R : Type} (inner : Task Empty_set Empty_set F R)
  : Task (Task Empty_set Empty_set F R) Empty_set
         (option (Task Empty_set Empty_set F R)) R :=
  Task_new (coroutine await_code (Some inner)).

(** ** What the calls made on a [TaskFinishSource] are expected to answer *)

Section FinishSourceExpectation.
Context {V : Type}.

Definition is_result_call (c : FinishSourceCall V) : bool :=
  match c with
  | CallResult => true
  | CallRequestFinish _ => false
  end.

(** The first [requestFinish] of a list of calls: its argument and the
    calls made after it. *)
Fixpoint first_request (cs : list (FinishSourceCall V))
  : option (V * list (FinishSourceCall V)) :=
  match cs with
  | [] => None
  | CallRequestFinish v :: rest => Some (v, rest)
  | CallResult :: rest => first_request rest
  end.

(** [requestFinish] succeeds when no [requestFinish] came earlier. *)
Definition expected_accept (earlier : list (FinishSourceCall V)) : bool :=
  match first_request earlier with
  | None => true
  | Some _ => false
  end.

(** [result()] gives the value of the first [requestFinish] when no
    [result()] was made since, and fails otherwise. *)
Definition expected_result (earlier : list (FinishSourceCall V)) : Result V :=
  match first_request earlier with
  | None => Raise (SivError FinishSourceNoResult)
  | Some (v, later) =>
      if existsb is_result_call later then Raise (SivError FinishSourceOnlyOnce)
      else Ok v
  end.

Definition expected_answer (earlier : list (FinishSourceCall V))
    (c : FinishSourceCall V) : FinishSourceAnswer V :=
  match c with
  | CallRequestFinish _ => RequestFinishAnswer (expected_accept earlier)
  | CallResult => ResultAnswer (expected_result earlier)
  end.

(** The state of a fresh source after a list of calls. *)
Definition source_after (earlier : list (FinishSourceCall V)) : TaskFinishSource V :=
  match first_request earlier with
  | None => TaskFinishSource_new
  | Some (v, later) =>
      if existsb is_result_call later
      then {| m_result := None; fs_resultConsumed := true |}
      else {| m_result := Some v; fs_resultConsumed := false |}
  end.

End FinishSourceExpectation.

(** ** The states of the backend between two calls into it *)

Section BackendInvariant.
Context {R A : Type} `{!TaskAwaiter R A}.

(** The entries are in key order and every registered awaiter is
    unfinished. *)
Definition entries_wf (m : EntryMap (A:=A)) : Prop :=
  sorted_keys m /\ Forall (fun x => done (awaiter (snd x)) = false) m.

(** No entry is being resumed: no current identifier, removal flag down. *)
Definition backend_idle (b : Backend (A:=A)) : Prop :=
  entries_wf (m_awaiterEntries b) /\
  m_currentAwaiterID b = None /\
  m_currentAwaiterRemovalNeeded b = false.

Definition world_entries_wf (w : World (R:=R) (A:=A)) : Prop :=
  forall b, s_pInstance w = Some b -> entries_wf (m_awaiterEntries b).

Definition world_idle (w : World (R:=R) (A:=A)) : Prop :=
  forall b, s_pInstance w = Some b -> backend_idle b.


End BackendInvariant.

(** ** What one sweep of [update] is expected to do *)

Section SweepExpectation.
Context {R A : Type} `{!TaskAwaiter R A}.

(** Whether running [p] from [w] executes a [Backend::Remove(id)]. *)
Fixpoint calls_Remove {X : Type} (id : AwaiterID) (p : Prog X) (w : World (A:=A))
  : bool :=
  match p with
  | Ret _ => false
  | Emit msg k => calls_Remove id k (set_trace (trace w ++ [Emitted msg]) w)
  | CallRemove id' k =>
      let '(thrown, w') := Remove id' w in
      N.eqb id id' || calls_Remove id (k thrown) w'
  end.

(** What the end callback of an entry throws and what it adds to the
    trace. *)
Definition end_callback_thrown (e : AwaiterEntry (A:=A)) : option Exn :=
  fst (fst (callEndCallback e [])).

Definition end_callback_events (e : AwaiterEntry (A:=A)) : Trace (R:=R) :=
  snd (callEndCallback e []).

(** An entry after one resume of its awaiter, for an awaiter whose resume
    makes no backend call. *)
Definition resumed_entry (e : AwaiterEntry (A:=A)) : AwaiterEntry (A:=A) :=
  set_awaiter (returned (resume (awaiter e))) e.

Definition finishes (e : AwaiterEntry (A:=A)) : bool :=
  done (awaiter (resumed_entry e)).

(** Every entry is resumed, in key order; the entries that finish get
    their end callback called. *)
Definition sweep_events (m : EntryMap (A:=A)) : Trace (R:=R) :=
  flat_map
    (fun '(_, e) =>
       map Emitted (emitted (resume (awaiter e))) ++
       (if finishes e then end_callback_events (resumed_entry e) else []))
    m.

(** The entries that finish are erased, the others stay, resumed once. *)
Definition sweep_survivors (m : EntryMap (A:=A)) : EntryMap (A:=A) :=
  flat_map
    (fun '(id, e) => if finishes e then [] else [(id, resumed_entry e)])
    m.

(** The first exception thrown by an end callback, in key order. *)
Fixpoint sweep_exception (m : EntryMap (A:=A)) : option Exn :=
  match m with
  | [] => None
  | (_, e) :: rest =>
      match (if finishes e then end_callback_thrown (resumed_entry e) else None) with
      | Some exn => Some exn
      | None => sweep_exception rest
      end
  end.

(** What the sweep does when it comes to the identifier [id], whatever the
    coroutines do while they are resumed.  An entry that an earlier resume of
    the sweep has removed is passed over.  Otherwise the entry is resumed as
    the current one; if its awaiter has finished or its resume has called
    [Remove(id)], its end callback is called and the entry is erased, whether
    or not the callback throws; if not, it stays, resumed once.  The
    exception of the end callback, if any, is handed back. *)
Definition sweep_entry (id : AwaiterID) (w : World (R:=R) (A:=A))
  : option Exn * World (R:=R) (A:=A) :=
  match s_pInstance w with
  | None => (None, w)
  | Some b =>
      match map_find id (m_awaiterEntries b) with
      | None => (None, w)
      | Some e =>
          let w0 := set_instance (set_current (Some id) b) w in
          let a1 := fst (run (resume (awaiter e)) w0) in
          let w1 := snd (run (resume (awaiter e)) w0) in
          let e1 := set_awaiter a1 e in
          if calls_Remove id (resume (awaiter e)) w0 || done a1 then
            (end_callback_thrown e1,
             {| s_pInstance :=
                  option_map
                    (fun b1 =>
                       set_removalNeeded false
                         (set_entries (map_erase id (m_awaiterEntries b1)) b1))
                    (s_pInstance w1);
                trace := trace w1 ++ end_callback_events e1 |})
          else
            (None,
             {| s_pInstance :=
                  option_map
                    (fun b1 => set_entries (map_assign id e1 (m_awaiterEntries b1)) b1)
                    (s_pInstance w1);
                trace := trace w1 |})
      end
  end.

(** The sweep over the identifiers [ids], in that order: what the end
    callback called for each of them threw, and the state at the end.  What
    is done for an identifier does not depend on what was thrown before. *)
Fixpoint sweep (ids : list AwaiterID) (w : World (R:=R) (A:=A))
  : list (option Exn) * World (R:=R) (A:=A) :=
  match ids with
  | [] => ([], w)
  | id :: rest =>
      let '(thrown, w1) := sweep_entry id w in
      let '(others, w2) := sweep rest w1 in
      (thrown :: others, w2)
  end.

(** The first exception of a list of outcomes. *)
Fixpoint first_exception (outcomes : list (option Exn)) : option Exn :=
  match outcomes with
  | [] => None
  | Some exn :: _ => Some exn
  | None :: rest => first_exception rest
  end.

(** The same entry with callbacks that never throw. *)
Definition quiet (cb : option Callback) : option Callback :=
  match cb with
  | Some c => Some {| cb_label := cb_label c; cb_throws := None |}
  | None => None
  end.

Definition quiet_entry (e : AwaiterEntry (A:=A)) : AwaiterEntry (A:=A) :=
  {| awaiter := awaiter e;
     finishCallback :=
       match finishCallback e with
       | Some f =>
           Some {| captured_finishCallback := quiet (captured_finishCallback f);
                   captured_cancelCallback := quiet (captured_cancelCallback f) |}
       | None => None
       end;
     cancelCallback := quiet (cancelCallback e) |}.

End SweepExpectation.

(** ** The shape shared by the coroutines of [All] and [Any] *)

Section CombinatorShape.
Context {Sub : Type} `{!IAwaiter Sub}.
Context {Conc : Type} `{!IAwaiter Conc}.
Context {F V S : Type}.

(** One turn of a loop that resumes every argument, then finishes with
    [finish] if [ready] holds and waits for the next frame otherwise. *)
Definition waiting_loop
    (ready : list (Task Sub Conc F (result_type V)) -> bool)
    (finish : list (Task Sub Conc F (result_type V)) -> Result S)
    (args : list (Task Sub Conc F (result_type V)))
  : Prog (BodyStep Empty_set (CombinatorFrame (Sub:=Sub) (Conc:=Conc) (F:=F) (V:=V)) S) :=
  let* args' := for_each Task_resume args in
  if ready args' then Ret (co_return_or_throw (finish args'))
  else Ret (AtNextFrame (AtLoopNextFrame, args')).

(** [body] tests [ready] once before its loop and then runs the loop. *)
Definition waits_until
    (ready : list (Task Sub Conc F (result_type V)) -> bool)
    (finish : list (Task Sub Conc F (result_type V)) -> Result S)
    (body : CombinatorFrame (Sub:=Sub) (Conc:=Conc) (F:=F) (V:=V) ->
            option Empty_set ->
            Prog (BodyStep Empty_set (CombinatorFrame (Sub:=Sub) (Conc:=Conc) (F:=F) (V:=V)) S))
  : Prop :=
  (forall args o,
     body (AtInitialSuspend, args) o =
     if ready args then Ret (co_return_or_throw (finish args))
     else waiting_loop ready finish args) /\
  (forall args o, body (AtLoopNextFrame, args) o = waiting_loop ready finish args).

(** The combinator's coroutine suspended in its loop, holding [args]. *)
Definition waiting_in_loop
    (body : CombinatorFrame (Sub:=Sub) (Conc:=Conc) (F:=F) (V:=V) ->
            option Empty_set ->
            Prog (BodyStep Empty_set (CombinatorFrame (Sub:=Sub) (Conc:=Conc) (F:=F) (V:=V)) S))
    (args : list (Task Sub Conc F (result_type V)))
  : CoroutineHandle Empty_set (CombinatorFrame (Sub:=Sub) (Conc:=Conc) (F:=F) (V:=V)) S :=
  {| code := body; locals := (AtLoopNextFrame, args);
     at_final_suspend := false; promise := Promise_new |}.

End CombinatorShape.

(** ** Ticks *)

Section Ticks.
Context {R' A' : Type} `{!TaskAwaiter R' A'}.
Context {T : Type} `{!IAwaiter T}.

(** [n] resumes of one object, one per tick. *)
Fixpoint ticks (n : nat) (t : T) (w : World (R:=R') (A:=A'))
  : T * World (R:=R') (A:=A') :=
  match n with
  | O => (t, w)
  | S n' => let '(t1, w1) := ticks n' t w in run (resume t1) w1
  end.

(** Every object of the list resumed once, the first one first: each resume
    starts from the program state the one before it has left. *)
Fixpoint resumed_in_order (ts : list T) (w : World (R:=R') (A:=A'))
  : list T * World (R:=R') (A:=A') :=
  match ts with
  | [] => ([], w)
  | t :: rest =>
      let '(t1, w1) := run (resume t) w in
      let '(rest1, w2) := resumed_in_order rest w1 in
      (t1 :: rest1, w2)
  end.

(** [n] rounds in each of which every object of the list is resumed once,
    in list order. *)
Fixpoint rounds (n : nat) (ts : list T) (w : World (R:=R') (A:=A'))
  : list T * World (R:=R') (A:=A') :=
  match n with
  | O => (ts, w)
  | S n' => let '(ts1, w1) := rounds n' ts w in resumed_in_order ts1 w1
  end.

End Ticks.

(** ** Well-formed executors *)

Section ExecutorInvariant.
Context {Env : Type}.

Definition key_lt (a b : CallerKey) : Prop := CallerKey_lt a b = true.

(** The map is in strictly ascending key order. *)
Definition callers_sorted (m : CallerMap Env) : Prop :=
  StronglySorted (fun x y => key_lt (fst x) (fst y)) m.

(** The identifier and the caller of every entry. *)
Definition registered (m : CallerMap Env) : list (IDType * Caller Env) :=
  map (fun x => (key_id (fst x), snd x)) m.

(** The state [add], [remove] and [call] keep: the map is sorted, no
    identifier occurs twice, [m_callerKeyByID] knows the key of every entry
    and files every key under its own identifier. *)
Definition executor_wf (ex : OrderedExecutor Env) : Prop :=
  callers_sorted (m_callers ex) /\
  NoDup (map (fun x => key_id (fst x)) (m_callers ex)) /\
  (forall k c, In (k, c) (m_callers ex) -> m_callerKeyByID ex !! key_id k = Some k) /\
  (forall (id : IDType) k, m_callerKeyByID ex !! id = Some k -> key_id k = id).

(** The key of an entry once its priority has been read in [env]. *)
Definition refreshed_key (env : Env) (x : CallerKey * Caller Env) : CallerKey :=
  {| key_id := key_id (fst x); sortingOrder := sortingOrderFunc (snd x) env |}.

(** Invoking one more callback, given what the callbacks invoked so far
    have thrown and the program state they have left: once an exception is on
    its way no further callback is invoked. *)
Definition invoke_next (sofar : option Exn * Env) (c : Caller Env)
  : option Exn * Env :=
  match fst sofar with
  | Some _ => sofar
  | None => func c (snd sofar)
  end.

End ExecutorInvariant.

(** ** Concrete states and tasks used by the examples *)

(** The state of a program in which [Co::Init] was never called. *)
Definition world_without_backend
  : World (R:=nat) (A:=Task Empty_set Empty_set (Script nat) nat) :=
  {| s_pInstance := None; trace := [] |}.


(** [FromResult(5)] after its first resume. *)
Definition from_result_resumed : Task Empty_set Empty_set nat nat :=
  fst (run (Task_resume (FromResult 5%nat)) world_without_backend).

(** A task that takes three resumes, and [co_return co_await] of it after the
    first resume of the outer coroutine. *)
Definition three_frames : Task Empty_set Empty_set (Script nat) nat :=
  script_task [Emit "inner 1" (Ret tt); Emit "inner 2" (Ret tt)]
              (Emit "inner 3" (Ret (Ok 7%nat))).

Definition awaiting_three_frames
  : Task (Task Empty_set Empty_set (Script nat) nat) Empty_set
         (option (Task Empty_set Empty_set (Script nat) nat)) nat :=
  fst (run (Task_resume (await_task three_frames)) world_without_backend).

(** A program in which [Co::Init] has run and nothing was spawned yet. *)
Definition world_after_Init
  : World (R:=nat) (A:=Task Empty_set Empty_set (Script nat) nat) :=
  {| s_pInstance := Some Backend_new; trace := [] |}.

Definition say (msg : string) : Prog unit := Emit msg (Ret tt).

Definition callback (label : string) : option Callback :=
  Some {| cb_label := label; cb_throws := None |}.

Definition throwing_callback (label : string) (code : nat) : option Callback :=
  Some {| cb_label := label; cb_throws := Some (UserException code) |}.

(** Four tasks spawned one after the other: A finishes at the next tick and
    its finish callback throws; B fails at the next tick; C needs one more
    tick; D finishes at the next tick. *)
Definition world_with_four_tasks
  : World (R:=nat) (A:=Task Empty_set Empty_set (Script nat) nat) :=
  let w1 := snd (ScopedTaskRunner_new
                   (script_task [say "A1"] (Emit "A2" (Ret (Ok 10%nat))))
                   (throwing_callback "A finished" 1) (callback "A cancelled")
                   world_after_Init) in
  let w2 := snd (ScopedTaskRunner_new
                   (script_task [say "B1"] (Emit "B2" (Ret (Raise (UserException 2)))))
                   (callback "B finished") (callback "B cancelled") w1) in
  let w3 := snd (ScopedTaskRunner_new
                   (script_task [say "C1"; say "C2"] (Emit "C3" (Ret (Ok 30%nat))))
                   (callback "C finished") (callback "C cancelled") w2) in
  snd (ScopedTaskRunner_new
         (script_task [say "D1"] (Emit "D2" (Ret (Ok 40%nat))))
         (callback "D finished") (callback "D cancelled") w3).

Definition backend_of {R A : Type} `{!TaskAwaiter R A} (w : World (R:=R) (A:=A))
  : Backend (A:=A) :=
  match s_pInstance w with
  | Some b => b
  | None => Backend_new
  end.



(** The registered entry of a task [t] spawned with callbacks labelled
    [finished] and [cancelled], as [Backend::Add] builds it. *)
Definition entry_of (t : Task Empty_set Empty_set (Script nat) nat)
    (finished cancelled : string)
  : AwaiterEntry (A:=Task Empty_set Empty_set (Script nat) nat) :=
  {| awaiter := t;
     finishCallback :=
       Some {| captured_finishCallback := callback finished;
               captured_cancelCallback := callback cancelled |};
     cancelCallback := callback cancelled |}.


(** A task that, at its second resume, destroys the [ScopedTaskRunner] that
    owns it (identifier 1) and goes on waiting. *)
Definition removing_itself_then_waiting
  : Task Empty_set Empty_set (Script nat) nat :=
  script_task [say "T1"; CallRemove 1 (fun _ => say "T2"); say "T3"]
              (Ret (Ok 0%nat)).

(** The state right after spawning [t] as the first task. *)
Definition world_with_first_task (t : Task Empty_set Empty_set (Script nat) nat)
    (finished cancelled : string)
  : World (R:=nat) (A:=Task Empty_set Empty_set (Script nat) nat) :=
  snd (ScopedTaskRunner_new t (callback finished) (callback cancelled)
                            world_after_Init).


(** A compiler that evaluates the arguments of [std::make_tuple] from left to
    right: the first exception in argument order wins. *)
Definition leftmost (es : list Exn) : Exn :=
  match es with
  | e :: _ => e
  | [] => UserException 0
  end.

(** [A] returns 1 at its first resume, [B] returns (void) at its third one. *)
Definition task_A : Task Empty_set Empty_set (Script (result_type nat)) (result_type nat) :=
  script_task [] (Emit "A1" (Ret (Ok (Returned 1%nat)))).

Definition task_B : Task Empty_set Empty_set (Script (result_type nat)) (result_type nat) :=
  script_task [say "B1"; say "B2"] (Emit "B3" (Ret (Ok ReturnedVoid))).

(** [A'] throws at its second resume. *)
Definition task_A_failing
  : Task Empty_set Empty_set (Script (result_type nat)) (result_type nat) :=
  script_task [say "A1"] (Emit "A2" (Ret (Raise (UserException 9)))).

Definition All_A_B := All leftmost [task_A; task_B].

Definition Any_A_failing_B := Any leftmost [task_A_failing; task_B].

(** Three callbacks registered with priorities 10, 5 and 5, in that order.
    The program state is the priority of the first one, which the second
    callback lowers to 1 when it runs. *)
Definition executor_10_5_5 : OrderedExecutor Z :=
  let ex1 := snd (add (fun env => (None, env)) (fun env => env)
                      OrderedExecutor_new 10%Z) in
  let ex2 := snd (add (fun _ => (None, 1%Z)) (fun _ => 5%Z) ex1 10%Z) in
  snd (add (fun env => (None, env)) (fun _ => 5%Z) ex2 10%Z).

(** A program state in which the callbacks leave their names: the priority
    of the first callback, and the names of the callbacks invoked so far. *)
Definition Journal : Type := (Z * list string)%type.

Definition noting (name : string) (env : Journal) : option Exn * Journal :=
  (None, (fst env, snd env ++ [name])).

(** The same three callbacks, each leaving its name; the second one lowers
    the priority of the first one to 1. *)
Definition executor_with_journal : OrderedExecutor Journal :=
  let ex1 := snd (add (noting "first") fst OrderedExecutor_new (10%Z, [])) in
  let ex2 := snd (add (fun env => (None, (1%Z, snd env ++ ["second"%string])))
                      (fun _ => 5%Z) ex1 (10%Z, [])) in
  snd (add (noting "third") (fun _ => 5%Z) ex2 (10%Z, [])).

(** Three callbacks of priorities 10, 5 and 5 again; the second one leaves
    its name and throws. *)
Definition executor_with_failing_callback : OrderedExecutor Journal :=
  let ex1 := snd (add (noting "first") fst OrderedExecutor_new (10%Z, [])) in
  let ex2 := snd (add (fun env => (Some (UserException 8),
                                   (fst env, snd env ++ ["second"%string])))
                      (fun _ => 5%Z) ex1 (10%Z, [])) in
  snd (add (noting "third") (fun _ => 5%Z) ex2 (10%Z, [])).

(** Two tasks spawned one after the other.  The first one removes its own
    entry at its second resume and goes on waiting, and its cancel callback
    throws; the second one finishes at its second resume. *)
Definition world_with_self_removal
  : World (R:=nat) (A:=Task Empty_set Empty_set (Script nat) nat) :=
  let w1 := snd (ScopedTaskRunner_new
                   (script_task [say "P1"; CallRemove 1 (fun _ => say "P2"); say "P3"]
                                (Ret (Ok 0%nat)))
                   (callback "P finished") (throwing_callback "P cancelled" 4)
                   world_after_Init) in
  snd (ScopedTaskRunner_new
         (script_task [say "Q1"] (Emit "Q2" (Ret (Ok 20%nat))))
         (callback "Q finished") (callback "Q cancelled") w1).

(** ** The executors of [Backend], [ScopedDrawer], [ScopedUpdateInputCaller] *)

(** [namespace DrawIndex] *)
Module DrawIndex.
Definition Back : Z := (-1)%Z.
Definition Default : Z := 0%Z.
Definition Front : Z := 1%Z.

Definition ModalMin : Z := 100000%Z.
Definition ModalBack : Z := 149999%Z.
Definition Modal : Z := 150000%Z.
Definition ModalFront : Z := 150001%Z.
Definition ModalMax : Z := 199999%Z.

Definition FadeInMin : Z := 200000%Z.
Definition FadeInBack : Z := 249999%Z.
Definition FadeIn : Z := 250000%Z.
Definition FadeInFront : Z := 250001%Z.
Definition FadeInMax : Z := 299999%Z.

Definition FadeOutMin : Z := 300000%Z.
Definition FadeOutBack : Z := 349999%Z.
Definition FadeOut : Z := 350000%Z.
Definition FadeOutFront : Z := 350001%Z.
Definition FadeOutMax : Z := 399999%Z.
End DrawIndex.

Section BackendExecutors.
Context {Env : Type}.

(** The members [m_updateInputExecutor] and [m_drawExecutor] of [Backend].
    No function of the class touches both these and the awaiter members, so
    the two halves of the object are kept apart; [s_pInstance] is the
    [option] around this record. *)
Record Executors : Type := {
  m_updateInputExecutor : OrderedExecutor Env;
  m_drawExecutor : OrderedExecutor Env;
}.

Definition Executors_new : Executors :=
  {| m_updateInputExecutor := OrderedExecutor_new;
     m_drawExecutor := OrderedExecutor_new |}.

Definition set_updateInputExecutor (ex : OrderedExecutor Env) (b : Executors)
  : Executors :=
  {| m_updateInputExecutor := ex; m_drawExecutor := m_drawExecutor b |}.

Definition set_drawExecutor (ex : OrderedExecutor Env) (b : Executors) : Executors :=
  {| m_updateInputExecutor := m_updateInputExecutor b; m_drawExecutor := ex |}.

(** [void Backend::draw()]:
    [m_updateInputExecutor.call(); m_drawExecutor.call();].  The exception
    that leaves it, if any, the new executors and the program state. *)
Definition Backend_draw (b : Executors) (env : Env)
  : option Exn * Executors * Env :=
  match call (m_updateInputExecutor b) env with
  | (Some e, ex1, env1) => (Some e, set_updateInputExecutor ex1 b, env1)
  | (None, ex1, env1) =>
      let b1 := set_updateInputExecutor ex1 b in
      let '(thrown, ex2, env2) := call (m_drawExecutor b1) env1 in
      (thrown, set_drawExecutor ex2 b1, env2)
  end.

(** [static UpdateInputCallerID Backend::AddUpdateInputCaller(func, negativeDrawIndexFunc)] *)
Definition AddUpdateInputCaller (f : Env -> option Exn * Env) (negativeDrawIndexFunc : Env -> Z)
    (inst : option Executors) (env : Env) : Result IDType * option Executors :=
  match inst with
  | None => (Raise (SivError BackendNotInitialized), None)
  | Some b =>
      let '(r, ex) := add f negativeDrawIndexFunc (m_updateInputExecutor b) env in
      (r, Some (set_updateInputExecutor ex b))
  end.

(** [static void Backend::RemoveUpdateInputCaller(UpdateInputCallerID id)] *)
Definition RemoveUpdateInputCaller (id : IDType) (inst : option Executors)
  : option Exn * option Executors :=
  match inst with
  | None => (None, None)
  | Some b =>
      let '(thrown, ex) := remove id (m_updateInputExecutor b) in
      (thrown, Some (set_updateInputExecutor ex b))
  end.

(** [static DrawerID Backend::AddDrawer(func, drawIndexFunc)] *)
Definition AddDrawer (f : Env -> option Exn * Env) (drawIndexFunc : Env -> Z)
    (inst : option Executors) (env : Env) : Result IDType * option Executors :=
  match inst with
  | None => (Raise (SivError BackendNotInitialized), None)
  | Some b =>
      let '(r, ex) := add f drawIndexFunc (m_drawExecutor b) env in
      (r, Some (set_drawExecutor ex b))
  end.

(** [static void Backend::RemoveDrawer(DrawerID id)] *)
Definition RemoveDrawer (id : IDType) (inst : option Executors)
  : option Exn * option Executors :=
  match inst with
  | None => (None, None)
  | Some b =>
      let '(thrown, ex) := remove id (m_drawExecutor b) in
      (thrown, Some (set_drawExecutor ex b))
  end.

(** [static bool Backend::HasActiveDrawer(int32 drawIndex)] and
    [Co::HasActiveDrawer], which forwards to it. *)
Definition HasActiveDrawer (drawIndex : Z) (inst : option Executors) (env : Env)
  : Result bool :=
  match inst with
  | None => Raise (SivError BackendNotInitialized)
  | Some b => Ok (hasSortingOrder drawIndex (m_drawExecutor b) env)
  end.

(** [static bool Backend::HasActiveDrawerInRange(int32 drawIndexMin, int32 drawIndexMax)]
    and [Co::HasActiveDrawerInRange]. *)
Definition HasActiveDrawerInRange (drawIndexMin drawIndexMax : Z)
    (inst : option Executors) (env : Env) : Result bool :=
  match inst with
  | None => Raise (SivError BackendNotInitialized)
  | Some b =>
      Ok (hasSortingOrderInRange drawIndexMin drawIndexMax (m_drawExecutor b) env)
  end.

(** [bool HasActiveModal()] *)
Definition HasActiveModal (inst : option Executors) (env : Env) : Result bool :=
  HasActiveDrawerInRange DrawIndex.ModalMin DrawIndex.ModalMax inst env.

(** [bool HasActiveFadeIn()] *)
Definition HasActiveFadeIn (inst : option Executors) (env : Env) : Result bool :=
  HasActiveDrawerInRange DrawIndex.FadeInMin DrawIndex.FadeInMax inst env.

(** [bool HasActiveFadeOut()] *)
Definition HasActiveFadeOut (inst : option Executors) (env : Env) : Result bool :=
  HasActiveDrawerInRange DrawIndex.FadeOutMin DrawIndex.FadeOutMax inst env.

(** [bool HasActiveFade()]: [HasActiveFadeIn() || HasActiveFadeOut()] *)
Definition HasActiveFade (inst : option Executors) (env : Env) : Result bool :=
  match HasActiveFadeIn inst env with
  | Raise e => Raise e
  | Ok true => Ok true
  | Ok false => HasActiveFadeOut inst env
  end.

(** *** [ScopedDrawer] *)

Record ScopedDrawer : Type := { drawer_id : option IDType }.

(** [ScopedDrawer(func, drawIndexFunc)]: no object exists when [AddDrawer]
    throws. *)
Definition ScopedDrawer_new_with (f : Env -> option Exn * Env) (drawIndexFunc : Env -> Z)
    (inst : option Executors) (env : Env) : Result ScopedDrawer * option Executors :=
  match AddDrawer f drawIndexFunc inst env with
  | (Ok id, inst') => (Ok {| drawer_id := Some id |}, inst')
  | (Raise e, inst') => (Raise e, inst')
  end.

(** [ScopedDrawer(func, drawIndex)]: the index function is
    [[drawIndex] { return drawIndex; }]. *)
Definition ScopedDrawer_new_at (f : Env -> option Exn * Env) (drawIndex : Z)
    (inst : option Executors) (env : Env) : Result ScopedDrawer * option Executors :=
  ScopedDrawer_new_with f (fun _ => drawIndex) inst env.

(** [ScopedDrawer(func)]: the index function is
    [[] { return DrawIndex::Default; }]. *)
Definition ScopedDrawer_new (f : Env -> option Exn * Env)
    (inst : option Executors) (env : Env) : Result ScopedDrawer * option Executors :=
  ScopedDrawer_new_with f (fun _ => DrawIndex.Default) inst env.

(** [ScopedDrawer(ScopedDrawer&& rhs)]: the new object and what is left of
    [rhs]. *)
Definition ScopedDrawer_move (rhs : ScopedDrawer) : ScopedDrawer * ScopedDrawer :=
  ({| drawer_id := drawer_id rhs |}, {| drawer_id := None |}).

(** [~ScopedDrawer()] *)
Definition ScopedDrawer_destroy (d : ScopedDrawer) (inst : option Executors)
  : option Exn * option Executors :=
  match drawer_id d with
  | Some id => RemoveDrawer id inst
  | None => (None, inst)
  end.

(** *** [ScopedUpdateInputCaller] *)

Record ScopedUpdateInputCaller : Type := { caller_id : option IDType }.

(** [ScopedUpdateInputCaller(func, negativeDrawIndexFunc)] *)
Definition ScopedUpdateInputCaller_new (f : Env -> option Exn * Env)
    (negativeDrawIndexFunc : Env -> Z) (inst : option Executors) (env : Env)
  : Result ScopedUpdateInputCaller * option Executors :=
  match AddUpdateInputCaller f negativeDrawIndexFunc inst env with
  | (Ok id, inst') => (Ok {| caller_id := Some id |}, inst')
  | (Raise e, inst') => (Raise e, inst')
  end.

(** [~ScopedUpdateInputCaller()] *)
Definition ScopedUpdateInputCaller_destroy (c : ScopedUpdateInputCaller)
    (inst : option Executors) : option Exn * option Executors :=
  match caller_id c with
  | Some id => RemoveUpdateInputCaller id inst
  | None => (None, inst)
  end.

(** *** More of what a well-formed executor keeps *)

(** Every key filed in [m_callerKeyByID] is filed under its own identifier
    and is the key of an entry of [m_callers]. *)
Definition index_sound (ex : OrderedExecutor Env) : Prop :=
  forall (id : IDType) k,
    m_callerKeyByID ex !! id = Some k ->
    key_id k = id /\ exists c, In (k, c) (m_callers ex).

(** Every identifier in use was handed out by [add]: it is below
    [m_nextID]. *)
Definition ids_below (ex : OrderedExecutor Env) : Prop :=
  forall (id : IDType) k, m_callerKeyByID ex !! id = Some k -> id < m_nextID ex.

(** The executor with [m_nextID] advanced as one [add] does. *)
Definition with_next_id (ex : OrderedExecutor Env) : OrderedExecutor Env :=
  {| m_nextID := uint64_succ (m_nextID ex);
     m_callers := m_callers ex;
     m_callerKeyByID := m_callerKeyByID ex |}.

End BackendExecutors.

Arguments Executors : clear implicits.

(** A backend whose draw executor holds the three callbacks of
    [executor_10_5_5] and whose update-input executor is empty. *)
Definition executors_10_5_5 : Executors Z :=
  {| m_updateInputExecutor := OrderedExecutor_new;
     m_drawExecutor := executor_10_5_5 |}.

(** A backend whose update-input executor holds one callback, which raises
    the priority of the first drawer to 20, and whose draw executor is
    [executor_with_journal]. *)
Definition executors_with_journal : Executors Journal :=
  {| m_updateInputExecutor :=
       snd (add (fun env => (None, (20%Z, snd env ++ ["input"%string])))
                (fun _ => 0%Z) OrderedExecutor_new (10%Z, []));
     m_drawExecutor := executor_with_journal |}.

(** The same backend with one more update-input callback, of priority 1,
    which leaves its name and throws. *)
Definition executors_with_failing_input : Executors Journal :=
  set_updateInputExecutor
    (snd (add (fun env => (Some (UserException 5), (fst env, snd env ++ ["failing"%string])))
              (fun _ => 1%Z) (m_updateInputExecutor executors_with_journal)
              (10%Z, [])))
    executors_with_journal.

(** ** More of the awaiter registry *)

Section RegistryExtras.
Context {R A : Type} `{!TaskAwaiter R A}.

(** The entry that [Backend::Add] builds for an awaiter and its two
    callbacks. *)
Definition new_entry (a : A) (finishCallback cancelCallback : option Callback)
  : AwaiterEntry (A:=A) :=
  {| awaiter := a;
     finishCallback :=
       Some {| captured_finishCallback := finishCallback;
               captured_cancelCallback := cancelCallback |};
     cancelCallback := cancelCallback |}.

(** Every registered identifier was handed out by [Add]: it is below
    [m_nextAwaiterID]. *)
Definition ids_issued (b : Backend (A:=A)) : Prop :=
  Forall (fun k => k < m_nextAwaiterID b) (keys (m_awaiterEntries b)).

(** From [b] to [b'] no entry was added and no identifier handed out. *)
Definition no_new_entries (b b' : Backend (A:=A)) : Prop :=
  sublist (keys (m_awaiterEntries b')) (keys (m_awaiterEntries b)) /\
  m_nextAwaiterID b' = m_nextAwaiterID b.

(** [void ScopedTaskRunner::forget()] *)
Definition ScopedTaskRunner_forget (r : ScopedTaskRunner) : ScopedTaskRunner :=
  {| m_id := None |}.

(** [ScopedTaskRunner(ScopedTaskRunner&& rhs)]: the new runner and what is
    left of [rhs]. *)
Definition ScopedTaskRunner_move (rhs : ScopedTaskRunner)
  : ScopedTaskRunner * ScopedTaskRunner :=
  ({| m_id := m_id rhs |}, {| m_id := None |}).

(** *** [MultiRunner] *)

Record MultiRunner : Type := { m_runners : list ScopedTaskRunner }.

(** [MultiRunner() = default] *)
Definition MultiRunner_new : MultiRunner := {| m_runners := [] |}.

(** [void MultiRunner::add(ScopedTaskRunner&& runner)] *)
Definition MultiRunner_add (runner : ScopedTaskRunner) (mr : MultiRunner)
  : MultiRunner :=
  {| m_runners := m_runners mr ++ [runner] |}.

(** [void Task::runAddTo(MultiRunner& mr, finishCallback, cancelCallback) &&]:
    nothing is added when the constructor of the runner throws. *)
Definition Task_runAddTo (task : A) (finishCallback cancelCallback : option Callback)
    (mr : MultiRunner) (w : World (R:=R) (A:=A))
  : option Exn * MultiRunner * World (R:=R) (A:=A) :=
  match ScopedTaskRunner_new task finishCallback cancelCallback w with
  | (Ok runner, w') => (None, MultiRunner_add runner mr, w')
  | (Raise e, w') => (Some e, mr, w')
  end.

(** The loop of [requestCancelAll]: it stops at the first runner whose
    [requestCancel] throws. *)
Fixpoint requestCancel_each (runners : list ScopedTaskRunner)
    (w : World (R:=R) (A:=A))
  : option Exn * list ScopedTaskRunner * World (R:=R) (A:=A) :=
  match runners with
  | [] => (None, [], w)
  | runner :: rest =>
      match ScopedTaskRunner_requestCancel runner w with
      | (Some e, runner', w') => (Some e, runner' :: rest, w')
      | (None, runner', w') =>
          let '(thrown, rest', w'') := requestCancel_each rest w' in
          (thrown, runner' :: rest', w'')
      end
  end.

(** [void MultiRunner::requestCancelAll()] *)
Definition MultiRunner_requestCancelAll (mr : MultiRunner) (w : World (R:=R) (A:=A))
  : option Exn * MultiRunner * World (R:=R) (A:=A) :=
  let '(thrown, runners, w') := requestCancel_each (m_runners mr) w in
  (thrown, {| m_runners := runners |}, w').

(** [std::ranges::all_of(m_runners, done)]: the runners are asked in
    order, up to the first one that is not done or whose [done()] throws. *)
Fixpoint all_of_done (runners : list ScopedTaskRunner) (w : World (R:=R) (A:=A))
  : Result bool :=
  match runners with
  | [] => Ok true
  | runner :: rest =>
      match ScopedTaskRunner_done runner w with
      | Raise e => Raise e
      | Ok false => Ok false
      | Ok true => all_of_done rest w
      end
  end.

(** [std::ranges::any_of(m_runners, done)]: up to the first one that is
    done or whose [done()] throws. *)
Fixpoint any_of_done (runners : list ScopedTaskRunner) (w : World (R:=R) (A:=A))
  : Result bool :=
  match runners with
  | [] => Ok false
  | runner :: rest =>
      match ScopedTaskRunner_done runner w with
      | Raise e => Raise e
      | Ok true => Ok true
      | Ok false => any_of_done rest w
      end
  end.

(** [bool MultiRunner::allDone() const] *)
Definition MultiRunner_allDone (mr : MultiRunner) (w : World (R:=R) (A:=A))
  : Result bool :=
  all_of_done (m_runners mr) w.

(** [bool MultiRunner::anyDone() const] *)
Definition MultiRunner_anyDone (mr : MultiRunner) (w : World (R:=R) (A:=A))
  : Result bool :=
  any_of_done (m_runners mr) w.

End RegistryExtras.

(** A task registered as the first one with a cancel callback that throws. *)
Definition world_with_throwing_cancel
  : World (R:=nat) (A:=Task Empty_set Empty_set (Script nat) nat) :=
  snd (ScopedTaskRunner_new three_frames
         (callback "U finished") (throwing_callback "U cancelled" 3)
         world_after_Init).

(** A [MultiRunner] holding the runners of the tasks 1 and 3 of
    [world_with_four_tasks] and an empty runner. *)
Definition runners_1_3_none : MultiRunner :=
  MultiRunner_add {| m_id := None |}
    (MultiRunner_add {| m_id := Some 3 |}
       (MultiRunner_add {| m_id := Some 1 |} MultiRunner_new)).

(** ** More of the library's coroutines *)

(** [bool done() const noexcept] of [TaskFinishSource<void>] *)
Definition TaskFinishSourceVoid_done (s : TaskFinishSourceVoid) : bool :=
  m_finishRequested s.

(** [n] calls of [requestFinish()] in a row: their answers and the source
    they leave. *)
Fixpoint requestFinish_void_times (n : nat) (s : TaskFinishSourceVoid)
  : list bool * TaskFinishSourceVoid :=
  match n with
  | O => ([], s)
  | S n' =>
      let '(accepted, s1) := requestFinish_void s in
      let '(answers, s2) := requestFinish_void_times n' s1 in
      (accepted :: answers, s2)
  end.

Section PollingTasks.
(** The state of a callable object given by the user (what a lambda has
    captured): calling the object is user code, which returns or throws and
    may change that state. *)
Context {P : Type}.

(** [Task<void> WaitUntil(TPredicate predicate)]:
    [while (!predicate()) { co_await NextFrame(); }].
    The frame holds the predicate. *)
Definition WaitUntil_code (predicate : P -> Prog (Result bool * P))
    (fr : P) (_ : option Empty_set) : Prog (BodyStep Empty_set P unit) :=
  let* '(holds, fr') := predicate fr in
  match holds with
  | Raise e => Ret (Unhandled e)
  | Ok true => Ret (CoReturn tt)
  | Ok false => Ret (AtNextFrame fr')
  end.

Definition WaitUntil (predicate : P -> Prog (Result bool * P)) (captured : P)
  : Task Empty_set Empty_set P unit :=
  Task_new (coroutine (WaitUntil_code predicate) captured).

(** [Task<void> WaitWhile(TPredicate predicate)]:
    [while (predicate()) { co_await NextFrame(); }] *)
Definition WaitWhile_code (predicate : P -> Prog (Result bool * P))
    (fr : P) (_ : option Empty_set) : Prog (BodyStep Empty_set P unit) :=
  let* '(holds, fr') := predicate fr in
  match holds with
  | Raise e => Ret (Unhandled e)
  | Ok true => Ret (AtNextFrame fr')
  | Ok false => Ret (CoReturn tt)
  end.

Definition WaitWhile (predicate : P -> Prog (Result bool * P)) (captured : P)
  : Task Empty_set Empty_set P unit :=
  Task_new (coroutine (WaitWhile_code predicate) captured).

(** [Task<void> UpdaterTask(std::function<void()> updateFunc)]:
    [while (true) { updateFunc(); co_await NextFrame(); }] *)
Definition UpdaterTask_code (updateFunc : P -> Prog (option Exn * P))
    (fr : P) (_ : option Empty_set) : Prog (BodyStep Empty_set P unit) :=
  let* '(thrown, fr') := updateFunc fr in
  match thrown with
  | Some e => Ret (Unhandled e)
  | None => Ret (AtNextFrame fr')
  end.

Definition UpdaterTask (updateFunc : P -> Prog (option Exn * P)) (captured : P)
  : Task Empty_set Empty_set P unit :=
  Task_new (coroutine (UpdaterTask_code updateFunc) captured).

(** [Task<TResult> UpdaterTask(std::function<void(TaskFinishSource<TResult>&)> updateFunc)]:
    the frame holds [updateFunc] and the local [taskFinishSource], which
    [updateFunc] receives by reference. *)
Definition UpdaterTaskFor_code {V : Type}
    (updateFunc : P -> TaskFinishSource V -> Prog (option Exn * P * TaskFinishSource V))
    (fr : P * TaskFinishSource V) (_ : option Empty_set)
  : Prog (BodyStep Empty_set (P * TaskFinishSource V) V) :=
  let* '(thrown, captured', taskFinishSource) := updateFunc (fst fr) (snd fr) in
  match thrown with
  | Some e => Ret (Unhandled e)
  | None =>
      if hasResult taskFinishSource then
        match fst (result taskFinishSource) with
        | Ok v => Ret (CoReturn v)
        | Raise e => Ret (Unhandled e)
        end
      else Ret (AtNextFrame (captured', taskFinishSource))
  end.

Definition UpdaterTaskFor {V : Type}
    (updateFunc : P -> TaskFinishSource V -> Prog (option Exn * P * TaskFinishSource V))
    (captured : P) : Task Empty_set Empty_set (P * TaskFinishSource V) V :=
  Task_new (coroutine (UpdaterTaskFor_code updateFunc) (captured, TaskFinishSource_new)).

End PollingTasks.

(** *** What a coroutine that polls once per resume is expected to do *)

Section Polling.
Context {R' A' : Type} `{!TaskAwaiter R' A'}.
Context {F R : Type}.

(** [body] makes one poll per run: [step] says how the poll ends (with the
    result or the exception of the coroutine, or with nothing yet) and what
    the frame is afterwards. *)
Definition polls_with (step : F -> Prog (option (Result R) * F))
    (body : F -> option Empty_set -> Prog (BodyStep Empty_set F R)) : Prop :=
  forall (fr : F) (o : option Empty_set) (w : World (R:=R') (A:=A')),
    run (body fr o) w =
    (match fst (fst (run (step fr) w)) with
     | Some (Ok v) => CoReturn v
     | Some (Raise e) => Unhandled e
     | None => AtNextFrame (snd (fst (run (step fr) w)))
     end,
     snd (run (step fr) w)).

(** The first [n] polls, stopping at the first one that ends the
    coroutine: how the last poll made ended, the frame and the program state
    it left. *)
Fixpoint polls (step : F -> Prog (option (Result R) * F)) (n : nat)
    (fr : F) (w : World (R:=R') (A:=A'))
  : option (Result R) * F * World (R:=R') (A:=A') :=
  match n with
  | O => (None, fr, w)
  | S n' =>
      let '(outcome, fr1, w1) := polls step n' fr w in
      match outcome with
      | Some _ => (outcome, fr1, w1)
      | None => let '(outcome', fr2, w2) := run (step fr1) w1 in (outcome', fr2, w2)
      end
  end.

End Polling.

Section PollingSteps.
Context {P : Type}.

(** One poll of [WaitUntil]: a call of the predicate. *)
Definition WaitUntil_poll (predicate : P -> Prog (Result bool * P)) (fr : P)
  : Prog (option (Result unit) * P) :=
  let* '(holds, fr') := predicate fr in
  Ret (match holds with
       | Raise e => Some (Raise e)
       | Ok true => Some (Ok tt)
       | Ok false => None
       end, fr').

(** One poll of [WaitWhile]. *)
Definition WaitWhile_poll (predicate : P -> Prog (Result bool * P)) (fr : P)
  : Prog (option (Result unit) * P) :=
  let* '(holds, fr') := predicate fr in
  Ret (match holds with
       | Raise e => Some (Raise e)
       | Ok true => None
       | Ok false => Some (Ok tt)
       end, fr').

(** The predicate that answers the opposite. *)
Definition negated (predicate : P -> Prog (Result bool * P)) (fr : P)
  : Prog (Result bool * P) :=
  let* '(holds, fr') := predicate fr in
  Ret (match holds with
       | Raise e => Raise e
       | Ok h => Ok (negb h)
       end, fr').

(** One poll of [UpdaterTask(updateFunc)]: a call of [updateFunc]. *)
Definition UpdaterTask_poll (updateFunc : P -> Prog (option Exn * P)) (fr : P)
  : Prog (option (Result unit) * P) :=
  let* '(thrown, fr') := updateFunc fr in
  Ret (match thrown with
       | Some e => Some (Raise e)
       | None => None
       end, fr').

(** One poll of [UpdaterTask<TResult>(updateFunc)]: a call of [updateFunc]
    on the source, then a look at the source. *)
Definition UpdaterTaskFor_poll {V : Type}
    (updateFunc : P -> TaskFinishSource V -> Prog (option Exn * P * TaskFinishSource V))
    (fr : P * TaskFinishSource V)
  : Prog (option (Result V) * (P * TaskFinishSource V)) :=
  let* '(thrown, captured', taskFinishSource) := updateFunc (fst fr) (snd fr) in
  Ret (match thrown with
       | Some e => Some (Raise e)
       | None =>
           if hasResult taskFinishSource
           then Some (fst (result taskFinishSource))
           else None
       end, (captured', taskFinishSource)).

End PollingSteps.

(** *** [DiscardResult] *)

Section DiscardResult.
Context {Sub : Type} `{!IAwaiter Sub}.
Context {Conc : Type} `{!IAwaiter Conc}.
Context {F R : Type}.

(** [Task<void> DiscardResult(std::unique_ptr<Task<TResult>> task)]: its
    body is one [co_await] of the task the pointer holds.
    The frame holds the task up to the [co_await]; from then on the task
    lives in the awaiter the coroutine is suspended on, which is handed
    back when it has finished.  ([None] for both does not occur.) *)
Definition DiscardResult_code
    (fr : option (Task Sub Conc F R)) (finished : option (Task Sub Conc F R))
  : Prog (BodyStep (Task Sub Conc F R) (option (Task Sub Conc F R)) unit) :=
  let await_resume (task : Task Sub Conc F R) :=
    Ret (match fst (Task_value task) with
         | Ok _ => CoReturn tt
         | Raise e => Unhandled e
         end) in
  match fr, finished with
  | Some task, _ => co_await task None await_resume
  | None, Some task => await_resume task
  | None, None => Ret (Unhandled (SivError TaskNotCompleted))
  end.

(** [Task<void> Task::discardResult() &&] *)
Definition Task_discardResult (t : Task Sub Conc F R)
  : Task (Task Sub Conc F R) Empty_set (option (Task Sub Conc F R)) unit :=
  Task_new (coroutine DiscardResult_code (Some t)).

(** What [discardResult] makes of the result of the task. *)
Definition discarded (r : Result R) : Result unit :=
  match r with
  | Ok _ => Ok tt
  | Raise e => Raise e
  end.

End DiscardResult.

(** One poll of [DelayFrame]: the test [i < frames] of its loop. *)
Definition DelayFrame_poll (fr : Z * option Z)
  : Prog (option (Result unit) * (Z * option Z)) :=
  let '(frames, at_loop) := fr in
  let i := match at_loop with
           | None => 0%Z
           | Some i => (i + 1)%Z
           end in
  Ret (if (i <? frames)%Z then (None, (frames, Some i)) else (Some (Ok tt), fr)).

(** A predicate that counts its calls, says so, and holds at its [k]-th
    call only. *)
Definition holds_at_call (k : nat) (calls : nat) : Prog (Result bool * nat) :=
  Emit "asked" (Ret (Ok (Nat.eqb (S calls) k), S calls)).

(** An update function that counts its calls and requests the finish with
    the number of the call at its [k]-th call. *)
Definition finishes_at_call (k : nat) (calls : nat) (source : TaskFinishSource nat)
  : Prog (option Exn * nat * TaskFinishSource nat) :=
  Emit "updated"
    (Ret (None, S calls,
          if Nat.eqb (S calls) k then snd (requestFinish (S calls) source)
          else source)).

(** ** A task alone in the backend *)

Section Alone.
Context {R A : Type} `{!TaskAwaiter R A}.

(** An awaiter after [n] resumes, and the messages these resumes emit, for
    an awaiter whose resumes make no call into the backend. *)
Fixpoint resumed (n : nat) (a : A) : A :=
  match n with
  | O => a
  | S n' => returned (resume (resumed n' a))
  end.

Fixpoint messages (n : nat) (a : A) : list string :=
  match n with
  | O => []
  | S n' => messages n' a ++ emitted (resume (resumed n' a))
  end.

(** [k] calls of [Backend::update] in a row: what each of them rethrew,
    and the state after the last one. *)
Fixpoint updates (k : nat) (w : World (R:=R) (A:=A))
  : option (list (option Exn) * World (R:=R) (A:=A)) :=
  match k with
  | O => Some ([], w)
  | S k' =>
      match updates k' w with
      | Some (thrown, w') =>
          match update w' with
          | Some (exn, w'') => Some (thrown ++ [exn], w'')
          | None => None
          end
      | None => None
      end
  end.

(** The state of a program whose backend holds one entry, registered first,
    for the awaiter [a] after [n] resumes; [tr0] is the trace from before
    the awaiter was spawned. *)
Definition alone_after (n : nat) (a : A) (finishCallback cancelCallback : option Callback)
    (tr0 : Trace (R:=R)) : World (R:=R) (A:=A) :=
  {| s_pInstance :=
       Some {| m_nextAwaiterID := 2;
               m_currentAwaiterID := None;
               m_currentAwaiterRemovalNeeded := false;
               m_awaiterEntries :=
                 [(1, new_entry (resumed n a) finishCallback cancelCallback)] |};
     trace := tr0 ++ map Emitted (messages n a) |}.

End Alone.
(** * Theorems *)

(** ** Running programs *)

Section RunFacts.
Context {R A : Type} `{!TaskAwaiter R A}.

Lemma run_bind {X Y : Type} (p : Prog X) (f : X -> Prog Y) (w : World (A:=A)) :
  run (bind p f) w = let '(x, w') := run p w in run (f x) w'.
Proof.
  revert w. induction p as [x | msg k IH | id k IH]; intros w; simpl.
  - reflexivity.
  - apply IH.
  - destruct (Remove id w) as [thrown w']. apply IH.
Qed.

Lemma run_result_of {X : Type} (p : Prog X) (w : World (A:=A)) :
  result_of p (fst (run p w)).
Proof.
  revert w. induction p as [x | msg k IH | id k IH]; intros w; simpl.
  - constructor.
  - constructor. apply IH.
  - destruct (Remove id w) as [thrown w'] eqn:E.
    apply result_CallRemove with (answer := thrown). apply IH.
Qed.

End RunFacts.

(** ** [TaskFinishSource] *)

Section FinishSourceFacts.
Context {V : Type}.
Implicit Types (c : FinishSourceCall V) (cs earlier : list (FinishSourceCall V)).

Lemma first_request_app earlier cs :
  first_request (earlier ++ cs) =
  match first_request earlier with
  | Some (v, later) => Some (v, later ++ cs)
  | None => first_request cs
  end.
Proof.
  induction earlier as [| [v |] earlier IH]; simpl; auto.
Qed.

Lemma call_source_after earlier c :
  call_source c (source_after earlier) =
  (expected_answer earlier c, source_after (earlier ++ [c])).
Proof.
  unfold source_after, expected_answer, expected_accept, expected_result.
  rewrite first_request_app.
  destruct (first_request earlier) as [[v later] |] eqn:E.
  - rewrite existsb_app.
    destruct (existsb is_result_call later) eqn:E2; destruct c; simpl;
      rewrite ?orb_false_r; reflexivity.
  - destruct c; reflexivity.
Qed.

Lemma call_sequence_after earlier cs (i : nat) c :
  cs !! i = Some c ->
  fst (call_sequence cs (source_after earlier)) !! i =
  Some (expected_answer (earlier ++ take i cs) c).
Proof.
  revert earlier i. induction cs as [| c0 cs IH]; intros earlier i Hi.
  - destruct i; discriminate.
  - simpl. rewrite call_source_after.
    destruct (call_sequence cs (source_after (earlier ++ [c0]))) as [answers s2] eqn:E.
    destruct i as [| i]; simpl in *.
    + injection Hi as ->. rewrite app_nil_r. reflexivity.
    + specialize (IH (earlier ++ [c0]) i Hi). rewrite E in IH. simpl in IH.
      rewrite IH. rewrite <- app_assoc. reflexivity.
Qed.

(** C8. In every sequence of [requestFinish] and [result] calls on a fresh
    [TaskFinishSource], a [requestFinish] returns true exactly when no
    [requestFinish] came before it (so the first one succeeds and every
    other one returns false), and a [result()] returns the value stored by
    that first [requestFinish] when it is the first [result()] after it,
    and throws when no result is stored yet or when [result()] was
    already called after it. *)
Theorem requestFinish_once_result_once cs (i : nat) c :
  cs !! i = Some c ->
  fst (call_sequence cs TaskFinishSource_new) !! i =
  Some (expected_answer (take i cs) c).
Proof.
  intros Hi.
  exact (call_sequence_after [] cs i c Hi).
Qed.

End FinishSourceFacts.

(** A run of six calls: only the first [requestFinish] is accepted, only the
    first [result()] after it succeeds. *)
Lemma requestFinish_once_result_once_witness :
  fst (call_sequence
         [CallResult; CallRequestFinish 5%nat; CallRequestFinish 6%nat;
          CallResult; CallResult; CallRequestFinish 7%nat]
         TaskFinishSource_new) !! 3%nat
  = Some (ResultAnswer (Ok 5%nat)).
Proof.
  exact (requestFinish_once_result_once
           [CallResult; CallRequestFinish 5%nat; CallRequestFinish 6%nat;
            CallResult; CallResult; CallRequestFinish 7%nat]
           3%nat CallResult eq_refl).
Defined.

(** ** The backend without an instance *)

Section NoInstance.
Context {R A : Type} `{!TaskAwaiter R A}.

(** C10. While no backend instance exists ([s_pInstance] is null: never
    initialised, or the addon was released), [Backend::Remove(id)] returns
    without throwing and leaves the whole state, trace of callback calls
    included, as it was; so does the destructor of a [ScopedTaskRunner],
    whatever identifier it holds; [Backend::IsDone(id)] throws. *)
Theorem Remove_without_instance_is_silent
    (id : AwaiterID) (runner : ScopedTaskRunner) (w : World (A:=A)) :
  s_pInstance w = None ->
  Remove id w = (None, w) /\
  ScopedTaskRunner_destroy runner w = (None, w) /\
  IsDone id w = Raise (SivError BackendNotInitialized).
Proof.
  intros Hnone. repeat split.
  - unfold Remove. rewrite Hnone. reflexivity.
  - unfold ScopedTaskRunner_destroy, Remove.
    destruct (m_id runner); rewrite ?Hnone; reflexivity.
  - unfold IsDone. rewrite Hnone. reflexivity.
Qed.

End NoInstance.

Lemma Remove_without_instance_is_silent_witness :
  Remove 3 world_without_backend = (None, world_without_backend) /\
  ScopedTaskRunner_destroy {| m_id := Some 3 |} world_without_backend
    = (None, world_without_backend) /\
  IsDone 3 world_without_backend = Raise (SivError BackendNotInitialized).
Proof.
  exact (Remove_without_instance_is_silent
           3 {| m_id := Some 3 |} world_without_backend eq_refl).
Defined.

(** ** Coroutine handles and tasks *)

Lemma result_of_bind_inv {X Y : Type} (p : Prog X) (f : X -> Prog Y) (y : Y) :
  result_of (bind p f) y -> exists x, result_of p x /\ result_of (f x) y.
Proof.
  induction p as [x | msg k IH | id k IH]; simpl; intros Hres.
  - exists x. split; [constructor | assumption].
  - inversion Hres as [| msg' k' y' Hk | ]; subst.
    destruct (IH Hk) as (x & Hx & Hy).
    exists x. split; [constructor |]; assumption.
  - inversion Hres as [| | id' k' answer y' Hk]; subst.
    destruct (IH answer Hk) as (x & Hx & Hy).
    exists x. split; [econstructor |]; eassumption.
Qed.

Lemma result_of_Ret_inv {X : Type} (x y : X) : result_of (Ret x) y -> y = x.
Proof. intros Hres. inversion Hres; reflexivity. Qed.

Section HandleFacts.
Context {Sub : Type} `{!IAwaiter Sub}.
Context {F R : Type}.
Implicit Types (h : CoroutineHandle Sub F R) (p : Promise Sub R).

Lemma set_promise_same h : set_promise (promise h) h = h.
Proof. destruct h; reflexivity. Qed.

Lemma setSubAwaiter_same p : setSubAwaiter (m_pSubAwaiter p) p = p.
Proof. destruct p; reflexivity. Qed.

(** What one [resume] of a wrapper whose coroutine is not finished leads
    to: the sub-awaiter is still pending and nothing else changed, or the
    body ran from a promise without sub-awaiter. *)
Lemma CoroutineHandleWrapper_resume_cases h h' :
  at_final_suspend h = false ->
  result_of (CoroutineHandleWrapper_resume h) h' ->
  (exists sub', h' = set_promise (setSubAwaiter (Some sub') (promise h)) h) \/
  (exists step, h' = suspend_at (set_promise (setSubAwaiter None (promise h)) h) step).
Proof.
  intros Hrun Hres.
  unfold CoroutineHandleWrapper_resume, CoroutineHandleWrapper_done, handle_done in Hres.
  rewrite Hrun in Hres.
  apply result_of_bind_inv in Hres as ([[pending p] finished] & Hsub & Hres).
  unfold resumeSubAwaiter in Hsub.
  destruct (m_pSubAwaiter (promise h)) as [sub |] eqn:Esub.
  - apply result_of_bind_inv in Hsub as (sub' & _ & Hsub).
    destruct (done sub'); apply result_of_Ret_inv in Hsub;
      injection Hsub as -> -> ->.
    + right. unfold handle_resume in Hres.
      apply result_of_bind_inv in Hres as (step & _ & Hres).
      apply result_of_Ret_inv in Hres. exists step. assumption.
    + left. apply result_of_Ret_inv in Hres. exists sub'. assumption.
  - apply result_of_Ret_inv in Hsub. injection Hsub as -> -> ->.
    right. unfold handle_resume in Hres.
    apply result_of_bind_inv in Hres as (step & _ & Hres).
    apply result_of_Ret_inv in Hres. exists step.
    rewrite <- Esub, setSubAwaiter_same. assumption.
Qed.

End HandleFacts.

Section TaskFacts.
Context {Sub : Type} `{!IAwaiter Sub}.
Context {Conc : Type} `{!IAwaiter Conc}.
Context {F R : Type}.
Implicit Types (t : Task Sub Conc F R).

Lemma Task_resume_cases t t' :
  result_of (Task_resume t) t' ->
  (Task_done t = true /\ t' = t) \/
  (Task_done t = false /\
   result_of (CoroutineHandleWrapper_resume (m_handle t)) (m_handle t')).
Proof.
  unfold Task_resume, Task_done. intros Hres.
  destruct (CoroutineHandleWrapper_done (m_handle t)) eqn:Hdone.
  - left. apply result_of_Ret_inv in Hres. auto.
  - right. split; [reflexivity |].
    apply result_of_bind_inv in Hres as (before & _ & Hres).
    apply result_of_bind_inv in Hres as (h & Hh & Hres).
    apply result_of_bind_inv in Hres as (after & _ & Hres).
    apply result_of_Ret_inv in Hres. subst t'. exact Hh.
Qed.

Lemma TaskHistory_invariant t n : TaskHistory t n -> history_invariant t n.
Proof.
  induction 1 as [body args | t n c timing Hh IH | t t' n Hh IH Hres | t n Hh IH].
  - repeat split; simpl; intros; discriminate.
  - destruct timing; exact IH.
  - destruct (Task_resume_cases t t' Hres) as [[_ ->] | [Hrun Hstep]]; [exact IH |].
    destruct IH as (Hset & Hfinal & Hcons & Hzero).
    unfold Task_done, CoroutineHandleWrapper_done, handle_done in Hrun.
    specialize (Hzero Hrun).
    destruct (CoroutineHandleWrapper_resume_cases _ _ Hrun Hstep)
      as [[sub' Hh'] | [step Hh']]; unfold history_invariant; rewrite Hh'.
    + simpl. rewrite Hrun.
      repeat split; intros; try discriminate; congruence.
    + destruct step; simpl; repeat split; intros;
        try discriminate; try congruence; eauto.
  - destruct IH as (Hset & Hfinal & Hcons & Hzero).
    unfold history_invariant, Task_done, CoroutineHandleWrapper_done, handle_done.
    unfold Task_value, CoroutineHandleWrapper_value, Promise_value.
    rewrite <- Hset.
    destruct (at_final_suspend (m_handle t)) eqn:Hfin; simpl.
    + destruct (m_resultConsumed (promise (m_handle t))) eqn:Hc; simpl;
        rewrite Hfin; repeat split; intros; try discriminate; auto;
        apply Hfinal; reflexivity.
    + rewrite Hfin. repeat split; intros; try discriminate; auto.
Qed.

End TaskFacts.

Section TaskTheorems.
Context {Sub : Type} `{!IAwaiter Sub}.
Context {Conc : Type} `{!IAwaiter Conc}.
Context {F R : Type}.
(** The backend the surrounding program runs with. *)
Context {R' A' : Type} `{!TaskAwaiter R' A'}.
Implicit Types (t : Task Sub Conc F R) (w : World (R:=R') (A:=A')).

Lemma run_Task_resume_done t w :
  Task_done t = true -> run (Task_resume t) w = (t, w).
Proof.
  unfold Task_resume, Task_done. intros ->. reflexivity.
Qed.

Lemma Task_value_not_completed t :
  m_isResultSet (promise (m_handle t)) = false ->
  Task_value t = (Raise (SivError TaskNotCompleted), t).
Proof.
  intros Hset.
  unfold Task_value, CoroutineHandleWrapper_value, Promise_value.
  rewrite Hset. simpl. rewrite set_promise_same. destruct t; reflexivity.
Qed.

(** C9. Along every history of a task (a coroutine call followed by any
    calls of [with], [resume] and [value]): [value()] called before the
    task is done throws and changes nothing; once the task is done its
    completion slot holds an outcome [r] (the value returned or the
    exception captured), the first [value()] made after completion gives
    [r] (returning the value, or rethrowing the exception), every later
    one throws, and no further [resume] or [value] call changes the slot
    or the finished state. *)
Theorem value_is_read_once t (n : nat) :
  TaskHistory t n ->
  (Task_done t = false ->
     Task_value t = (Raise (SivError TaskNotCompleted), t)) /\
  (Task_done t = true ->
     exists r, completion_slot t = Some r /\
       (n = 0%nat -> fst (Task_value t) = r) /\
       (n <> 0%nat -> fst (Task_value t) = Raise (SivError TaskResultOnlyOnce)) /\
       (forall t', task_call t t' ->
          Task_done t' = true /\ completion_slot t' = Some r)).
Proof.
  intros Hhist.
  destruct (TaskHistory_invariant t n Hhist) as (Hset & Hfinal & Hcons & Hzero).
  unfold Task_done, CoroutineHandleWrapper_done, handle_done.
  split; intros Hdone.
  - apply Task_value_not_completed. congruence.
  - destruct (Hfinal Hdone) as [[r Hr] _].
    exists r. unfold completion_slot. split; [exact Hr |].
    assert (Hisset : m_isResultSet (promise (m_handle t)) = true) by congruence.
    repeat split.
    + intros ->. simpl in Hcons.
      unfold Task_value, CoroutineHandleWrapper_value, Promise_value.
      rewrite Hisset, Hcons, Hr. reflexivity.
    + intros Hn. apply Nat.eqb_neq in Hn. rewrite Hn in Hcons. simpl in Hcons.
      unfold Task_value, CoroutineHandleWrapper_value, Promise_value.
      rewrite Hisset, Hcons. reflexivity.
    + destruct H as [t0 t1 Hres | t0].
      * destruct (Task_resume_cases _ _ Hres) as [[_ ->] | [Hrun _]];
          [exact Hdone |].
        unfold Task_done, CoroutineHandleWrapper_done, handle_done in Hrun.
        congruence.
      * unfold Task_value, CoroutineHandleWrapper_value, Promise_value.
        destruct (negb (m_isResultSet (promise (m_handle t0))));
          [exact Hdone |].
        destruct (m_resultConsumed (promise (m_handle t0))); exact Hdone.
    + destruct H as [t0 t1 Hres | t0].
      * destruct (Task_resume_cases _ _ Hres) as [[_ ->] | [Hrun _]];
          [exact Hr |].
        unfold Task_done, CoroutineHandleWrapper_done, handle_done in Hrun.
        congruence.
      * unfold Task_value, CoroutineHandleWrapper_value, Promise_value.
        destruct (negb (m_isResultSet (promise (m_handle t0))));
          [exact Hr |].
        destruct (m_resultConsumed (promise (m_handle t0))); exact Hr.
Qed.

(** C4. For a task whose promise holds a sub-awaiter [sub] (such a task is
    never done), one [resume] of its coroutine handle wrapper first
    resumes [sub]; if [sub] is still unfinished, the call ends there: the
    body is not run, the frame is unchanged and the state of the world is
    the one [sub]'s resume left; if [sub] has finished, the pointer is
    cleared and the body runs on to its next suspension point or to its
    end.  Without a sub-awaiter the body runs at once. *)
Theorem resume_delegates_to_sub_awaiter t (n : nat) w :
  TaskHistory t n ->
  let h := m_handle t in
  (forall sub, m_pSubAwaiter (promise h) = Some sub ->
     Task_done t = false /\
     run (CoroutineHandleWrapper_resume h) w =
       let '(sub', w1) := run (resume sub) w in
       if done sub' then
         run (handle_resume (set_promise (setSubAwaiter None (promise h)) h)
                            (Some sub')) w1
       else (set_promise (setSubAwaiter (Some sub') (promise h)) h, w1)) /\
  (m_pSubAwaiter (promise h) = None -> Task_done t = false ->
     run (CoroutineHandleWrapper_resume h) w = run (handle_resume h None) w).
Proof.
  intros Hhist h. subst h.
  destruct (TaskHistory_invariant t n Hhist) as (Hset & Hfinal & Hcons & Hzero).
  unfold Task_done. split.
  - intros sub Hsub.
    assert (Hrun : CoroutineHandleWrapper_done (m_handle t) = false).
    { unfold CoroutineHandleWrapper_done, handle_done.
      destruct (at_final_suspend (m_handle t)) eqn:Hfin; [| reflexivity].
      destruct (Hfinal eq_refl) as [_ Hnone]. congruence. }
    split; [exact Hrun |].
    unfold CoroutineHandleWrapper_resume. rewrite Hrun.
    unfold resumeSubAwaiter. rewrite Hsub.
    rewrite !run_bind.
    destruct (run (resume sub) w) as [sub' w1].
    destruct (done sub'); reflexivity.
  - intros Hnone Hrun.
    unfold CoroutineHandleWrapper_resume. rewrite Hrun.
    unfold resumeSubAwaiter. rewrite Hnone.
    rewrite run_bind. simpl. rewrite set_promise_same. reflexivity.
Qed.

End TaskTheorems.

Example from_result_resumed_is_done : Task_done from_result_resumed = true.
Proof. reflexivity. Qed.

Lemma value_is_read_once_witness :
  (Task_done from_result_resumed = false ->
     Task_value from_result_resumed
     = (Raise (SivError TaskNotCompleted), from_result_resumed)) /\
  (Task_done from_result_resumed = true ->
     exists r, completion_slot from_result_resumed = Some r /\
       (0%nat = 0%nat -> fst (Task_value from_result_resumed) = r) /\
       (0%nat <> 0%nat ->
          fst (Task_value from_result_resumed)
          = Raise (SivError TaskResultOnlyOnce)) /\
       (forall t', task_call from_result_resumed t' ->
          Task_done t' = true /\ completion_slot t' = Some r)).
Proof.
  apply (value_is_read_once from_result_resumed 0).
  apply history_resume with (t := FromResult 5%nat).
  - apply history_call.
  - apply (run_result_of (Task_resume (FromResult 5%nat)) world_without_backend).
Defined.

Example awaiting_three_frames_holds_sub_awaiter :
  exists sub, m_pSubAwaiter (promise (m_handle awaiting_three_frames)) = Some sub
              /\ Task_done sub = false.
Proof. eexists. split; reflexivity. Qed.

Lemma resume_delegates_to_sub_awaiter_witness :
  let h := m_handle awaiting_three_frames in
  (forall sub, m_pSubAwaiter (promise h) = Some sub ->
     Task_done awaiting_three_frames = false /\
     run (CoroutineHandleWrapper_resume h) world_without_backend =
       let '(sub', w1) := run (resume sub) world_without_backend in
       if done sub' then
         run (handle_resume (set_promise (setSubAwaiter None (promise h)) h)
                            (Some sub')) w1
       else (set_promise (setSubAwaiter (Some sub') (promise h)) h, w1)) /\
  (m_pSubAwaiter (promise h) = None -> Task_done awaiting_three_frames = false ->
     run (CoroutineHandleWrapper_resume h) world_without_backend
     = run (handle_resume h None) world_without_backend).
Proof.
  apply (resume_delegates_to_sub_awaiter awaiting_three_frames 0 world_without_backend).
  apply history_resume with (t := await_task three_frames).
  - apply history_call.
  - apply (run_result_of (Task_resume (await_task three_frames)) world_without_backend).
Defined.

(** ** The registry *)

Section RegistryFacts.
Context {R A : Type} `{!TaskAwaiter R A}.
Implicit Types (m pre rest : EntryMap (A:=A)) (e : AwaiterEntry (A:=A)).
Implicit Types (b : Backend (A:=A)) (w : World (R:=R) (A:=A)) (tr : Trace (R:=R)).
Implicit Types (id : AwaiterID).

(** *** The association list, around one key *)

Lemma map_find_middle pre id e rest :
  Forall (fun x => fst x < id) pre ->
  map_find id (pre ++ (id, e) :: rest) = Some e.
Proof.
  induction pre as [| [k e'] pre IH]; simpl; intros Hpre.
  - rewrite N.eqb_refl. reflexivity.
  - inversion Hpre as [| x l Hk Hrest]; subst. simpl in Hk.
    destruct (N.eqb_spec k id); [lia | auto].
Qed.

Lemma map_assign_middle pre id e e1 rest :
  Forall (fun x => fst x < id) pre ->
  map_assign id e1 (pre ++ (id, e) :: rest) = pre ++ (id, e1) :: rest.
Proof.
  induction pre as [| [k e'] pre IH]; simpl; intros Hpre.
  - rewrite N.eqb_refl. reflexivity.
  - inversion Hpre as [| x l Hk Hrest]; subst. simpl in Hk.
    destruct (N.eqb_spec k id); [lia |]. rewrite IH; auto.
Qed.

Lemma map_erase_middle pre id e rest :
  Forall (fun x => fst x < id) pre ->
  map_erase id (pre ++ (id, e) :: rest) = pre ++ rest.
Proof.
  induction pre as [| [k e'] pre IH]; simpl; intros Hpre.
  - rewrite N.eqb_refl. reflexivity.
  - inversion Hpre as [| x l Hk Hrest]; subst. simpl in Hk.
    destruct (N.eqb_spec k id); [lia |]. rewrite IH; auto.
Qed.

Lemma map_next_middle pre id e rest :
  Forall (fun x => fst x < id) pre ->
  Forall (fun x => id < fst x) rest ->
  map_next id (pre ++ (id, e) :: rest) = map_begin rest.
Proof.
  induction pre as [| [k e'] pre IH]; simpl; intros Hpre Hrest.
  - rewrite N.ltb_irrefl. destruct rest as [| [k' e'] rest]; simpl; [reflexivity |].
    inversion Hrest as [| x l Hk Hl]; subst. simpl in Hk.
    destruct (N.ltb_spec id k'); [reflexivity | lia].
  - inversion Hpre as [| x l Hk Hl]; subst. simpl in Hk.
    destruct (N.ltb_spec id k); [lia | auto].
Qed.

Lemma sorted_keys_middle pre id e rest :
  sorted_keys (pre ++ (id, e) :: rest) ->
  Forall (fun x => fst x < id) pre /\ Forall (fun x => id < fst x) rest.
Proof.
  unfold sorted_keys, keys. rewrite map_app. simpl. intros Hsorted.
  apply StronglySorted_app in Hsorted as (Hcross & _ & Hright).
  apply StronglySorted_inv in Hright as [_ Habove].
  split.
  - apply Forall_forall. intros x Hx. apply Hcross.
    + apply list_elem_of_In. apply in_map. apply list_elem_of_In. exact Hx.
    + left.
  - apply Forall_forall. intros x Hx.
    rewrite Forall_forall in Habove. apply Habove.
    apply list_elem_of_In. apply in_map. apply list_elem_of_In. exact Hx.
Qed.

Lemma map_find_erase_sorted id m :
  sorted_keys m -> map_find id (map_erase id m) = None.
Proof.
  unfold sorted_keys, keys.
  induction m as [| [k e] m IH]; simpl; intros Hsorted; [reflexivity |].
  apply StronglySorted_inv in Hsorted as [Hm Hk].
  destruct (N.eqb_spec k id) as [-> | Hne].
  - clear IH Hm. induction m as [| [k' e'] m IH]; simpl; [reflexivity |].
    inversion Hk as [| x l Hlt Hl]; subst. simpl in Hlt.
    destruct (N.eqb_spec k' id); [lia | auto].
  - simpl. destruct (N.eqb_spec k id); [contradiction | auto].
Qed.

(** *** Programs that make no backend call *)

Lemma set_trace_same w : set_trace (trace w) w = w.
Proof. destruct w; reflexivity. Qed.

Lemma run_no_backend_call {X : Type} (p : Prog X) w :
  no_backend_call p = true ->
  run p w = (returned p, set_trace (trace w ++ map Emitted (emitted p)) w).
Proof.
  revert w. induction p as [x | msg k IH | id k IH]; simpl; intros w Hp.
  - rewrite app_nil_r, set_trace_same. reflexivity.
  - rewrite (IH _ Hp). simpl. unfold set_trace at 2 3. simpl.
    rewrite <- app_assoc. reflexivity.
  - discriminate.
Qed.

(** *** End callbacks only append to the trace *)

Lemma call_cancel_appends cb tr :
  call_cancel cb tr
  = (fst (call_cancel cb (@nil (Event R))), tr ++ snd (call_cancel cb [])).
Proof. destruct cb; simpl; rewrite ?app_nil_r; reflexivity. Qed.

Lemma call_finish_appends cb (r : R) tr :
  call_finish cb r tr = (fst (call_finish cb r []), tr ++ snd (call_finish cb r [])).
Proof. destruct cb; simpl; rewrite ?app_nil_r; reflexivity. Qed.

Lemma callEndCallback_appends e tr :
  callEndCallback e tr =
  (end_callback_thrown e, snd (fst (callEndCallback e [])),
   tr ++ end_callback_events e).
Proof.
  unfold end_callback_thrown, end_callback_events, callEndCallback,
    fnCallFinishCallback.
  destruct (done (awaiter e)).
  - destruct (finishCallback e) as [f |]; simpl; [| rewrite app_nil_r; reflexivity].
    destruct (value (awaiter e)) as [[r | exn] a'].
    + rewrite (call_finish_appends _ r tr).
      destruct (call_finish (captured_finishCallback f) r (@nil (Event R)));
        reflexivity.
    + rewrite (call_cancel_appends _ tr).
      destruct (call_cancel (captured_cancelCallback f) (@nil (Event R)))
        as [[exn' |] tr'];
        reflexivity.
  - rewrite (call_cancel_appends _ tr).
    destruct (call_cancel (cancelCallback e) (@nil (Event R))); reflexivity.
Qed.

(** *** One sweep over entries whose resume makes no backend call *)

Lemma update_loop_sweep rest :
  forall pre (fuel : nat) (exceptionPtr : option Exn) b tr,
    (length rest <= fuel)%nat ->
    sorted_keys (pre ++ rest) ->
    m_awaiterEntries b = pre ++ rest ->
    m_currentAwaiterRemovalNeeded b = false ->
    Forall (fun x => no_backend_call (resume (awaiter (snd x))) = true) rest ->
    exists current,
      update_loop fuel (map_begin rest) exceptionPtr
                  {| s_pInstance := Some b; trace := tr |}
      = Some (match exceptionPtr with
              | Some exn => Some exn
              | None => sweep_exception rest
              end,
              {| s_pInstance :=
                   Some {| m_nextAwaiterID := m_nextAwaiterID b;
                           m_currentAwaiterID := current;
                           m_currentAwaiterRemovalNeeded := false;
                           m_awaiterEntries := pre ++ sweep_survivors rest |};
                 trace := tr ++ sweep_events rest |}).
Proof.
  induction rest as [| [id e] rest IH];
    intros pre fuel exceptionPtr b tr Hfuel Hsorted Hentries Hflag Hpure.
  - exists (m_currentAwaiterID b). simpl.
    destruct fuel; simpl; rewrite !app_nil_r; rewrite app_nil_r in Hentries;
      destruct b; simpl in *; subst; destruct exceptionPtr; reflexivity.
  - destruct fuel as [| fuel]; [simpl in Hfuel; lia |].
    simpl in Hfuel.
    destruct (sorted_keys_middle _ _ _ _ Hsorted) as [Hbelow Habove].
    inversion Hpure as [| x l Hp Hpure']; subst. simpl in Hp.
    simpl map_begin. cbn [update_loop].
    unfold update_iteration. cbn [s_pInstance].
    rewrite Hentries, (map_find_middle _ _ _ _ Hbelow).
    rewrite (run_no_backend_call _ _ Hp). cbn [s_pInstance set_trace set_instance trace].
    cbn [m_currentAwaiterRemovalNeeded set_current m_awaiterEntries].
    rewrite Hflag, Hentries. simpl orb.
    rewrite (map_assign_middle _ _ _ _ _ Hbelow).
    rewrite (map_next_middle _ _ _ _ Hbelow Habove).
    fold (resumed_entry e). fold (finishes e).
    change (done (returned (resume (awaiter e)))) with (finishes e).
    destruct (finishes e) eqn:Hfin.
    + rewrite callEndCallback_appends.
      rewrite (map_erase_middle _ _ _ _ Hbelow).
      edestruct (IH pre fuel
                   (match exceptionPtr with
                    | Some exn => Some exn
                    | None => end_callback_thrown (resumed_entry e)
                    end)
                   (set_removalNeeded false
                      (set_entries (pre ++ rest) (set_current (Some id) b)))
                   ((tr ++ map Emitted (emitted (resume (awaiter e))))
                      ++ end_callback_events (resumed_entry e)))
        as [current Hloop].
      * lia.
      * unfold sorted_keys, keys in *. rewrite map_app in *. simpl in Hsorted.
        apply StronglySorted_app in Hsorted as (Hcross & Hl & Hr).
        apply StronglySorted_app. repeat split; auto.
        -- intros x1 x2 H1 H2. apply Hcross; [exact H1 | right; exact H2].
        -- apply StronglySorted_inv in Hr as [Hr _]. exact Hr.
      * reflexivity.
      * reflexivity.
      * exact Hpure'.
      * exists current. unfold set_trace, set_instance. cbn [trace s_pInstance].
        rewrite Hloop. simpl sweep_exception. simpl sweep_survivors.
        simpl sweep_events. rewrite Hfin. simpl.
        rewrite <- !app_assoc.
        destruct exceptionPtr; [reflexivity |].
        destruct (end_callback_thrown (resumed_entry e)); reflexivity.
    + edestruct (IH (pre ++ [(id, resumed_entry e)]) fuel exceptionPtr
                   (set_entries (pre ++ (id, resumed_entry e) :: rest)
                      (set_current (Some id) b))
                   (tr ++ map Emitted (emitted (resume (awaiter e)))))
        as [current Hloop].
      * lia.
      * rewrite <- app_assoc. simpl.
        unfold sorted_keys, keys in *. rewrite map_app in *. exact Hsorted.
      * rewrite <- app_assoc. reflexivity.
      * exact Hflag.
      * exact Hpure'.
      * exists current. unfold set_trace, set_instance. cbn [trace s_pInstance].
        rewrite Hloop. simpl sweep_exception. simpl sweep_survivors.
        simpl sweep_events. rewrite Hfin. simpl.
        rewrite <- !app_assoc. reflexivity.
Qed.

Lemma end_callback_events_quiet e :
  end_callback_events (quiet_entry e) = end_callback_events e.
Proof.
  unfold end_callback_events, callEndCallback, fnCallFinishCallback. simpl.
  destruct (done (awaiter e)).
  - destruct (finishCallback e) as [f |]; simpl; [| reflexivity].
    destruct (value (awaiter e)) as [[r | exn] a']; simpl.
    + destruct (captured_finishCallback f); reflexivity.
    + destruct (captured_cancelCallback f) as [[l [exn' |]] |]; reflexivity.
  - destruct (cancelCallback e); reflexivity.
Qed.

Lemma sweep_events_quiet m :
  sweep_events (map (fun x => (fst x, quiet_entry (snd x))) m) = sweep_events m.
Proof.
  induction m as [| [id e] m IH]; simpl; [reflexivity |].
  rewrite IH. f_equal. f_equal.
  unfold finishes, resumed_entry. simpl.
  destruct (done (returned (resume (awaiter e)))); [| reflexivity].
  apply (end_callback_events_quiet (set_awaiter (returned (resume (awaiter e))) e)).
Qed.

Lemma sweep_survivors_quiet m :
  sweep_survivors (map (fun x => (fst x, quiet_entry (snd x))) m)
  = map (fun x => (fst x, quiet_entry (snd x))) (sweep_survivors m).
Proof.
  induction m as [| [id e] m IH]; simpl; [reflexivity |].
  rewrite IH.
  unfold finishes, resumed_entry. simpl.
  destruct (done (returned (resume (awaiter e)))); reflexivity.
Qed.

End RegistryFacts.

Section RemoveFacts.
Context {R A : Type} `{!TaskAwaiter R A}.
Implicit Types (m : EntryMap (A:=A)) (e : AwaiterEntry (A:=A)).
Implicit Types (b : Backend (A:=A)) (w : World (R:=R) (A:=A)) (tr : Trace (R:=R)).
Implicit Types (id : AwaiterID).

Lemma map_find_erase_ne id id' m :
  id <> id' -> map_find id (map_erase id' m) = map_find id m.
Proof.
  intros Hne. induction m as [| [k e] m IH]; simpl; [reflexivity |].
  destruct (N.eqb_spec k id') as [-> | Hk]; simpl.
  - destruct (N.eqb_spec id' id); [congruence | reflexivity].
  - rewrite IH. reflexivity.
Qed.

Lemma map_find_assign_ne id id' e m :
  id <> id' -> map_find id (map_assign id' e m) = map_find id m.
Proof.
  intros Hne. induction m as [| [k e'] m IH]; simpl; [reflexivity |].
  destruct (N.eqb_spec k id') as [-> | Hk]; simpl.
  - destruct (N.eqb_spec id' id); [congruence | reflexivity].
  - rewrite IH. reflexivity.
Qed.

Lemma keys_map_assign id e m : keys (map_assign id e m) = keys m.
Proof.
  unfold keys.
  induction m as [| [k e'] m IH]; simpl; [reflexivity |].
  destruct (N.eqb k id); simpl; [reflexivity |].
  f_equal. exact IH.
Qed.

Lemma map_assign_same id e m : map_find id m = Some e -> map_assign id e m = m.
Proof.
  induction m as [| [k e'] m IH]; simpl; [reflexivity |].
  destruct (N.eqb k id).
  - intros [= ->]. reflexivity.
  - intros Hfind. rewrite (IH Hfind). reflexivity.
Qed.

Lemma map_erase_assign id e m : map_erase id (map_assign id e m) = map_erase id m.
Proof.
  induction m as [| [k e'] m IH]; simpl; [reflexivity |].
  destruct (N.eqb k id) eqn:Hk; simpl; rewrite Hk; [reflexivity |].
  rewrite IH. reflexivity.
Qed.

Lemma map_next_assign id id' e m : map_next id (map_assign id' e m) = map_next id m.
Proof.
  induction m as [| [k e'] m IH]; simpl; [reflexivity |].
  destruct (N.eqb k id'); simpl; [reflexivity |].
  rewrite IH. reflexivity.
Qed.

Lemma keys_map_erase_sublist id m : sublist (keys (map_erase id m)) (keys m).
Proof.
  induction m as [| [k e] m IH]; simpl; [constructor |].
  destruct (N.eqb k id); simpl.
  - apply sublist_cons. reflexivity.
  - apply sublist_skip. exact IH.
Qed.

Lemma sorted_map_erase id m : sorted_keys m -> sorted_keys (map_erase id m).
Proof.
  unfold sorted_keys. intros Hsorted.
  induction m as [| [k e] m IH]; simpl; [constructor |].
  simpl in Hsorted. apply StronglySorted_inv in Hsorted as [Hm Hk].
  destruct (N.eqb k id); simpl; [exact Hm |].
  constructor; [apply IH; exact Hm |].
  rewrite Forall_forall in *. intros x Hx. apply Hk.
  pose proof (keys_map_erase_sublist id m) as Hsub.
  eapply sublist_subseteq; eassumption.
Qed.

Lemma sorted_map_assign id e m : sorted_keys m -> sorted_keys (map_assign id e m).
Proof. unfold sorted_keys. rewrite keys_map_assign. auto. Qed.

(** [Remove] of another identifier leaves the running entry, the current
    identifier and the removal flag alone. *)
Lemma Remove_other_keeps_current id id' e b w :
  s_pInstance w = Some b ->
  m_currentAwaiterID b = Some id ->
  map_find id (m_awaiterEntries b) = Some e ->
  sorted_keys (m_awaiterEntries b) ->
  id <> id' ->
  exists b',
    s_pInstance (snd (Remove id' w)) = Some b' /\
    m_currentAwaiterID b' = Some id /\
    map_find id (m_awaiterEntries b') = Some e /\
    sorted_keys (m_awaiterEntries b') /\
    m_currentAwaiterRemovalNeeded b' = m_currentAwaiterRemovalNeeded b.
Proof.
  intros Hb Hcur Hfind Hsorted Hne.
  unfold Remove. rewrite Hb, Hcur. simpl.
  destruct (N.eqb_spec id' id) as [-> | _]; [congruence |].
  destruct (map_find id' (m_awaiterEntries b)) as [e' |] eqn:Hfind'.
  - destruct (callEndCallback e' (trace w)) as [[[exn |] e''] tr'].
    + exists (set_entries (map_assign id' e'' (m_awaiterEntries b)) b).
      simpl. rewrite map_find_assign_ne by exact Hne.
      repeat split; auto using sorted_map_assign.
    + exists (set_entries (map_erase id' (m_awaiterEntries b)) b).
      simpl. rewrite map_find_erase_ne by exact Hne.
      repeat split; auto using sorted_map_erase.
  - exists b. repeat split; auto.
Qed.

(** While the entry [id] is the running one, whatever its coroutine does, the
    entry stays registered and untouched, and the removal flag is raised
    exactly when the coroutine calls [Remove(id)]. *)
Lemma run_keeps_current {X : Type} (p : Prog X) : forall id e b w,
  s_pInstance w = Some b ->
  m_currentAwaiterID b = Some id ->
  map_find id (m_awaiterEntries b) = Some e ->
  sorted_keys (m_awaiterEntries b) ->
  exists b',
    s_pInstance (snd (run p w)) = Some b' /\
    m_currentAwaiterID b' = Some id /\
    map_find id (m_awaiterEntries b') = Some e /\
    sorted_keys (m_awaiterEntries b') /\
    m_currentAwaiterRemovalNeeded b'
    = m_currentAwaiterRemovalNeeded b || calls_Remove id p w.
Proof.
  induction p as [x | msg k IH | id' k IH]; intros id e b w Hb Hcur Hfind Hsorted.
  - exists b. simpl. rewrite orb_false_r. repeat split; auto.
  - simpl. apply IH; assumption.
  - simpl. destruct (N.eqb_spec id id') as [<- | Hne].
    + (* the coroutine removes its own entry *)
      unfold Remove at 1 2. rewrite Hb, Hcur. simpl. rewrite N.eqb_refl.
      destruct (IH None id e (set_removalNeeded true b)
                   (set_instance (set_removalNeeded true b) w))
        as (b' & Hb' & Hcur' & Hfind' & Hsorted' & Hflag'); auto.
      exists b'. simpl in Hflag'. rewrite Hflag', orb_true_r. repeat split; auto.
    + destruct (Remove_other_keeps_current id id' e b w Hb Hcur Hfind Hsorted Hne)
        as (b1 & Hb1 & Hcur1 & Hfind1 & Hsorted1 & Hflag1).
      destruct (Remove id' w) as [thrown w1]. simpl in Hb1. simpl.
      destruct (IH thrown id e b1 w1 Hb1 Hcur1 Hfind1 Hsorted1)
        as (b' & Hb' & Hcur' & Hfind' & Hsorted' & Hflag').
      exists b'. rewrite Hflag', Hflag1. repeat split; auto.
Qed.

Lemma set_entries_same b : set_entries (m_awaiterEntries b) b = b.
Proof. destruct b; reflexivity. Qed.


End RemoveFacts.

Section InvariantFacts.
Context {R A : Type} `{!TaskAwaiter R A}.
Implicit Types (m : EntryMap (A:=A)) (e : AwaiterEntry (A:=A)).
Implicit Types (b : Backend (A:=A)) (w : World (R:=R) (A:=A)) (tr : Trace (R:=R)).
Implicit Types (id : AwaiterID).

Lemma unfinished_map_erase id m :
  Forall (fun x => done (awaiter (snd x)) = false) m ->
  Forall (fun x => done (awaiter (snd x)) = false) (map_erase id m).
Proof.
  induction m as [| [k e] m IH]; simpl; intros Hall; [constructor |].
  inversion Hall as [| x l Hx Hl]; subst.
  destruct (N.eqb k id); [exact Hl | constructor; auto].
Qed.

Lemma unfinished_map_assign id e m :
  done (awaiter e) = false ->
  Forall (fun x => done (awaiter (snd x)) = false) m ->
  Forall (fun x => done (awaiter (snd x)) = false) (map_assign id e m).
Proof.
  intros He. induction m as [| [k e'] m IH]; simpl; intros Hall; [constructor |].
  inversion Hall as [| x l Hx Hl]; subst.
  destruct (N.eqb k id); constructor; auto.
Qed.

Lemma unfinished_map_emplace id e m :
  done (awaiter e) = false ->
  Forall (fun x => done (awaiter (snd x)) = false) m ->
  Forall (fun x => done (awaiter (snd x)) = false) (map_emplace id e m).
Proof.
  intros He. induction m as [| [k e'] m IH]; simpl; intros Hall.
  - constructor; [exact He | constructor].
  - inversion Hall as [| x l Hx Hl]; subst.
    destruct (N.ltb id k); [constructor; [exact He | exact Hall] |].
    destruct (N.eqb k id); [exact Hall |]. constructor; auto.
Qed.

Lemma keys_map_emplace id e m (k : AwaiterID) :
  In k (keys (map_emplace id e m)) -> k = id \/ In k (keys m).
Proof.
  unfold keys. induction m as [| [k' e'] m IH]; simpl.
  - intros [<- | []]. left. reflexivity.
  - destruct (N.ltb id k'); simpl.
    + intros [<- | [<- | Hin]]; auto.
    + destruct (N.eqb k' id); simpl.
      * intros [<- | Hin]; auto.
      * intros [<- | Hin]; [auto |]. destruct (IH Hin); auto.
Qed.

Lemma sorted_map_emplace id e m : sorted_keys m -> sorted_keys (map_emplace id e m).
Proof.
  unfold sorted_keys.
  induction m as [| [k e'] m IH]; simpl; intros Hs.
  - repeat constructor.
  - pose proof Hs as Hs'. apply StronglySorted_inv in Hs' as [Hm Hk].
    destruct (N.ltb_spec id k) as [Hlt | Hge]; simpl.
    + constructor; [exact Hs |]. constructor; [exact Hlt |].
      rewrite Forall_forall in *. intros x Hx. specialize (Hk x Hx). lia.
    + destruct (N.eqb_spec k id) as [-> | Hne]; simpl; [exact Hs |].
      constructor; [apply IH; exact Hm |].
      rewrite Forall_forall in *. intros x Hx.
      apply list_elem_of_In in Hx.
      destruct (keys_map_emplace id e m x Hx) as [-> | Hin]; [lia |].
      apply Hk. apply list_elem_of_In. exact Hin.
Qed.

Lemma callEndCallback_unfinished e tr :
  done (awaiter e) = false ->
  callEndCallback e tr
  = (fst (call_cancel (cancelCallback e) tr), e,
     snd (call_cancel (cancelCallback e) tr)).
Proof.
  intros He. unfold callEndCallback. rewrite He.
  destruct (call_cancel (cancelCallback e) tr). reflexivity.
Qed.

Lemma map_find_In id e m : map_find id m = Some e -> In (id, e) m.
Proof.
  induction m as [| [k e'] m IH]; simpl; [discriminate |].
  destruct (N.eqb_spec k id) as [-> | Hne].
  - intros [= ->]. left. reflexivity.
  - intros Hfind. right. auto.
Qed.

(** [Remove] keeps the entries in key order and unfinished. *)
Lemma Remove_entries_wf id w :
  world_entries_wf w -> world_entries_wf (snd (Remove id w)).
Proof.
  intros Hwf. unfold Remove.
  destruct (s_pInstance w) as [b |] eqn:Hb; [| exact Hwf].
  destruct (Hwf b Hb) as [Hsorted Hall].
  destruct (optN_eqb (m_currentAwaiterID b) id).
  - intros b' [= <-]. split; assumption.
  - destruct (map_find id (m_awaiterEntries b)) as [e |] eqn:Hfind; [| exact Hwf].
    assert (He : done (awaiter e) = false).
    { apply map_find_In in Hfind. rewrite Forall_forall in Hall.
      apply (Hall (id, e)). apply list_elem_of_In. exact Hfind. }
    rewrite (callEndCallback_unfinished e (trace w) He).
    destruct (call_cancel (cancelCallback e) (trace w)) as [[exn |] tr']; simpl;
      intros b' [= <-]; simpl.
    + split; [apply sorted_map_assign | apply unfinished_map_assign]; assumption.
    + split; [apply sorted_map_erase | apply unfinished_map_erase]; assumption.
Qed.

Lemma run_entries_wf {X : Type} (p : Prog X) w :
  world_entries_wf w -> world_entries_wf (snd (run p w)).
Proof.
  revert w. induction p as [x | msg k IH | id k IH]; intros w Hwf; simpl.
  - exact Hwf.
  - apply IH. exact Hwf.
  - pose proof (Remove_entries_wf id w Hwf) as Hwf'.
    destruct (Remove id w) as [thrown w']. apply IH. exact Hwf'.
Qed.

(** Outside [update], [Remove] never raises the removal flag. *)
Lemma Remove_idle id w : world_idle w -> world_idle (snd (Remove id w)).
Proof.
  intros Hidle. unfold Remove.
  destruct (s_pInstance w) as [b |] eqn:Hb; [| exact Hidle].
  destruct (Hidle b Hb) as ([Hsorted Hall] & Hcur & Hflag).
  rewrite Hcur. simpl.
  destruct (map_find id (m_awaiterEntries b)) as [e |] eqn:Hfind; [| exact Hidle].
  assert (He : done (awaiter e) = false).
  { apply map_find_In in Hfind. rewrite Forall_forall in Hall.
    apply (Hall (id, e)). apply list_elem_of_In. exact Hfind. }
  rewrite (callEndCallback_unfinished e (trace w) He).
  destruct (call_cancel (cancelCallback e) (trace w)) as [[exn |] tr']; simpl;
    intros b' [= <-]; simpl; (split; [split | split; assumption]).
  - apply sorted_map_assign; assumption.
  - apply unfinished_map_assign; assumption.
  - apply sorted_map_erase; assumption.
  - apply unfinished_map_erase; assumption.
Qed.

Lemma run_idle {X : Type} (p : Prog X) w :
  world_idle w -> world_idle (snd (run p w)).
Proof.
  revert w. induction p as [x | msg k IH | id k IH]; intros w Hidle; simpl.
  - exact Hidle.
  - apply IH. exact Hidle.
  - pose proof (Remove_idle id w Hidle) as Hidle'.
    destruct (Remove id w) as [thrown w']. apply IH. exact Hidle'.
Qed.

(** Spawning keeps the backend idle: a task is registered only when it is
    unfinished after its first resume. *)
Lemma ResumeAwaiterOnceAndRegisterIfNotDone_idle
    (a : A) (finish cancel : option Callback) w :
  world_idle w ->
  world_idle (snd (ResumeAwaiterOnceAndRegisterIfNotDone a finish cancel w)).
Proof.
  intros Hidle. unfold ResumeAwaiterOnceAndRegisterIfNotDone.
  destruct (done a).
  - destruct (fnCallFinishCallback finish cancel a (trace w)) as [[[exn |] a'] tr'];
      exact Hidle.
  - pose proof (run_idle (resume a) w Hidle) as Hidle1.
    destruct (run (resume a) w) as [a1 w1]. simpl in Hidle1.
    destruct (done a1) eqn:Hdone.
    + destruct (fnCallFinishCallback finish cancel a1 (trace w1))
        as [[[exn |] a'] tr']; exact Hidle1.
    + unfold Add.
      destruct (s_pInstance w1) as [b1 |] eqn:Hb1; [| exact Hidle1].
      destruct (Hidle1 b1 Hb1) as ([Hsorted Hall] & Hcur & Hflag).
      simpl. intros b' [= <-]. simpl.
      split; [split | split; assumption].
      * apply sorted_map_emplace. exact Hsorted.
      * apply unfinished_map_emplace; [exact Hdone | exact Hall].
Qed.

Lemma world_after_Init_idle : world_idle {| s_pInstance := Some Backend_new; trace := @nil (Event R) |}.
Proof.
  intros b [= <-]. repeat split; simpl; constructor.
Qed.

(** *** [update] in general *)

(** The exception pointer only records: a turn of the loop does the same
    whatever was caught before. *)
Lemma update_iteration_exceptionPtr id (exceptionPtr : option Exn) w :
  update_iteration id exceptionPtr w =
  (match exceptionPtr with
   | Some exn => Some exn
   | None => fst (fst (update_iteration id None w))
   end,
   snd (fst (update_iteration id None w)),
   snd (update_iteration id None w)).
Proof.
  unfold update_iteration.
  destruct (s_pInstance w) as [b |]; [| destruct exceptionPtr; reflexivity].
  destruct (map_find id (m_awaiterEntries b)) as [entry |];
    [| destruct exceptionPtr; reflexivity].
  destruct (run (resume (awaiter entry)) (set_instance (set_current (Some id) b) w))
    as [a1 w1].
  destruct (s_pInstance w1) as [b1 |]; [| destruct exceptionPtr; reflexivity].
  destruct (m_currentAwaiterRemovalNeeded b1 || done a1);
    [| destruct exceptionPtr; reflexivity].
  destruct (callEndCallback (set_awaiter a1 entry) (trace w1)) as [[thrown e'] tr2].
  destruct exceptionPtr; reflexivity.
Qed.

(** Once an exception has been caught, the rest of the sweep runs exactly as
    if none had been, and that exception is the one kept to the end. *)
Lemma update_loop_keeps_first_exception (fuel : nat) :
  forall (it : option AwaiterID) (exn : Exn) w,
    update_loop fuel it (Some exn) w =
    match update_loop fuel it None w with
    | Some (_, w') => Some (Some exn, w')
    | None => None
    end.
Proof.
  induction fuel as [| fuel IH]; intros it exn w.
  - destruct it; reflexivity.
  - destruct it as [id |]; [| reflexivity]. simpl.
    rewrite (update_iteration_exceptionPtr id (Some exn) w).
    destruct (update_iteration id None w) as [[thrown it'] w']. simpl.
    rewrite IH. destruct thrown as [exn' |]; [| reflexivity].
    rewrite (IH it' exn' w').
    destruct (update_loop fuel it' None w') as [[? ?] |]; reflexivity.
Qed.

Lemma Remove_shrinks id w b :
  s_pInstance w = Some b ->
  exists b',
    s_pInstance (snd (Remove id w)) = Some b' /\
    sublist (keys (m_awaiterEntries b')) (keys (m_awaiterEntries b)).
Proof.
  intros Hb. unfold Remove. rewrite Hb.
  destruct (optN_eqb (m_currentAwaiterID b) id).
  - exists (set_removalNeeded true b). split; reflexivity.
  - destruct (map_find id (m_awaiterEntries b)) as [e |];
      [| exists b; split; [exact Hb | reflexivity]].
    destruct (callEndCallback e (trace w)) as [[[exn |] e'] tr'].
    + eexists. split; [reflexivity |]. simpl. rewrite keys_map_assign. reflexivity.
    + eexists. split; [reflexivity |]. simpl. apply keys_map_erase_sublist.
Qed.

Lemma run_shrinks {X : Type} (p : Prog X) : forall w b,
  s_pInstance w = Some b ->
  exists b',
    s_pInstance (snd (run p w)) = Some b' /\
    sublist (keys (m_awaiterEntries b')) (keys (m_awaiterEntries b)).
Proof.
  induction p as [x | msg k IH | id k IH]; intros w b Hb; simpl.
  - exists b. split; [exact Hb | reflexivity].
  - apply IH. exact Hb.
  - destruct (Remove_shrinks id w b Hb) as (b1 & Hb1 & Hsub1).
    destruct (Remove id w) as [thrown w1]. simpl in Hb1.
    destruct (IH thrown w1 b1 Hb1) as (b' & Hb' & Hsub').
    exists b'. split; [exact Hb' |]. etransitivity; eassumption.
Qed.

Lemma map_find_of_key id m : In id (keys m) -> exists e, map_find id m = Some e.
Proof.
  unfold keys. induction m as [| [k e] m IH]; simpl; [intros [] |].
  destruct (N.eqb_spec k id) as [-> | Hne]; [eauto |].
  intros [Hk | Hin]; [contradiction | auto].
Qed.








(** A turn of the loop started with the flag down ends with the flag down,
    and keeps the entries in key order and unfinished. *)
Lemma update_iteration_entries_wf id (exceptionPtr : option Exn) w b :
  s_pInstance w = Some b ->
  entries_wf (m_awaiterEntries b) ->
  m_currentAwaiterRemovalNeeded b = false ->
  exists b',
    s_pInstance (snd (update_iteration id exceptionPtr w)) = Some b' /\
    entries_wf (m_awaiterEntries b') /\
    m_currentAwaiterRemovalNeeded b' = false.
Proof.
  intros Hb Hwf Hflag. unfold update_iteration. rewrite Hb.
  destruct (map_find id (m_awaiterEntries b)) as [entry |];
    [| exists b; auto].
  assert (Hwf0 : world_entries_wf (set_instance (set_current (Some id) b) w)).
  { intros b0 [= <-]. exact Hwf. }
  pose proof (run_entries_wf (resume (awaiter entry)) _ Hwf0) as Hwf1.
  destruct (run_shrinks (resume (awaiter entry))
              (set_instance (set_current (Some id) b) w) (set_current (Some id) b)
              eq_refl) as (b1 & Hb1 & _).
  destruct (run (resume (awaiter entry)) (set_instance (set_current (Some id) b) w))
    as [a1 w1]. simpl in Hb1, Hwf1. rewrite Hb1.
  destruct (Hwf1 b1 Hb1) as [Hsorted1 Hall1].
  destruct (m_currentAwaiterRemovalNeeded b1 || done a1) eqn:Hend.
  - destruct (callEndCallback (set_awaiter a1 entry) (trace w1)) as [[thrown e'] tr2].
    simpl. eexists. split; [reflexivity |]. simpl.
    rewrite map_erase_assign. split; [| reflexivity].
    split; [apply sorted_map_erase | apply unfinished_map_erase]; assumption.
  - apply orb_false_iff in Hend as [Hflag1 Hdone1].
    simpl. eexists. split; [reflexivity |]. simpl. split; [| exact Hflag1].
    split; [apply sorted_map_assign | apply unfinished_map_assign]; assumption.
Qed.

Lemma update_loop_entries_wf (fuel : nat) :
  forall (it : option AwaiterID) (exceptionPtr : option Exn) w b exn w',
    s_pInstance w = Some b ->
    entries_wf (m_awaiterEntries b) ->
    m_currentAwaiterRemovalNeeded b = false ->
    update_loop fuel it exceptionPtr w = Some (exn, w') ->
    exists b',
      s_pInstance w' = Some b' /\
      entries_wf (m_awaiterEntries b') /\
      m_currentAwaiterRemovalNeeded b' = false.
Proof.
  induction fuel as [| fuel IH]; intros it exceptionPtr w b exn w' Hb Hwf Hflag Hloop.
  - destruct it; [discriminate |]. injection Hloop as <- <-. exists b. auto.
  - destruct it as [id |]; [| injection Hloop as <- <-; exists b; auto].
    simpl in Hloop.
    destruct (update_iteration_entries_wf id exceptionPtr w b Hb Hwf Hflag)
      as (b1 & Hb1 & Hwf1 & Hflag1).
    destruct (update_iteration id exceptionPtr w) as [[exn1 it1] w1].
    simpl in Hb1. exact (IH it1 exn1 w1 b1 exn w' Hb1 Hwf1 Hflag1 Hloop).
Qed.

(** [update] takes an idle backend to an idle backend. *)
Lemma update_idle w (exn : option Exn) w' :
  world_idle w -> update w = Some (exn, w') -> world_idle w'.
Proof.
  intros Hidle Hupdate. unfold update in Hupdate.
  destruct (s_pInstance w) as [b |] eqn:Hb; [| discriminate].
  destruct (Hidle b Hb) as (Hwf & Hcur & Hflag).
  destruct (update_loop (length (m_awaiterEntries b)) (map_begin (m_awaiterEntries b))
                        None w) as [[exn1 w1] |] eqn:Hloop; [| discriminate].
  destruct (update_loop_entries_wf _ _ _ _ _ _ _ Hb Hwf Hflag Hloop)
    as (b1 & Hb1 & Hwf1 & Hflag1).
  rewrite Hb1 in Hupdate. injection Hupdate as <- <-.
  intros b' [= <-]. repeat split; try apply Hwf1. exact Hflag1.
Qed.

(** *** The sweep of [update], whatever the coroutines do *)

Lemma map_next_erase id m : map_next id (map_erase id m) = map_next id m.
Proof.
  induction m as [| [k e] m IH]; simpl; [reflexivity |].
  destruct (N.eqb_spec k id) as [-> | Hne]; simpl.
  - rewrite N.ltb_irrefl. reflexivity.
  - rewrite IH. reflexivity.
Qed.

Lemma map_next_head id m :
  map_next id m = head (filter (fun k => N.succ id <= k) (keys m)).
Proof.
  unfold keys. induction m as [| [k e] m IH]; simpl; [reflexivity |].
  destruct (N.ltb_spec id k).
  - rewrite filter_cons_True by lia. reflexivity.
  - rewrite filter_cons_False by lia. exact IH.
Qed.

Lemma map_begin_head m : map_begin m = head (keys m).
Proof. destruct m as [| [k e] m]; reflexivity. Qed.

Lemma sublist_filter_mono (P : AwaiterID -> Prop) `{!forall k, Decision (P k)}
    (l' l : list AwaiterID) :
  sublist l' l -> sublist (filter P l') (filter P l).
Proof.
  induction 1 as [| x l1 l2 Hsub IH | x l1 l2 Hsub IH].
  - constructor.
  - rewrite !filter_cons. destruct (decide (P x)); [constructor |]; exact IH.
  - rewrite filter_cons. destruct (decide (P x)); [constructor |]; exact IH.
Qed.

Lemma sweep_entry_absent id w b :
  s_pInstance w = Some b -> map_find id (m_awaiterEntries b) = None ->
  sweep_entry id w = (None, w).
Proof. intros Hb Hnone. unfold sweep_entry. rewrite Hb, Hnone. reflexivity. Qed.

(** One turn of the loop at a registered identifier does what the sweep is
    to do for it, and moves the iterator to the next key of the map, whatever
    the end callback has thrown. *)
Lemma update_iteration_sweep_entry id (exceptionPtr : option Exn) w b e :
  s_pInstance w = Some b ->
  sorted_keys (m_awaiterEntries b) ->
  m_currentAwaiterRemovalNeeded b = false ->
  map_find id (m_awaiterEntries b) = Some e ->
  exists b',
    s_pInstance (snd (sweep_entry id w)) = Some b' /\
    sorted_keys (m_awaiterEntries b') /\
    m_currentAwaiterRemovalNeeded b' = false /\
    sublist (keys (m_awaiterEntries b')) (keys (m_awaiterEntries b)) /\
    update_iteration id exceptionPtr w =
      (match exceptionPtr with
       | Some exn => Some exn
       | None => fst (sweep_entry id w)
       end,
       map_next id (m_awaiterEntries b'),
       snd (sweep_entry id w)).
Proof.
  intros Hb Hsorted Hflag Hfind.
  set (w0 := set_instance (set_current (Some id) b) w).
  destruct (run_keeps_current (resume (awaiter e)) id e
              (set_current (Some id) b) w0)
    as (b1 & Hb1 & Hcur1 & Hfind1 & Hsorted1 & Hflag1); auto.
  destruct (run_shrinks (resume (awaiter e)) w0 (set_current (Some id) b) eq_refl)
    as (b1' & Hb1' & Hsub1).
  rewrite Hb1 in Hb1'. injection Hb1' as <-.
  simpl in Hflag1, Hsub1. rewrite Hflag in Hflag1. simpl in Hflag1.
  unfold update_iteration, sweep_entry. rewrite Hb, Hfind. cbv zeta. fold w0.
  destruct (run (resume (awaiter e)) w0) as [a1 w1] eqn:Hrun.
  cbn [fst snd] in *. rewrite Hb1, Hflag1.
  destruct (calls_Remove id (resume (awaiter e)) w0 || done a1) eqn:Hend.
  - rewrite callEndCallback_appends.
    eexists. split; [reflexivity |]. simpl.
    rewrite map_erase_assign, map_next_assign, map_next_erase.
    split; [apply sorted_map_erase; exact Hsorted1 |].
    split; [reflexivity |].
    split; [etransitivity; [apply keys_map_erase_sublist | exact Hsub1] |].
    destruct exceptionPtr; reflexivity.
  - apply orb_false_iff in Hend as [Hnocall Hnotdone].
    eexists. split; [reflexivity |]. simpl.
    rewrite keys_map_assign, map_next_assign.
    split; [apply sorted_map_assign; exact Hsorted1 |].
    split; [rewrite Hflag1; exact Hnocall |].
    split; [exact Hsub1 |].
    destruct exceptionPtr; reflexivity.
Qed.

(** The loop of [update], with its iterator at the first key not below
    [lo], does the sweep over any ascending list of identifiers that holds
    the keys it has in front of it. *)
Lemma update_loop_sweep_general (ids : list AwaiterID) :
  StronglySorted N.lt ids ->
  forall (fuel : nat) (exceptionPtr : option Exn) w b (lo : AwaiterID),
    s_pInstance w = Some b ->
    sorted_keys (m_awaiterEntries b) ->
    m_currentAwaiterRemovalNeeded b = false ->
    Forall (fun k => lo <= k) ids ->
    sublist (filter (fun k => lo <= k) (keys (m_awaiterEntries b))) ids ->
    (length ids <= fuel)%nat ->
    update_loop fuel (head (filter (fun k => lo <= k) (keys (m_awaiterEntries b))))
                exceptionPtr w
    = Some (match exceptionPtr with
            | Some exn => Some exn
            | None => first_exception (fst (sweep ids w))
            end,
            snd (sweep ids w)) /\
    is_Some (s_pInstance (snd (sweep ids w))).
Proof.
  induction 1 as [| id ids Hids IH Hlt];
    intros fuel exceptionPtr w b lo Hb Hsorted Hflag Hlo Hsub Hfuel.
  - apply sublist_nil_r in Hsub. rewrite Hsub. simpl.
    split; [| rewrite Hb; eauto].
    destruct fuel; simpl; destruct exceptionPtr; reflexivity.
  - apply Forall_cons in Hlo as [Hlo_id Hlo_ids].
    assert (Hnotin : forall k, k ∈ ids -> id < k).
    { intros k Hk. rewrite Forall_forall in Hlt. apply Hlt. exact Hk. }
    apply sublist_cons_r in Hsub as [Hsub | (K' & HK & Hsub)].
    + (* no entry is registered under [id] any more *)
      assert (Hnone : map_find id (m_awaiterEntries b) = None).
      { destruct (map_find id (m_awaiterEntries b)) as [e |] eqn:Hfind;
          [| reflexivity].
        exfalso. apply map_find_In in Hfind.
        assert (Hin : id ∈ filter (fun k => lo <= k) (keys (m_awaiterEntries b))).
        { apply list_elem_of_filter. split; [exact Hlo_id |].
          apply list_elem_of_In. unfold keys. apply in_map_iff.
          exists (id, e). split; [reflexivity | exact Hfind]. }
        pose proof (sublist_subseteq _ _ Hsub id Hin) as Hin'.
        apply Hnotin in Hin'. lia. }
      simpl sweep. rewrite (sweep_entry_absent id w b Hb Hnone).
      destruct (IH fuel exceptionPtr w b lo Hb Hsorted Hflag Hlo_ids Hsub
                   ltac:(simpl in Hfuel; lia)) as [Hloop Hinst].
      rewrite Hloop.
      destruct (sweep ids w) as [others w2]. simpl. split; [reflexivity | exact Hinst].
    + (* the iterator is at [id] *)
      assert (Hin : id ∈ keys (m_awaiterEntries b)).
      { assert (Hk : id ∈ filter (fun k => lo <= k) (keys (m_awaiterEntries b)))
          by (rewrite HK; left).
        apply list_elem_of_filter in Hk. apply Hk. }
      destruct (map_find_of_key id _ (proj1 (list_elem_of_In _ _) Hin)) as [e Hfind].
      rewrite HK. change (head (id :: K')) with (Some id).
      destruct fuel as [| fuel]; [simpl in Hfuel; lia |]. simpl in Hfuel.
      destruct (update_iteration_sweep_entry id exceptionPtr w b e
                  Hb Hsorted Hflag Hfind)
        as (b' & Hb' & Hsorted' & Hflag' & Hsub' & Hiteration).
      cbn [update_loop]. rewrite Hiteration, map_next_head.
      destruct (IH fuel
                   (match exceptionPtr with
                    | Some exn => Some exn
                    | None => fst (sweep_entry id w)
                    end)
                   (snd (sweep_entry id w)) b' (N.succ id))
        as [Hloop Hinst].
      * exact Hb'.
      * exact Hsorted'.
      * exact Hflag'.
      * rewrite Forall_forall. intros k Hk. apply Hnotin in Hk. lia.
      * transitivity (filter (fun k => N.succ id <= k) (id :: K')).
        -- assert (Hk : filter (fun k => N.succ id <= k) (id :: K')
                        = filter (fun k => N.succ id <= k)
                                 (filter (fun k => lo <= k) (keys (m_awaiterEntries b))))
             by (f_equal; symmetry; exact HK).
           rewrite Hk.
           rewrite (list_filter_filter (fun k => N.succ id <= k) (fun k => lo <= k)).
           rewrite <- (list_filter_iff (fun k => N.succ id <= k)
                         (fun k => N.succ id <= k /\ lo <= k))
             by (intros k; lia).
           apply sublist_filter_mono. exact Hsub'.
        -- rewrite filter_cons_False by lia.
           etransitivity; [apply sublist_filter | exact Hsub].
      * lia.
      * rewrite Hloop. simpl sweep.
        destruct (sweep_entry id w) as [thrown w1]. cbn [fst snd] in *.
        destruct (sweep ids w1) as [others w2]. cbn [fst snd] in *.
        split; [| exact Hinst].
        destruct exceptionPtr; [reflexivity |].
        destruct thrown; reflexivity.
Qed.

Lemma filter_from_0 (l : list AwaiterID) : filter (fun k => 0 <= k) l = l.
Proof.
  induction l as [| k l IHl]; [reflexivity |].
  rewrite filter_cons_True by lia. f_equal. exact IHl.
Qed.

(** [update] is the sweep over the keys of the map. *)
Lemma update_sweep w b :
  s_pInstance w = Some b ->
  sorted_keys (m_awaiterEntries b) ->
  m_currentAwaiterRemovalNeeded b = false ->
  update w =
    Some (first_exception (fst (sweep (keys (m_awaiterEntries b)) w)),
          {| s_pInstance :=
               option_map (set_current None)
                          (s_pInstance (snd (sweep (keys (m_awaiterEntries b)) w)));
             trace := trace (snd (sweep (keys (m_awaiterEntries b)) w)) |}).
Proof.
  intros Hb Hsorted Hflag.
  destruct (update_loop_sweep_general (keys (m_awaiterEntries b)) Hsorted
              (length (m_awaiterEntries b)) None w b 0 Hb Hsorted Hflag)
    as [Hloop [b' Hb']].
  - rewrite Forall_forall. intros k _. lia.
  - rewrite (list_filter_iff (fun k => 0 <= k) (fun _ => True)) by (intros k; lia).
    apply sublist_filter.
  - unfold keys. rewrite length_map. reflexivity.
  - rewrite filter_from_0, <- map_begin_head in Hloop.
    unfold update. rewrite Hb, Hloop, Hb'. reflexivity.
Qed.

(** C2. One [Backend::update] on a backend whose map is in key order and
    whose removal flag is down:
    - whatever the coroutines do, an exception caught from an end callback
      does not change what the rest of the sweep does, and it is the one kept
      to the end: later exceptions do not replace it;
    - whatever the coroutines do while they are resumed (they may call
      [Remove] for any identifier, their own included), [update] returns,
      and it has done the sweep over the identifiers registered at its
      start, in key order: each one still registered when its turn comes is
      resumed; if it has finished or has asked for its own removal its end
      callback is called and it is erased, whether or not that callback or an
      earlier one threw; the sweep goes on to the last identifier; the
      exception rethrown at the end is the first one an end callback threw,
      if any;
    - over any entries whose coroutines make no backend call while they are
      resumed, the outcome in full: every entry is resumed, in key order;
      every entry that finishes has its end callback called and is erased;
      the others stay;
    - whether the callbacks throw changes neither the callbacks that are
      called nor the entries that remain. *)
Theorem update_isolates_callback_exceptions w b :
  s_pInstance w = Some b ->
  sorted_keys (m_awaiterEntries b) ->
  m_currentAwaiterRemovalNeeded b = false ->
  (forall (fuel : nat) (it : option AwaiterID) (exn : Exn) w0,
     update_loop fuel it (Some exn) w0 =
     match update_loop fuel it None w0 with
     | Some (_, w') => Some (Some exn, w')
     | None => None
     end) /\
  update w =
    Some (first_exception (fst (sweep (keys (m_awaiterEntries b)) w)),
          {| s_pInstance :=
               option_map (set_current None)
                          (s_pInstance (snd (sweep (keys (m_awaiterEntries b)) w)));
             trace := trace (snd (sweep (keys (m_awaiterEntries b)) w)) |}) /\
  (Forall (fun x => no_backend_call (resume (awaiter (snd x))) = true)
          (m_awaiterEntries b) ->
   update w =
     Some (sweep_exception (m_awaiterEntries b),
           {| s_pInstance :=
                Some {| m_nextAwaiterID := m_nextAwaiterID b;
                        m_currentAwaiterID := None;
                        m_currentAwaiterRemovalNeeded := false;
                        m_awaiterEntries := sweep_survivors (m_awaiterEntries b) |};
              trace := trace w ++ sweep_events (m_awaiterEntries b) |})) /\
  sweep_events (map (fun x => (fst x, quiet_entry (snd x))) (m_awaiterEntries b))
    = sweep_events (m_awaiterEntries b) /\
  sweep_survivors (map (fun x => (fst x, quiet_entry (snd x))) (m_awaiterEntries b))
    = map (fun x => (fst x, quiet_entry (snd x)))
          (sweep_survivors (m_awaiterEntries b)).
Proof.
  intros Hb Hsorted Hflag.
  split; [intros fuel it exn w0; apply update_loop_keeps_first_exception |].
  split; [exact (update_sweep w b Hb Hsorted Hflag) |].
  split; [| split; [apply sweep_events_quiet | apply sweep_survivors_quiet]].
  intros Hpure. unfold update. rewrite Hb.
  destruct (update_loop_sweep (m_awaiterEntries b) [] (length (m_awaiterEntries b))
              None b (trace w) (le_n _) Hsorted eq_refl Hflag Hpure)
    as [current Hloop].
  destruct w as [inst tr]. simpl in Hb. subst inst. simpl in *.
  rewrite Hloop. reflexivity.
Qed.

End InvariantFacts.

Example four_tasks_registered :
  keys (m_awaiterEntries (backend_of world_with_four_tasks)) = [1; 2; 3; 4] /\
  trace world_with_four_tasks
  = [Emitted "A1"; Emitted "B1"; Emitted "C1"; Emitted "D1"].
Proof. vm_compute. split; reflexivity. Qed.

(** The tick after the four spawns: A's finish callback throws 1, B's failure
    2 surfaces through its cancel path, C stays, D is still cleaned up, and
    only the first exception is rethrown. *)
Example four_tasks_one_tick :
  option_map fst (update world_with_four_tasks) = Some (Some (UserException 1)) /\
  option_map (fun r => keys (m_awaiterEntries (backend_of (snd r))))
             (update world_with_four_tasks) = Some [3] /\
  option_map (fun r => trace (snd r)) (update world_with_four_tasks)
  = Some [Emitted "A1"; Emitted "B1"; Emitted "C1"; Emitted "D1";
          Emitted "A2"; FinishCalled "A finished" 10%nat;
          Emitted "B2"; CancelCalled "B cancelled";
          Emitted "C2";
          Emitted "D2"; FinishCalled "D finished" 40%nat].
Proof. vm_compute. repeat split. Qed.

(** Through the theorem.  In [world_with_self_removal] the first entry
    removes itself while it is resumed and its cancel callback throws: the
    entry is erased, the second entry is still resumed and cleaned up, and
    the exception is rethrown at the end.  In [world_with_four_tasks] the
    first of two exceptions is the one rethrown. *)
Lemma update_isolates_callback_exceptions_witness :
  (option_map fst (update world_with_self_removal) = Some (Some (UserException 4)) /\
   option_map (fun r => keys (m_awaiterEntries (backend_of (snd r))))
              (update world_with_self_removal) = Some [] /\
   option_map (fun r => trace (snd r)) (update world_with_self_removal)
   = Some [Emitted "P1"; Emitted "Q1";
           Emitted "P2"; CancelCalled "P cancelled";
           Emitted "Q2"; FinishCalled "Q finished" 20%nat]) /\
  (option_map fst (update world_with_four_tasks) = Some (Some (UserException 1)) /\
   option_map (fun r => keys (m_awaiterEntries (backend_of (snd r))))
              (update world_with_four_tasks) = Some [3]).
Proof.
  split.
  - assert (Hsorted : sorted_keys (m_awaiterEntries (backend_of world_with_self_removal))).
    { unfold sorted_keys. simpl. repeat constructor; lia. }
    destruct (update_isolates_callback_exceptions
                world_with_self_removal (backend_of world_with_self_removal)
                eq_refl Hsorted eq_refl) as (_ & Hsweep & _).
    rewrite Hsweep. vm_compute. repeat split.
  - assert (Hsorted : sorted_keys (m_awaiterEntries (backend_of world_with_four_tasks))).
    { unfold sorted_keys. simpl. repeat constructor; lia. }
    destruct (update_isolates_callback_exceptions
                world_with_four_tasks (backend_of world_with_four_tasks)
                eq_refl Hsorted eq_refl) as (_ & _ & Hpure & _).
    rewrite Hpure by (simpl; repeat constructor).
    vm_compute. repeat split.
Defined.

(** The spawn registers the task under identifier 1, after one resume. *)
Example removing_itself_then_waiting_registered :
  ScopedTaskRunner_new removing_itself_then_waiting
    (callback "T finished") (callback "T cancelled") world_after_Init
  = (Ok {| m_id := Some 1 |},
     {| s_pInstance :=
          Some {| m_nextAwaiterID := 2;
                  m_currentAwaiterID := None;
                  m_currentAwaiterRemovalNeeded := false;
                  m_awaiterEntries :=
                    [(1, entry_of (fst (run (Task_resume removing_itself_then_waiting)
                                            world_after_Init))
                                  "T finished" "T cancelled")] |};
        trace := [Emitted "T1"] |}).
Proof. reflexivity. Qed.

(** The tick after: the coroutine removes its own entry and goes on to its
    next suspension point; the cancel callback is called once, after the
    resume, and the entry is gone. *)
Example removing_itself_then_waiting_one_tick :
  let w := world_with_first_task removing_itself_then_waiting
                                 "T finished" "T cancelled" in
  option_map fst (update w) = Some None /\
  option_map (fun r => keys (m_awaiterEntries (backend_of (snd r)))) (update w)
  = Some [] /\
  option_map (fun r => trace (snd r)) (update w)
  = Some [Emitted "T1"; Emitted "T2"; CancelCalled "T cancelled"].
Proof. vm_compute. repeat split. Qed.



(** ** Spawning *)

Section SpawnFacts.
Context {Sub : Type} `{!IAwaiter Sub}.
Context {Conc : Type} `{!IAwaiter Conc}.
Context {F R : Type}.
Implicit Types (t : Task Sub Conc F R).
Implicit Types (w : World (R:=R) (A:=Task Sub Conc F R)).


End SpawnFacts.



(** ** [All] and [Any] *)

Section PlainTaskFacts.
Context {Sub : Type} `{!IAwaiter Sub}.
Context {Conc : Type} `{!IAwaiter Conc}.
Context {F R : Type}.
Context {R' A' : Type} `{!TaskAwaiter R' A'}.
Implicit Types (w : World (R:=R') (A:=A')).

(** One resume of a task without companions whose coroutine is not
    suspended on a sub-awaiter: the body runs once. *)
Lemma run_Task_resume_plain (h : CoroutineHandle Sub F R) w :
  at_final_suspend h = false ->
  m_pSubAwaiter (promise h) = None ->
  run (Task_resume (Conc:=Conc) (Task_new h)) w =
  (Task_new (suspend_at h (fst (run (code h (locals h) None) w))),
   snd (run (code h (locals h) None) w)).
Proof.
  intros Hrun Hsub.
  unfold Task_resume, Task_new, CoroutineHandleWrapper_resume,
    CoroutineHandleWrapper_done, handle_done. simpl.
  rewrite Hrun. unfold resumeSubAwaiter. rewrite Hsub. simpl.
  unfold handle_resume. rewrite set_promise_same.
  rewrite !run_bind.
  destruct (run (code h (locals h) None) w) as [step w1]. reflexivity.
Qed.

Lemma for_each_lookup_done (ts : list (Task Sub Conc F R)) :
  forall (i : nat) t w,
    ts !! i = Some t -> Task_done t = true ->
    fst (run (for_each Task_resume ts) w) !! i = Some t.
Proof.
  induction ts as [| t0 ts IH]; intros i t w Hi Hdone; [destruct i; discriminate |].
  simpl. rewrite !run_bind.
  destruct (run (Task_resume t0) w) as [t0' w1] eqn:Ht0.
  rewrite !run_bind.
  destruct (run (for_each Task_resume ts) w1) as [ts' w2] eqn:Hts.
  simpl. destruct i as [| i]; simpl in *.
  - injection Hi as ->.
    rewrite (run_Task_resume_done t w Hdone) in Ht0.
    injection Ht0 as <- <-. reflexivity.
  - specialize (IH i t w1 Hi Hdone). rewrite Hts in IH. exact IH.
Qed.

End PlainTaskFacts.

Section WaitingFacts.
Context {Sub : Type} `{!IAwaiter Sub}.
Context {Conc : Type} `{!IAwaiter Conc}.
Context {F V Out : Type}.
Context {R' A' : Type} `{!TaskAwaiter R' A'}.
Implicit Types (args : list (Task Sub Conc F (result_type V))).
Implicit Types (w : World (R:=R') (A:=A')).
Implicit Types (ready : list (Task Sub Conc F (result_type V)) -> bool).
Implicit Types (finish : list (Task Sub Conc F (result_type V)) -> Result Out).
Implicit Types
  (body : CombinatorFrame (Sub:=Sub) (Conc:=Conc) (F:=F) (V:=V) ->
          option Empty_set ->
          Prog (BodyStep Empty_set
                         (CombinatorFrame (Sub:=Sub) (Conc:=Conc) (F:=F) (V:=V)) Out)).

(** The fold [(args.resume(), ...)] resumes the arguments first to last. *)
Lemma run_for_each_resume {T : Type} `{!IAwaiter T} (ts : list T) w :
  run (for_each resume ts) w = resumed_in_order ts w.
Proof.
  revert w. induction ts as [| t ts IH]; intros w; [reflexivity |].
  simpl. rewrite run_bind.
  destruct (run (resume t) w) as [t1 w1].
  rewrite run_bind, IH.
  destruct (resumed_in_order ts w1) as [ts1 w2]. reflexivity.
Qed.

Lemma rounds_S (n : nat) args w :
  rounds (S n) args w =
  run (for_each Task_resume (fst (rounds n args w))) (snd (rounds n args w)).
Proof.
  simpl. destruct (rounds n args w) as [ts1 w1]. cbn [fst snd].
  exact (eq_sym (run_for_each_resume ts1 w1)).
Qed.

(** Resuming a finished combinator does nothing. *)
Lemma ticks_finished {T : Type} `{!IAwaiter T} (t : T) w (k : nat) :
  (forall w', run (resume t) w' = (t, w')) -> ticks k t w = (t, w).
Proof.
  intros Hidle. induction k as [| k IH]; [reflexivity |].
  simpl. rewrite IH. apply Hidle.
Qed.

Lemma ticks_add {T : Type} `{!IAwaiter T} (t : T) w (n k : nat) :
  ticks (n + k) t w = ticks k (fst (ticks n t w)) (snd (ticks n t w)).
Proof.
  induction k as [| k IH].
  - rewrite Nat.add_0_r. destruct (ticks n t w). reflexivity.
  - rewrite Nat.add_succ_r. simpl. rewrite IH. reflexivity.
Qed.

Lemma ticks_S {T : Type} `{!IAwaiter T} (n : nat) (t : T) w :
  ticks (S n) t w = run (resume (fst (ticks n t w))) (snd (ticks n t w)).
Proof. simpl. destruct (ticks n t w). reflexivity. Qed.

Lemma rounds_lookup_done args w (j k i : nat) a :
  fst (rounds j args w) !! i = Some a -> Task_done a = true ->
  fst (rounds (j + k) args w) !! i = Some a.
Proof.
  intros Hi Hdone. induction k as [| k IH].
  - rewrite Nat.add_0_r. exact Hi.
  - rewrite Nat.add_succ_r, rounds_S.
    apply for_each_lookup_done; assumption.
Qed.

(** A finished coroutine of a combinator: done, with its outcome in the
    completion slot. *)
Lemma finished_combinator
    (h : CoroutineHandle Empty_set
           (CombinatorFrame (Sub:=Sub) (Conc:=Conc) (F:=F) (V:=V)) Out)
    (r : Result Out) :
  let t := Task_new (Conc:=Empty_set) (suspend_at h (co_return_or_throw r)) in
  Task_done t = true /\ completion_slot t = Some r.
Proof. destruct r; split; reflexivity. Qed.

(** One tick of a combinator suspended in its loop. *)
Lemma tick_in_loop ready finish body args w :
  waits_until ready finish body ->
  run (Task_resume (Conc:=Empty_set) (Task_new (waiting_in_loop body args))) w =
  (let args' := fst (run (for_each Task_resume args) w) in
   if ready args' then
     Task_new (suspend_at (waiting_in_loop body args)
                          (co_return_or_throw (finish args')))
   else Task_new (waiting_in_loop body args'),
   snd (run (for_each Task_resume args) w)).
Proof.
  intros [_ Hloop].
  rewrite run_Task_resume_plain by reflexivity.
  simpl. rewrite Hloop. unfold waiting_loop. rewrite run_bind.
  destruct (run (for_each Task_resume args) w) as [args' w']. simpl.
  destruct (ready args'); reflexivity.
Qed.

(** The first tick of a combinator whose test fails at entry. *)
Lemma tick_at_entry ready finish body args w :
  waits_until ready finish body ->
  ready args = false ->
  run (Task_resume (Conc:=Empty_set)
         (Task_new (coroutine body (AtInitialSuspend, args)))) w =
  (let args' := fst (run (for_each Task_resume args) w) in
   if ready args' then
     Task_new (suspend_at (coroutine body (AtInitialSuspend, args))
                          (co_return_or_throw (finish args')))
   else Task_new (waiting_in_loop body args'),
   snd (run (for_each Task_resume args) w)).
Proof.
  intros [Hentry _] Hnot.
  rewrite run_Task_resume_plain by reflexivity.
  simpl. rewrite Hentry, Hnot. unfold waiting_loop. rewrite run_bind.
  destruct (run (for_each Task_resume args) w) as [args' w']. simpl.
  destruct (ready args'); reflexivity.
Qed.

(** The first tick of a combinator whose test holds at entry. *)
Lemma tick_ready_at_entry ready finish body args w :
  waits_until ready finish body ->
  ready args = true ->
  run (Task_resume (Conc:=Empty_set)
         (Task_new (coroutine body (AtInitialSuspend, args)))) w =
  (Task_new (suspend_at (coroutine body (AtInitialSuspend, args))
                        (co_return_or_throw (finish args))), w).
Proof.
  intros [Hentry _] Hready.
  rewrite run_Task_resume_plain by reflexivity.
  simpl. rewrite Hentry, Hready. reflexivity.
Qed.

(** While the test fails after every round, the combinator is suspended
    in its loop, and its arguments and the world are those the rounds
    give. *)
Lemma ticks_while_waiting ready finish body args w :
  waits_until ready finish body ->
  ready args = false ->
  forall j : nat,
    (forall i : nat, (0 < i <= j)%nat -> ready (fst (rounds i args w)) = false) ->
    (0 < j)%nat ->
    ticks j (Task_new (Conc:=Empty_set) (coroutine body (AtInitialSuspend, args))) w
    = (Task_new (waiting_in_loop body (fst (rounds j args w))),
       snd (rounds j args w)).
Proof.
  intros Hbody Hnot j. induction j as [| j IH]; intros Hwait Hpos; [lia |].
  pose proof (Hwait (S j) ltac:(lia)) as Hlast.
  rewrite (rounds_S j) in Hlast.
  rewrite (ticks_S j), (rounds_S j). cbn [resume Task_IAwaiter].
  destruct j as [| j].
  - cbn [ticks rounds fst snd] in *.
    rewrite (tick_at_entry ready finish body args w Hbody Hnot).
    cbv zeta. rewrite Hlast. reflexivity.
  - rewrite IH by (try (intros i Hi; apply Hwait); lia).
    cbn [fst snd].
    rewrite (tick_in_loop ready finish body _ _ Hbody).
    cbv zeta. rewrite Hlast. reflexivity.
Qed.

(** The combinator completes at the first round after which the test
    holds, not before, having resumed every argument once per tick. *)
Lemma combinator_completes ready finish body args w (n : nat) :
  waits_until ready finish body ->
  let t0 := Task_new (Conc:=Empty_set) (coroutine body (AtInitialSuspend, args)) in
  (ready args = true ->
     Task_done (fst (run (Task_resume t0) w)) = true /\
     snd (run (Task_resume t0) w) = w /\
     completion_slot (fst (run (Task_resume t0) w)) = Some (finish args)) /\
  (ready args = false ->
   (forall j : nat, (0 < j < n)%nat -> ready (fst (rounds j args w)) = false) ->
   ready (fst (rounds n args w)) = true ->
     (forall j : nat, (j < n)%nat ->
        Task_done (fst (ticks j t0 w)) = false /\
        snd (ticks j t0 w) = snd (rounds j args w)) /\
     Task_done (fst (ticks n t0 w)) = true /\
     snd (ticks n t0 w) = snd (rounds n args w) /\
     completion_slot (fst (ticks n t0 w)) = Some (finish (fst (rounds n args w)))).
Proof.
  intros Hbody t0. split.
  - intros Hready. subst t0.
    rewrite (tick_ready_at_entry ready finish body args w Hbody Hready).
    cbn [fst snd].
    destruct (finished_combinator (coroutine body (AtInitialSuspend, args))
                                  (finish args)) as [Hd Hs].
    auto.
  - intros Hnot Hwait Hready.
    assert (Hpos : (0 < n)%nat).
    { destruct n; [cbn [rounds fst] in Hready; congruence | lia]. }
    assert (Hbefore : forall j : nat, (0 < j < n)%nat ->
              ticks j t0 w = (Task_new (waiting_in_loop body (fst (rounds j args w))),
                              snd (rounds j args w))).
    { intros j Hj. apply (ticks_while_waiting ready finish body args w Hbody Hnot);
        [| lia]. intros i Hi. apply Hwait. lia. }
    split.
    + intros j Hj. destruct j as [| j]; [split; reflexivity |].
      rewrite Hbefore by lia. split; reflexivity.
    + destruct n as [| n]; [lia |].
      rewrite (rounds_S n) in Hready.
      rewrite (ticks_S n), (rounds_S n). cbn [resume Task_IAwaiter].
      destruct n as [| n].
      * cbn [ticks rounds fst snd] in *. subst t0.
        rewrite (tick_at_entry ready finish body args w Hbody Hnot).
        cbv zeta. rewrite Hready. cbn [fst snd].
        destruct (finished_combinator (coroutine body (AtInitialSuspend, args))
                    (finish (fst (run (for_each Task_resume args) w))))
          as [Hd Hs].
        auto.
      * rewrite Hbefore by lia. cbn [fst snd].
        rewrite (tick_in_loop ready finish body _ _ Hbody).
        cbv zeta. rewrite Hready. cbn [fst snd].
        destruct (finished_combinator
                    (waiting_in_loop body (fst (rounds (S n) args w)))
                    (finish (fst (run (for_each Task_resume (fst (rounds (S n) args w)))
                                      (snd (rounds (S n) args w))))))
          as [Hd Hs].
        auto.
Qed.

End WaitingFacts.

Section AllAnyFacts.
Context {Sub : Type} `{!IAwaiter Sub}.
Context {Conc : Type} `{!IAwaiter Conc}.
Context {F V : Type}.
Context {R' A' : Type} `{!TaskAwaiter R' A'}.
Implicit Types (args : list (Task Sub Conc F (result_type V))).
Implicit Types (a : Task Sub Conc F (result_type V)).
Implicit Types (w : World (R:=R') (A:=A')) (pick : list Exn -> Exn).

Lemma make_tuple_Ok {S : Type} pick (rs : list (Result S)) (ss : list S) :
  Forall2 (fun r s => r = Ok s) rs ss -> make_tuple pick rs = Ok ss.
Proof.
  intros Hall. unfold make_tuple.
  assert (Hboth : failures rs = [] /\ successes rs = ss).
  { induction Hall as [| r s rs ss -> _ [IHf IHs]]; [split; reflexivity |].
    unfold failures, successes in *. simpl. rewrite IHf, IHs. split; reflexivity. }
  destruct Hboth as [-> ->]. reflexivity.
Qed.

Lemma make_tuple_Raise {S : Type} pick (rs : list (Result S)) (e : Exn) :
  (forall e0 es, pick (e0 :: es) ∈ e0 :: es) ->
  Raise e ∈ rs ->
  exists e', make_tuple pick rs = Raise e' /\ Raise e' ∈ rs.
Proof.
  intros Hpick Hin. unfold make_tuple.
  assert (Hfail : forall x, x ∈ failures rs <-> Raise x ∈ rs).
  { intros x. unfold failures. rewrite list_elem_of_In, in_flat_map. split.
    - intros ([s | e0] & Hr & Hx); simpl in Hx; [contradiction |].
      destruct Hx as [-> | []]. apply list_elem_of_In. exact Hr.
    - intros Hx. exists (Raise x). split; [apply list_elem_of_In; exact Hx |].
      left. reflexivity. }
  destruct (failures rs) as [| e0 es] eqn:Hf.
  - apply Hfail in Hin. inversion Hin.
  - exists (pick (e0 :: es)). split; [reflexivity |].
    apply Hfail. apply Hpick.
Qed.

Lemma All_code_waits pick :
  waits_until (forallb Task_done)
              (fun args => make_tuple pick (map ConvertVoidResult args))
              (All_code pick).
Proof. split; intros; reflexivity. Qed.

Lemma Any_code_waits pick :
  waits_until (existsb Task_done)
              (fun args => make_tuple pick (map ConvertOptionalVoidResult args))
              (Any_code pick).
Proof. split; intros; reflexivity. Qed.

Lemma ConvertVoidResult_tuple pick args (rs : list (result_type V)) :
  Forall2 (fun a r => fst (Task_value a) = Ok r) args rs ->
  make_tuple pick (map (ConvertVoidResult (Sub:=Sub) (Conc:=Conc) (F:=F)) args)
  = Ok (map (fun r => match r with
                      | ReturnedVoid => VoidResult
                      | Returned v => Kept v
                      end) rs).
Proof.
  intros Hall. apply make_tuple_Ok.
  induction Hall as [| a r args' rs' Ha _ IH]; simpl; constructor; [| exact IH].
  unfold ConvertVoidResult. rewrite Ha. destruct r; reflexivity.
Qed.

Lemma ConvertOptionalVoidResult_tuple pick args
    (slots : list (option (VoidResultTypeReplace V))) :
  Forall2 (fun a slot =>
             if Task_done a
             then exists r, fst (Task_value a) = Ok r /\
                            slot = Some (match r with
                                         | ReturnedVoid => VoidResult
                                         | Returned v => Kept v
                                         end)
             else slot = None) args slots ->
  make_tuple pick (map (ConvertOptionalVoidResult (Sub:=Sub) (Conc:=Conc) (F:=F)) args)
  = Ok slots.
Proof.
  intros Hall. apply make_tuple_Ok.
  induction Hall as [| a slot args' slots' Ha _ IH]; simpl; constructor;
    [| exact IH].
  unfold ConvertOptionalVoidResult.
  destruct (Task_done a); simpl.
  - destruct Ha as (r & -> & ->). destruct r; reflexivity.
  - rewrite Ha. reflexivity.
Qed.

Lemma ConvertOptionalVoidResult_failure pick args a (e : Exn) :
  (forall e0 es, pick (e0 :: es) ∈ e0 :: es) ->
  a ∈ args -> Task_done a = true -> fst (Task_value a) = Raise e ->
  exists e' a',
    make_tuple pick (map (ConvertOptionalVoidResult (Sub:=Sub) (Conc:=Conc) (F:=F)) args)
    = Raise e' /\
    a' ∈ args /\ Task_done a' = true /\ fst (Task_value a') = Raise e'.
Proof.
  intros Hpick Hin Hdone Hfail.
  destruct (make_tuple_Raise pick (map ConvertOptionalVoidResult args) e Hpick)
    as (e' & Htuple & Hin').
  { apply list_elem_of_fmap. exists a. split; [| exact Hin].
    unfold ConvertOptionalVoidResult. rewrite Hdone, Hfail. reflexivity. }
  apply list_elem_of_fmap in Hin' as (a' & Ha' & Hin').
  exists e', a'. split; [exact Htuple |]. split; [exact Hin' |].
  unfold ConvertOptionalVoidResult in Ha'.
  destruct (Task_done a'); simpl in Ha'; [| discriminate].
  destruct (fst (Task_value a')) as [r | e0]; [discriminate |].
  injection Ha' as ->. split; reflexivity.
Qed.

(** A combinator that is done stays as it is, whatever the number of further
    resumes. *)
Lemma ticks_after_done {Out : Type}
    (t : Task Empty_set Empty_set (CombinatorFrame (Sub:=Sub) (Conc:=Conc) (F:=F) (V:=V)) Out)
    w (k : nat) :
  Task_done t = true -> ticks k t w = (t, w).
Proof.
  intros Hdone. apply ticks_finished.
  intros w'. apply (run_Task_resume_done t w' Hdone).
Qed.

(** C5. [All(args...)]:
    - if every argument is done at entry, the first resume of [All]
      completes it without resuming anything and without any effect, with
      the tuple of the arguments' results in its completion slot;
    - otherwise each tick of [All] resumes every argument once, the first
      argument first (the program state after [j] ticks is the state after
      [j] rounds, each of which resumes the arguments one after the other in
      argument order); [All] is not done before the first round [n] after
      which every argument is done, and is done then, with the tuple read
      from the arguments as they are after round [n];
    - resuming an argument that is done changes nothing and has no
      effect, so an argument that finished early stays as it was;
    - the tuple holds, in argument order, the result of each argument, a
      value as the argument returned it and [VoidResult] for a [void]
      result. *)
Theorem All_completes_when_all_done pick args w (n : nat) :
  let t0 := All pick args in
  let tuple_of (rs : list (result_type V)) :=
    map (fun r => match r with
                  | ReturnedVoid => VoidResult
                  | Returned v => Kept v
                  end) rs in
  (forallb Task_done args = true ->
     Task_done (fst (run (Task_resume t0) w)) = true /\
     snd (run (Task_resume t0) w) = w /\
     completion_slot (fst (run (Task_resume t0) w))
     = Some (make_tuple pick (map ConvertVoidResult args)) /\
     (forall rs : list (result_type V),
        Forall2 (fun a r => fst (Task_value a) = Ok r) args rs ->
        completion_slot (fst (run (Task_resume t0) w)) = Some (Ok (tuple_of rs)))) /\
  (forallb Task_done args = false ->
   (forall j : nat, (0 < j < n)%nat ->
      forallb Task_done (fst (rounds j args w)) = false) ->
   forallb Task_done (fst (rounds n args w)) = true ->
     (forall j : nat, (j < n)%nat ->
        Task_done (fst (ticks j t0 w)) = false /\
        snd (ticks j t0 w) = snd (rounds j args w)) /\
     Task_done (fst (ticks n t0 w)) = true /\
     snd (ticks n t0 w) = snd (rounds n args w) /\
     completion_slot (fst (ticks n t0 w))
     = Some (make_tuple pick (map ConvertVoidResult (fst (rounds n args w)))) /\
     (forall rs : list (result_type V),
        Forall2 (fun a r => fst (Task_value a) = Ok r) (fst (rounds n args w)) rs ->
        completion_slot (fst (ticks n t0 w)) = Some (Ok (tuple_of rs)))) /\
  (forall a w', Task_done a = true -> run (Task_resume a) w' = (a, w')) /\
  (forall (j k i : nat) a,
     fst (rounds j args w) !! i = Some a -> Task_done a = true ->
     fst (rounds (j + k) args w) !! i = Some a) /\
  (forall args' (rs : list (result_type V)),
     Forall2 (fun a r => fst (Task_value a) = Ok r) args' rs ->
     make_tuple pick (map ConvertVoidResult args') = Ok (tuple_of rs)).
Proof.
  intros t0 tuple_of.
  pose proof (combinator_completes _ _ _ args w n (All_code_waits pick))
    as [Hentry Hlater].
  split; [| split; [| split; [| split]]].
  - intros Hready. destruct (Hentry Hready) as (Hdone & Hworld & Hslot).
    split; [exact Hdone |]. split; [exact Hworld |]. split; [exact Hslot |].
    intros rs Hall. subst tuple_of. cbv beta.
    rewrite <- (ConvertVoidResult_tuple pick args rs Hall). exact Hslot.
  - intros Hnot Hwait Hready.
    destruct (Hlater Hnot Hwait Hready) as (Hbefore & Hdone & Hworld & Hslot).
    split; [exact Hbefore |]. split; [exact Hdone |]. split; [exact Hworld |].
    split; [exact Hslot |].
    intros rs Hall. subst tuple_of. cbv beta.
    rewrite <- (ConvertVoidResult_tuple pick _ rs Hall). exact Hslot.
  - intros a w'. apply run_Task_resume_done.
  - intros j k i a. apply rounds_lookup_done.
  - intros args' rs Hall. apply ConvertVoidResult_tuple. exact Hall.
Qed.

(** C6. [Any(args...)]:
    - if some argument is done at entry, the first resume of [Any]
      completes it without resuming anything;
    - otherwise each tick resumes every argument once, the first argument
      first, and [Any] completes at the first round [n] after which some
      argument is done, not before; the state of the program is then
      exactly what the rounds over the arguments give: [Any] itself makes no
      call on the unfinished arguments or on the backend;
    - when no finished argument has failed, the tuple holds for each
      argument its result (a value as the argument returned it,
      [VoidResult] for a [void] result) if it is done and nothing
      otherwise;
    - when a finished argument has failed, [Any] fails at that same tick
      with the exception of a finished argument;
    - once [Any] is done, further resumes of it do nothing: no argument is
      resumed again and the program state stays as it is. *)
Theorem Any_completes_when_any_done pick args w (n : nat) :
  let t0 := Any pick args in
  let slot_of (a : Task Sub Conc F (result_type V))
              (slot : option (VoidResultTypeReplace V)) :=
    if Task_done a
    then exists r, fst (Task_value a) = Ok r /\
                   slot = Some (match r with
                                | ReturnedVoid => VoidResult
                                | Returned v => Kept v
                                end)
    else slot = None in
  (existsb Task_done args = true ->
     Task_done (fst (run (Task_resume t0) w)) = true /\
     snd (run (Task_resume t0) w) = w /\
     completion_slot (fst (run (Task_resume t0) w))
     = Some (make_tuple pick (map ConvertOptionalVoidResult args)) /\
     (forall slots, Forall2 slot_of args slots ->
        completion_slot (fst (run (Task_resume t0) w)) = Some (Ok slots))) /\
  (existsb Task_done args = false ->
   (forall j : nat, (0 < j < n)%nat ->
      existsb Task_done (fst (rounds j args w)) = false) ->
   existsb Task_done (fst (rounds n args w)) = true ->
     (forall j : nat, (j < n)%nat ->
        Task_done (fst (ticks j t0 w)) = false /\
        snd (ticks j t0 w) = snd (rounds j args w)) /\
     Task_done (fst (ticks n t0 w)) = true /\
     snd (ticks n t0 w) = snd (rounds n args w) /\
     completion_slot (fst (ticks n t0 w))
     = Some (make_tuple pick
               (map ConvertOptionalVoidResult (fst (rounds n args w)))) /\
     (forall slots, Forall2 slot_of (fst (rounds n args w)) slots ->
        completion_slot (fst (ticks n t0 w)) = Some (Ok slots)) /\
     (forall a (e : Exn),
        (forall e0 es, pick (e0 :: es) ∈ e0 :: es) ->
        a ∈ fst (rounds n args w) -> Task_done a = true ->
        fst (Task_value a) = Raise e ->
        exists e' a',
          completion_slot (fst (ticks n t0 w)) = Some (Raise e') /\
          a' ∈ fst (rounds n args w) /\ Task_done a' = true /\
          fst (Task_value a') = Raise e') /\
     (forall k : nat, ticks (n + k) t0 w = ticks n t0 w)) /\
  (forall args' (slots : list (option (VoidResultTypeReplace V))),
     Forall2 slot_of args' slots ->
     make_tuple pick (map ConvertOptionalVoidResult args') = Ok slots) /\
  (forall args' a (e : Exn),
     (forall e0 es, pick (e0 :: es) ∈ e0 :: es) ->
     a ∈ args' -> Task_done a = true -> fst (Task_value a) = Raise e ->
     exists e' a',
       make_tuple pick (map ConvertOptionalVoidResult args') = Raise e' /\
       a' ∈ args' /\ Task_done a' = true /\ fst (Task_value a') = Raise e').
Proof.
  intros t0 slot_of.
  pose proof (combinator_completes _ _ _ args w n (Any_code_waits pick))
    as [Hentry Hlater].
  split; [| split; [| split]].
  - intros Hready. destruct (Hentry Hready) as (Hdone & Hworld & Hslot).
    split; [exact Hdone |]. split; [exact Hworld |]. split; [exact Hslot |].
    intros slots Hall.
    rewrite <- (ConvertOptionalVoidResult_tuple pick args slots Hall). exact Hslot.
  - intros Hnot Hwait Hready.
    destruct (Hlater Hnot Hwait Hready) as (Hbefore & Hdone & Hworld & Hslot).
    split; [exact Hbefore |]. split; [exact Hdone |]. split; [exact Hworld |].
    split; [exact Hslot |]. split; [| split].
    + intros slots Hall.
      rewrite <- (ConvertOptionalVoidResult_tuple pick _ slots Hall). exact Hslot.
    + intros a e Hpick Hin Hd Hfail.
      destruct (ConvertOptionalVoidResult_failure pick _ a e Hpick Hin Hd Hfail)
        as (e' & a' & Htuple & Hin' & Hd' & Hfail').
      exists e', a'. rewrite <- Htuple. auto.
    + intros k. rewrite ticks_add.
      rewrite (ticks_after_done _ _ k Hdone).
      symmetry. apply surjective_pairing.
  - intros args' slots Hall. apply ConvertOptionalVoidResult_tuple. exact Hall.
  - intros args' a e. apply ConvertOptionalVoidResult_failure.
Qed.

End AllAnyFacts.

(** [All(A, B)] with [A] done on tick 1 and [B] on tick 3: not done at ticks
    1 and 2, done at tick 3 with [A]'s result as [A] produced it. *)
Example All_A_B_three_ticks :
  Task_done (fst (ticks 1 All_A_B world_without_backend)) = false /\
  Task_done (fst (ticks 2 All_A_B world_without_backend)) = false /\
  Task_done (fst (ticks 3 All_A_B world_without_backend)) = true /\
  fst (Task_value (fst (ticks 3 All_A_B world_without_backend)))
  = Ok [Kept 1%nat; VoidResult] /\
  trace (snd (ticks 3 All_A_B world_without_backend))
  = [Emitted "A1"; Emitted "B1"; Emitted "B2"; Emitted "B3"].
Proof. vm_compute. repeat split. Qed.

(** [Any(A', B)] with [A'] failing on tick 2: the failure is [Any]'s outcome
    at tick 2; [B] was resumed in that tick too and is left unfinished. *)
Example Any_A_failing_B_two_ticks :
  Task_done (fst (ticks 1 Any_A_failing_B world_without_backend)) = false /\
  Task_done (fst (ticks 2 Any_A_failing_B world_without_backend)) = true /\
  fst (Task_value (fst (ticks 2 Any_A_failing_B world_without_backend)))
  = Raise (UserException 9) /\
  trace (snd (ticks 2 Any_A_failing_B world_without_backend))
  = [Emitted "A1"; Emitted "B1"; Emitted "A2"; Emitted "B2"].
Proof. vm_compute. repeat split. Qed.

(** [Any(A, B)] with [A] done on tick 1: the slot of [B] is empty. *)
Example Any_A_B_first_tick :
  fst (Task_value (fst (ticks 1 (Any leftmost [task_A; task_B])
                              world_without_backend)))
  = Ok [Some (Kept 1%nat); None].
Proof. vm_compute. reflexivity. Qed.

(** ** [OrderedExecutor] *)

Section KeyOrder.

Lemma CallerKey_lt_spec (a b : CallerKey) :
  CallerKey_lt a b = true <->
  (sortingOrder a < sortingOrder b)%Z \/
  (sortingOrder a = sortingOrder b /\ key_id a < key_id b).
Proof.
  unfold CallerKey_lt.
  destruct (Z.eqb_spec (sortingOrder a) (sortingOrder b)) as [Heq | Hne]; simpl.
  - rewrite N.ltb_lt. split; [auto | intros [H | [_ H]]; [lia | exact H]].
  - rewrite Z.ltb_lt. split; [auto | intros [H | [H _]]; [exact H | contradiction]].
Qed.

Lemma CallerKey_lt_false (a b : CallerKey) :
  CallerKey_lt a b = false <-> ~ key_lt a b.
Proof. unfold key_lt. destruct (CallerKey_lt a b); split; congruence. Qed.

Lemma key_lt_irrefl (a : CallerKey) : ~ key_lt a a.
Proof. unfold key_lt. rewrite CallerKey_lt_spec. lia. Qed.

Lemma key_lt_trans (a b c : CallerKey) : key_lt a b -> key_lt b c -> key_lt a c.
Proof. unfold key_lt. rewrite !CallerKey_lt_spec. lia. Qed.

Lemma key_lt_asym (a b : CallerKey) : key_lt a b -> ~ key_lt b a.
Proof. unfold key_lt. rewrite !CallerKey_lt_spec. lia. Qed.

Lemma key_trichotomy (a b : CallerKey) : ~ key_lt a b -> ~ key_lt b a -> a = b.
Proof.
  unfold key_lt. rewrite !CallerKey_lt_spec. intros Hab Hba.
  destruct a as [ia oa], b as [ib ob]; simpl in *.
  assert (oa = ob) by lia. assert (ia = ib) by lia. congruence.
Qed.

Lemma key_lt_same_id (a b : CallerKey) :
  key_id a = key_id b -> a <> b -> sortingOrder a <> sortingOrder b.
Proof. destruct a, b; simpl; intros -> Hne Heq; subst; contradiction. Qed.

End KeyOrder.

Section CallerMapFacts.
Context {Env : Type}.
Implicit Types (m : CallerMap Env) (key k : CallerKey) (c : Caller Env).

Lemma callers_sorted_inv k c m :
  callers_sorted ((k, c) :: m) ->
  callers_sorted m /\ forall x, In x m -> key_lt k (fst x).
Proof.
  intros Hs. apply StronglySorted_inv in Hs as [Hm Hk].
  split; [exact Hm |]. rewrite Forall_forall in Hk.
  intros x Hx. apply Hk. apply list_elem_of_In. exact Hx.
Qed.

Lemma callers_sorted_cons k c m :
  callers_sorted m -> (forall x, In x m -> key_lt k (fst x)) ->
  callers_sorted ((k, c) :: m).
Proof.
  intros Hm Hk. constructor; [exact Hm |].
  apply Forall_forall. intros x Hx. apply Hk. apply list_elem_of_In. exact Hx.
Qed.

Lemma callers_find_in key c m :
  callers_sorted m -> In (key, c) m -> callers_find key m = Some c.
Proof.
  induction m as [| [k c'] m IH]; intros Hs Hin; [destruct Hin |].
  apply callers_sorted_inv in Hs as [Hm Hk]. simpl.
  destruct Hin as [[= -> ->] | Hin].
  - destruct (CallerKey_lt key key) eqn:Hlt; [| reflexivity].
    exfalso. exact (key_lt_irrefl key Hlt).
  - pose proof (Hk _ Hin) as Hlt. simpl in Hlt. unfold key_lt in Hlt.
    rewrite Hlt. simpl. apply IH; assumption.
Qed.

Lemma callers_sorted_unique key c c' m :
  callers_sorted m -> In (key, c) m -> In (key, c') m -> c = c'.
Proof.
  intros Hs H1 H2.
  pose proof (callers_find_in key c m Hs H1) as E1.
  pose proof (callers_find_in key c' m Hs H2) as E2.
  congruence.
Qed.

Lemma callers_erase_in key c m :
  callers_sorted m -> In (key, c) m ->
  Permutation ((key, c) :: callers_erase key m) m /\
  callers_sorted (callers_erase key m).
Proof.
  induction m as [| [k c'] m IH]; intros Hs Hin; [destruct Hin |].
  pose proof Hs as Hs'. apply callers_sorted_inv in Hs' as [Hm Hk]. simpl.
  destruct Hin as [[= -> ->] | Hin].
  - destruct (CallerKey_lt key key) eqn:Hlt;
      [exfalso; exact (key_lt_irrefl key Hlt) |].
    simpl. split; [reflexivity | exact Hm].
  - pose proof (Hk _ Hin) as Hlt. simpl in Hlt. unfold key_lt in Hlt.
    rewrite Hlt. simpl.
    destruct (IH Hm Hin) as [Hperm Hsorted].
    split.
    + rewrite perm_swap. apply perm_skip. exact Hperm.
    + apply callers_sorted_cons; [exact Hsorted |].
      intros x Hx. apply Hk.
      apply (Permutation_in _ Hperm). right. exact Hx.
Qed.

Lemma callers_insert_fresh key c m :
  callers_sorted m -> (forall c', ~ In (key, c') m) ->
  exists m',
    callers_insert key c m = (m', true) /\
    Permutation m' ((key, c) :: m) /\
    callers_sorted m'.
Proof.
  induction m as [| [k c'] m IH]; intros Hs Hfresh; simpl.
  - exists [(key, c)]. repeat split; [reflexivity |].
    apply callers_sorted_cons; [constructor | intros x []].
  - pose proof Hs as Hs'. apply callers_sorted_inv in Hs' as [Hm Hk].
    destruct (CallerKey_lt key k) eqn:Hlt.
    + exists ((key, c) :: (k, c') :: m). repeat split; [reflexivity |].
      apply callers_sorted_cons; [exact Hs |].
      intros x [<- | Hx]; [exact Hlt |].
      apply (key_lt_trans key k); [exact Hlt | apply Hk; exact Hx].
    + destruct (CallerKey_lt k key) eqn:Hgt.
      * destruct (IH Hm) as (m' & Hins & Hperm & Hsorted).
        { intros c0 Hin. apply (Hfresh c0). right. exact Hin. }
        rewrite Hins. exists ((k, c') :: m'). repeat split.
        -- rewrite Hperm. apply perm_swap.
        -- apply callers_sorted_cons; [exact Hsorted |].
           intros x Hx. apply (Permutation_in _ Hperm) in Hx.
           destruct Hx as [<- | Hx]; [exact Hgt | apply Hk; exact Hx].
      * exfalso. apply (Hfresh c'). left.
        apply CallerKey_lt_false in Hlt, Hgt.
        rewrite (key_trichotomy key k Hlt Hgt). reflexivity.
Qed.

(** Once a callback has thrown, none of the following ones is invoked. *)
Lemma invoke_next_thrown (cs : list (Caller Env)) (e : Exn) (env : Env) :
  fold_left invoke_next cs (Some e, env) = (Some e, env).
Proof. induction cs as [| c cs IH]; simpl; [reflexivity | exact IH]. Qed.

(** The loop of [call] invokes the callbacks in map order, each from the
    state the one before it has left, up to the first one that throws. *)
Lemma call_all_invoke m (env : Env) :
  call_all m env = fold_left invoke_next (map snd m) (None, env).
Proof.
  revert env. induction m as [| [k c] m IH]; intros env; simpl; [reflexivity |].
  unfold invoke_next at 2. simpl.
  destruct (func c env) as [[e |] env'].
  - rewrite invoke_next_thrown. reflexivity.
  - apply IH.
Qed.

(** When no callback throws, all of them are invoked. *)
Lemma invoke_all (cs : list (Caller Env)) (env : Env) :
  (forall c e, In c cs -> fst (func c e) = None) ->
  fold_left invoke_next cs (None, env)
  = (None, fold_left (fun e c => snd (func c e)) cs env).
Proof.
  revert env. induction cs as [| c cs IH]; intros env Hquiet; simpl; [reflexivity |].
  unfold invoke_next at 2. simpl.
  pose proof (Hquiet c env (or_introl eq_refl)) as Hc.
  destruct (func c env) as [thrown env']. simpl in Hc. subst thrown. simpl.
  apply IH. intros c' e Hin. apply Hquiet. right. exact Hin.
Qed.

End CallerMapFacts.

Section ExecutorFacts.
Context {Env : Type}.
Implicit Types (m : CallerMap Env) (key k : CallerKey) (c : Caller Env).
Implicit Types (ex : OrderedExecutor Env) (env : Env).

Lemma ids_registered m :
  map fst (registered m) = map (fun x => key_id (fst x)) m.
Proof. unfold registered. rewrite map_map. reflexivity. Qed.

Lemma tempNewSortingOrders_in env m k (n : Z) :
  In (k, n) (tempNewSortingOrders env m) ->
  exists c, In (k, c) m /\ n = sortingOrderFunc c env.
Proof.
  unfold tempNewSortingOrders. rewrite in_flat_map.
  intros ([k' c] & Hin & Hx).
  destruct (negb (sortingOrderFunc c env =? sortingOrder k')%Z); [| destruct Hx].
  destruct Hx as [[= <- <-] | []]. exists c. split; [exact Hin | reflexivity].
Qed.

Lemma tempNewSortingOrders_complete env m k c :
  In (k, c) m ->
  (forall n : Z, ~ In (k, n) (tempNewSortingOrders env m)) ->
  sortingOrder k = sortingOrderFunc c env.
Proof.
  intros Hin Hnone.
  destruct (Z.eqb_spec (sortingOrderFunc c env) (sortingOrder k)) as [Heq | Hne];
    [congruence |].
  exfalso. apply (Hnone (sortingOrderFunc c env)).
  unfold tempNewSortingOrders. apply in_flat_map.
  exists (k, c). split; [exact Hin |].
  destruct (Z.eqb_spec (sortingOrderFunc c env) (sortingOrder k));
    [contradiction | left; reflexivity].
Qed.

Lemma tempNewSortingOrders_NoDup env m :
  NoDup (map (fun x => key_id (fst x)) m) ->
  NoDup (map (fun x : CallerKey * Z => key_id (fst x)) (tempNewSortingOrders env m)).
Proof.
  induction m as [| [k c] m IH]; simpl; intros Hnd; [constructor |].
  apply NoDup_cons in Hnd as [Hnotin Hnd].
  destruct (negb (sortingOrderFunc c env =? sortingOrder k)%Z); simpl;
    [| apply IH; exact Hnd].
  apply NoDup_cons. split; [| apply IH; exact Hnd].
  intros Hin. apply Hnotin.
  apply list_elem_of_In in Hin. apply in_map_iff in Hin as ([k' n] & Hid & Hin).
  apply tempNewSortingOrders_in in Hin as (c' & Hin & _).
  apply list_elem_of_In. apply in_map_iff.
  exists (k', c'). split; [exact Hid | exact Hin].
Qed.

(** The second loop of [refreshSortingOrder] never throws on a well-formed
    executor; it keeps the executor well formed and the registered
    callers, and gives every entry it treats its new priority. *)
Lemma reinsert_spec env (changes : list (CallerKey * Z)) :
  forall ex,
    executor_wf ex ->
    NoDup (map (fun x : CallerKey * Z => key_id (fst x)) changes) ->
    (forall k (n : Z), In (k, n) changes ->
       exists c, In (k, c) (m_callers ex) /\ n = sortingOrderFunc c env) ->
    exists ex',
      reinsert changes ex = (None, ex') /\
      executor_wf ex' /\
      Permutation (registered (m_callers ex')) (registered (m_callers ex)) /\
      m_nextID ex' = m_nextID ex /\
      (forall k c, In (k, c) (m_callers ex') ->
         sortingOrder k = sortingOrderFunc c env \/
         (In (k, c) (m_callers ex) /\ forall n : Z, ~ In (k, n) changes)).
Proof.
  induction changes as [| [k0 n0] changes IH];
    intros ex (Hsorted & Hnodup & Hby & Hid) Hnd Hch.
  - exists ex. simpl. repeat split; auto.
  - destruct (Hch k0 n0 (or_introl eq_refl)) as (c0 & Hin0 & Hn0).
    simpl. rewrite (callers_find_in k0 c0 _ Hsorted Hin0).
    destruct (callers_erase_in k0 c0 _ Hsorted Hin0) as [Hperm Hsorted1].
    set (erased := callers_erase k0 (m_callers ex)) in *.
    set (newKey := {| key_id := key_id k0; sortingOrder := n0 |}).
    assert (Hids : Permutation (key_id k0 :: map (fun x => key_id (fst x)) erased)
                               (map (fun x => key_id (fst x)) (m_callers ex))).
    { apply (Permutation_map (fun x => key_id (fst x))) in Hperm. exact Hperm. }
    assert (Hnd1 : NoDup (key_id k0 :: map (fun x => key_id (fst x)) erased)).
    { apply NoDup_ListNoDup. apply (Permutation_NoDup (Permutation_sym Hids)).
      apply NoDup_ListNoDup. exact Hnodup. }
    apply NoDup_cons in Hnd1 as [Hk0 Hnd1].
    assert (Hfresh : forall c', ~ In (newKey, c') erased).
    { intros c' Hin. apply Hk0. apply list_elem_of_In. apply in_map_iff.
      exists (newKey, c'). split; [reflexivity | exact Hin]. }
    destruct (callers_insert_fresh newKey c0 erased Hsorted1 Hfresh)
      as (m' & Hins & Hperm' & Hsorted').
    rewrite Hins. simpl negb. cbv iota.
    apply NoDup_cons in Hnd as [Hk0' Hnd'].
    edestruct (IH {| m_nextID := m_nextID ex; m_callers := m';
                     m_callerKeyByID := <[key_id k0 := newKey]> (m_callerKeyByID ex) |})
      as (ex' & Hre & Hwf' & Hreg' & Hnext' & Hprio').
    + repeat split; simpl.
      * exact Hsorted'.
      * apply NoDup_ListNoDup.
        apply (Permutation_NoDup
                 (l := key_id k0 :: map (fun x => key_id (fst x)) erased)).
        -- apply Permutation_sym.
           apply (Permutation_map (fun x => key_id (fst x))) in Hperm'. exact Hperm'.
        -- apply NoDup_ListNoDup. apply NoDup_cons. split; assumption.
      * intros k c Hin. apply (Permutation_in _ Hperm') in Hin.
        destruct Hin as [[= <- <-] | Hin].
        -- simpl. apply lookup_insert_eq.
        -- rewrite lookup_insert_ne.
           ++ apply (Hby k c). apply (Permutation_in _ Hperm). right. exact Hin.
           ++ intros Heq. apply Hk0. apply list_elem_of_In. apply in_map_iff.
              exists (k, c). split; [symmetry; exact Heq | exact Hin].
      * intros id k Hlook. destruct (decide (key_id k0 = id)) as [<- | Hne].
        -- rewrite lookup_insert_eq in Hlook. injection Hlook as <-. reflexivity.
        -- rewrite lookup_insert_ne in Hlook by exact Hne. apply (Hid id k Hlook).
    + exact Hnd'.
    + intros k n Hin. destruct (Hch k n (or_intror Hin)) as (c & Hc & Hn).
      exists c. split; [| exact Hn]. simpl.
      apply (Permutation_in _ (Permutation_sym Hperm')). right.
      apply (Permutation_in _ (Permutation_sym Hperm)) in Hc.
      destruct Hc as [[= -> ->] | Hc]; [| exact Hc].
      exfalso. apply Hk0'. apply list_elem_of_In. apply in_map_iff.
      exists (k, n). split; [reflexivity | exact Hin].
    + exists ex'. simpl in Hreg', Hnext', Hprio'.
      split; [exact Hre |]. split; [exact Hwf' |]. split; [| split; [exact Hnext' |]].
      * rewrite Hreg'. unfold registered.
        rewrite (Permutation_map _ Hperm'). simpl.
        rewrite <- (Permutation_map (fun x => (key_id (fst x), snd x)) Hperm).
        reflexivity.
      * intros k c Hin. destruct (Hprio' k c Hin) as [Hp | [Hin' Hnone]];
          [left; exact Hp |].
        apply (Permutation_in _ Hperm') in Hin'.
        destruct Hin' as [[= <- <-] | Hin'].
        -- left. simpl. exact Hn0.
        -- right. split.
           ++ apply (Permutation_in _ Hperm). right. exact Hin'.
           ++ intros n [[= -> ->] | Hn]; [| exact (Hnone n Hn)].
              apply Hk0. apply list_elem_of_In. apply in_map_iff.
              exists (k, c). split; [reflexivity | exact Hin'].
Qed.

Lemma refreshSortingOrder_spec ex env :
  executor_wf ex ->
  exists ex',
    refreshSortingOrder ex env = (None, ex') /\
    executor_wf ex' /\
    Permutation (registered (m_callers ex')) (registered (m_callers ex)) /\
    m_nextID ex' = m_nextID ex /\
    (forall k c, In (k, c) (m_callers ex') ->
       sortingOrder k = sortingOrderFunc c env).
Proof.
  intros Hwf. pose proof Hwf as (Hsorted & Hnodup & Hby & Hid).
  destruct (reinsert_spec env (tempNewSortingOrders env (m_callers ex)) ex Hwf)
    as (ex' & Hre & Hwf' & Hreg & Hnext & Hprio).
  - apply tempNewSortingOrders_NoDup. exact Hnodup.
  - intros k n Hin. apply tempNewSortingOrders_in. exact Hin.
  - exists ex'. unfold refreshSortingOrder.
    split; [exact Hre |]. split; [exact Hwf' |]. split; [exact Hreg |].
    split; [exact Hnext |].
    intros k c Hin. destruct (Hprio k c Hin) as [Hp | [Hin' Hnone]];
      [exact Hp |].
    apply (tempNewSortingOrders_complete env _ k c Hin' Hnone).
Qed.

Lemma callers_sorted_plain m :
  callers_sorted m ->
  StronglySorted
    (fun a b => (sortingOrder a < sortingOrder b)%Z \/
                (sortingOrder a = sortingOrder b /\ key_id a < key_id b))
    (map fst m).
Proof.
  intros Hs.
  apply (StronglySorted_fmap fst (fun x y => key_lt (fst x) (fst y))); [| exact Hs].
  intros x y Hlt. apply CallerKey_lt_spec. exact Hlt.
Qed.

(** C7 (amended). One [call()] on a well-formed executor, from the program
    state [env].  The re-keying throws no error; every registered callback is
    still registered afterwards, under the key made of its identifier and
    of its priority as read in [env]; the map is then in strictly ascending
    order of (priority in [env], identifier): smaller priority first, and
    for equal priorities smaller identifier first.  The callbacks are then
    invoked in the order of the map, each one from the program state the
    one before it has left, up to the first one that throws, whose
    exception leaves [call]; when no callback throws every callback is
    invoked, once.  The order of this cycle depends on [env] alone, not on
    what the callbacks do to the state while the cycle runs. *)
Theorem call_runs_in_priority_order ex env :
  executor_wf ex ->
  let ex' := snd (refreshSortingOrder ex env) in
  let invoked := fold_left invoke_next (map snd (m_callers ex')) (None, env) in
  fst (refreshSortingOrder ex env) = None /\
  call ex env = (fst invoked, ex', snd invoked) /\
  executor_wf ex' /\
  Permutation (registered (m_callers ex')) (registered (m_callers ex)) /\
  (forall k c, In (k, c) (m_callers ex') ->
     sortingOrder k = sortingOrderFunc c env) /\
  StronglySorted
    (fun a b => (sortingOrder a < sortingOrder b)%Z \/
                (sortingOrder a = sortingOrder b /\ key_id a < key_id b))
    (map fst (m_callers ex')) /\
  ((forall (id : IDType) c e,
      In (id, c) (registered (m_callers ex)) -> fst (func c e) = None) ->
   invoked
   = (None, fold_left (fun e c => snd (func c e)) (map snd (m_callers ex')) env)).
Proof.
  intros Hwf ex' invoked.
  destruct (refreshSortingOrder_spec ex env Hwf)
    as (ex1 & Hre & Hwf' & Hreg & _ & Hprio).
  assert (Hex : ex' = ex1) by (subst ex'; rewrite Hre; reflexivity).
  subst ex1.
  split; [rewrite Hre; reflexivity |].
  split.
  { unfold call. rewrite Hre. rewrite call_all_invoke. fold invoked.
    destruct invoked as [thrown env']. reflexivity. }
  split; [exact Hwf' |]. split; [exact Hreg |].
  split; [exact Hprio |].
  split; [apply callers_sorted_plain; apply Hwf' |].
  intros Hquiet. subst invoked. apply invoke_all.
  intros c e Hin. apply in_map_iff in Hin as ([k c'] & Hc & Hin).
  simpl in Hc. subst c'.
  apply (Hquiet (key_id k) c e).
  apply (Permutation_in _ Hreg). unfold registered. apply in_map_iff.
  exists (k, c). split; [reflexivity | exact Hin].
Qed.

(** *** Executors built with [add] are well formed *)

Lemma OrderedExecutor_new_wf : executor_wf (OrderedExecutor_new (Env:=Env)).
Proof.
  repeat split; simpl; [constructor | constructor | intros k c [] |].
  intros id k Hlook. rewrite lookup_empty in Hlook. discriminate.
Qed.

Lemma callers_insert_true key c m m' :
  callers_sorted m ->
  callers_insert key c m = (m', true) ->
  Permutation m' ((key, c) :: m) /\ callers_sorted m'.
Proof.
  revert m'. induction m as [| [k c'] m IH]; intros m' Hs Hins; simpl in Hins.
  - injection Hins as <-. split; [reflexivity |].
    apply callers_sorted_cons; [constructor | intros x []].
  - pose proof Hs as Hs'. apply callers_sorted_inv in Hs' as [Hm Hk].
    destruct (CallerKey_lt key k) eqn:Hlt.
    + injection Hins as <-. split; [reflexivity |].
      apply callers_sorted_cons; [exact Hs |].
      intros x [<- | Hx]; [exact Hlt |].
      apply (key_lt_trans key k); [exact Hlt | apply Hk; exact Hx].
    + destruct (CallerKey_lt k key) eqn:Hgt; [| discriminate].
      destruct (callers_insert key c m) as [rest' inserted] eqn:Hrec.
      injection Hins as <- ->.
      destruct (IH rest' Hm eq_refl) as [Hperm Hsorted].
      split.
      * rewrite Hperm. apply perm_swap.
      * apply callers_sorted_cons; [exact Hsorted |].
        intros x Hx. apply (Permutation_in _ Hperm) in Hx.
        destruct Hx as [<- | Hx]; [exact Hgt | apply Hk; exact Hx].
Qed.

Lemma add_wf (f : Env -> option Exn * Env) (orderFunc : Env -> Z) ex env (id : IDType) ex' :
  executor_wf ex ->
  add f orderFunc ex env = (Ok id, ex') ->
  executor_wf ex' /\
  id = m_nextID ex /\
  Permutation (registered (m_callers ex'))
              ((id, {| func := f; sortingOrderFunc := orderFunc |})
                 :: registered (m_callers ex)).
Proof.
  intros (Hsorted & Hnodup & Hby & Hfiled) Hadd. unfold add in Hadd.
  destruct (callers_insert _ _ (m_callers ex)) as [m' inserted] eqn:Hins.
  destruct inserted; simpl in Hadd; [| discriminate].
  destruct (m_callerKeyByID ex !! m_nextID ex) as [known |] eqn:Hknown;
    [discriminate |].
  injection Hadd as <- <-.
  destruct (callers_insert_true _ _ _ _ Hsorted Hins) as [Hperm Hsorted'].
  assert (Hfresh : ~ In (m_nextID ex) (map (fun x => key_id (fst x)) (m_callers ex))).
  { intros Hin. apply in_map_iff in Hin as ([k c] & Hid & Hin). simpl in Hid.
    pose proof (Hby k c Hin) as Hk. rewrite Hid in Hk. congruence. }
  split; [| split; [reflexivity |]].
  - repeat split; simpl.
    + exact Hsorted'.
    + apply NoDup_ListNoDup.
      apply (Permutation_NoDup
               (l := m_nextID ex :: map (fun x => key_id (fst x)) (m_callers ex))).
      * apply Permutation_sym.
        apply (Permutation_map (fun x => key_id (fst x))) in Hperm. exact Hperm.
      * constructor; [exact Hfresh | apply NoDup_ListNoDup; exact Hnodup].
    + intros k c Hin. apply (Permutation_in _ Hperm) in Hin.
      destruct Hin as [[= <- <-] | Hin].
      * simpl. apply lookup_insert_eq.
      * rewrite lookup_insert_ne; [apply (Hby k c Hin) |].
        intros Heq. apply Hfresh. apply in_map_iff.
        exists (k, c). split; [symmetry; exact Heq | exact Hin].
    + intros id k Hlook. destruct (decide (m_nextID ex = id)) as [<- | Hne].
      * rewrite lookup_insert_eq in Hlook. injection Hlook as <-. reflexivity.
      * rewrite lookup_insert_ne in Hlook by exact Hne. apply (Hfiled id k Hlook).
  - simpl. unfold registered. rewrite (Permutation_map _ Hperm). reflexivity.
Qed.

Lemma add_Ok_wf (f : Env -> option Exn * Env) (orderFunc : Env -> Z) ex env
    (id : IDType) :
  executor_wf ex -> fst (add f orderFunc ex env) = Ok id ->
  executor_wf (snd (add f orderFunc ex env)).
Proof.
  intros Hwf Hid.
  destruct (add f orderFunc ex env) as [r ex'] eqn:Hadd. simpl in *. subst r.
  exact (proj1 (add_wf f orderFunc ex env id ex' Hwf Hadd)).
Qed.

Lemma callers_find_Some key c m : callers_find key m = Some c -> In (key, c) m.
Proof.
  induction m as [| [k c'] m IH]; simpl; [discriminate |].
  destruct (CallerKey_lt k key) eqn:Hlt; simpl; [intros Hf; right; auto |].
  destruct (CallerKey_lt key k) eqn:Hgt; simpl; [intros Hf; right; auto |].
  intros [= ->]. left.
  apply CallerKey_lt_false in Hlt, Hgt.
  rewrite (key_trichotomy key k Hgt Hlt). reflexivity.
Qed.

Lemma remove_wf (id : IDType) ex :
  executor_wf ex -> executor_wf (snd (remove id ex)).
Proof.
  intros Hwf. pose proof Hwf as (Hsorted & Hnodup & Hby & Hid).
  unfold remove, findByID.
  destruct (m_callerKeyByID ex !! id) as [key |] eqn:Hlook; [| exact Hwf].
  destruct (callers_find key (m_callers ex)) as [c |] eqn:Hfind; [| exact Hwf].
  apply callers_find_Some in Hfind.
  destruct (callers_erase_in key c _ Hsorted Hfind) as [Hperm Hsorted'].
  pose proof (Hid id key Hlook) as Hkey.
  assert (Hnd : NoDup (key_id key :: map (fun x => key_id (fst x))
                                         (callers_erase key (m_callers ex)))).
  { apply NoDup_ListNoDup.
    apply (Permutation_NoDup (l := map (fun x => key_id (fst x)) (m_callers ex))).
    - apply Permutation_sym.
      apply (Permutation_map (fun x => key_id (fst x))) in Hperm. exact Hperm.
    - apply NoDup_ListNoDup. exact Hnodup. }
  apply NoDup_cons in Hnd as [Hnotin Hnd].
  simpl. repeat split; simpl.
  - exact Hsorted'.
  - exact Hnd.
  - intros k c' Hin. rewrite lookup_delete_ne.
    + apply (Hby k c'). apply (Permutation_in _ Hperm). right. exact Hin.
    + intros Heq. apply Hnotin. apply list_elem_of_In. apply in_map_iff.
      exists (k, c'). split; [simpl; congruence | exact Hin].
  - intros id' k Hlook'. destruct (decide (id = id')) as [<- | Hne].
    + rewrite lookup_delete_eq in Hlook'. discriminate.
    + rewrite lookup_delete_ne in Hlook' by exact Hne. apply (Hid id' k Hlook').
Qed.

End ExecutorFacts.

Lemma executor_10_5_5_wf : executor_wf executor_10_5_5.
Proof.
  unfold executor_10_5_5.
  destruct (add (fun env : Z => (None, env)) (fun env : Z => env)
                OrderedExecutor_new 10%Z)
    as [[id1 | e1] ex1] eqn:E1; [| discriminate E1].
  destruct (add_wf _ _ _ _ _ _ OrderedExecutor_new_wf E1) as (Hwf1 & _ & _).
  simpl snd.
  destruct (add (fun _ : Z => (None, 1%Z)) (fun _ : Z => 5%Z) ex1 10%Z)
    as [[id2 | e2] ex2] eqn:E2.
  - destruct (add_wf _ _ _ _ _ _ Hwf1 E2) as (Hwf2 & _ & _). simpl snd.
    destruct (add (fun env : Z => (None, env)) (fun _ : Z => 5%Z) ex2 10%Z)
      as [[id3 | e3] ex3] eqn:E3.
    + destruct (add_wf _ _ _ _ _ _ Hwf2 E3) as (Hwf3 & _ & _). exact Hwf3.
    + exfalso. injection E1 as <- <-. vm_compute in E2. injection E2 as <- <-.
      vm_compute in E3. discriminate E3.
  - exfalso. injection E1 as <- <-. vm_compute in E2. discriminate E2.
Defined.

Lemma executor_with_journal_wf : executor_wf executor_with_journal.
Proof.
  unfold executor_with_journal.
  apply (add_Ok_wf _ _ _ _ 3); [| vm_compute; reflexivity].
  apply (add_Ok_wf _ _ _ _ 2); [| vm_compute; reflexivity].
  apply (add_Ok_wf _ _ _ _ 1); [| vm_compute; reflexivity].
  apply OrderedExecutor_new_wf.
Defined.

(** Priorities 10, 5, 5 registered in that order: the first cycle invokes
    the two callbacks of priority 5 in registration order, then the one of
    priority 10, although the second callback lowers that priority to 1
    while the cycle runs; the next cycle invokes it first. *)
Example executor_with_journal_two_cycles :
  let '(thrown1, ex1, env1) := call executor_with_journal (10%Z, []) in
  let '(thrown2, ex2, env2) := call ex1 (fst env1, []) in
  thrown1 = None /\
  env1 = (1%Z, ["second"; "third"; "first"]%string) /\
  map fst (m_callers ex1)
  = [ {| key_id := 2; sortingOrder := 5 |};
      {| key_id := 3; sortingOrder := 5 |};
      {| key_id := 1; sortingOrder := 10 |} ] /\
  thrown2 = None /\
  env2 = (1%Z, ["first"; "second"; "third"]%string).
Proof. vm_compute. repeat split. Qed.

Lemma executor_with_failing_callback_wf : executor_wf executor_with_failing_callback.
Proof.
  unfold executor_with_failing_callback.
  apply (add_Ok_wf _ _ _ _ 3); [| vm_compute; reflexivity].
  apply (add_Ok_wf _ _ _ _ 2); [| vm_compute; reflexivity].
  apply (add_Ok_wf _ _ _ _ 1); [| vm_compute; reflexivity].
  apply OrderedExecutor_new_wf.
Defined.

(** C7, as stated, fails: of three registered callbacks, the one invoked
    first throws; its exception leaves [call()], and the two callbacks that
    come after it in (priority, identifier) order are not invoked in that
    cycle. *)
Lemma call_stops_at_throwing_callback_counterexample :
  map (fun x => key_id (fst x))
      (m_callers (snd (fst (call executor_with_failing_callback (10%Z, [])))))
  = [2; 3; 1] /\
  fst (fst (call executor_with_failing_callback (10%Z, []))) = Some (UserException 8) /\
  snd (call executor_with_failing_callback (10%Z, [])) = (10%Z, ["second"%string]).
Proof. vm_compute. repeat split. Qed.

(** Through the theorem: the first cycle of [executor_with_journal], in
    which no callback throws, and the cycle of
    [executor_with_failing_callback], which ends at its first callback. *)
Lemma call_runs_in_priority_order_witness :
  (fst (fst (call executor_with_journal (10%Z, []))) = None /\
   snd (call executor_with_journal (10%Z, []))
   = (1%Z, ["second"; "third"; "first"]%string) /\
   map fst (m_callers (snd (fst (call executor_with_journal (10%Z, [])))))
   = [ {| key_id := 2; sortingOrder := 5 |};
       {| key_id := 3; sortingOrder := 5 |};
       {| key_id := 1; sortingOrder := 10 |} ]) /\
  (fst (fst (call executor_with_failing_callback (10%Z, [])))
   = Some (UserException 8) /\
   snd (call executor_with_failing_callback (10%Z, [])) = (10%Z, ["second"%string])).
Proof.
  split.
  - destruct (call_runs_in_priority_order executor_with_journal (10%Z, [])
                executor_with_journal_wf) as (_ & Hcall & _).
    rewrite Hcall. cbn [fst snd].
    split; [| split]; vm_compute; reflexivity.
  - destruct (call_runs_in_priority_order executor_with_failing_callback (10%Z, [])
                executor_with_failing_callback_wf) as (_ & Hcall & _).
    rewrite Hcall. cbn [fst snd].
    split; vm_compute; reflexivity.
Defined.

(** [All(A, B)], three ticks, through the theorem. *)
Lemma All_completes_when_all_done_witness :
  Task_done (fst (ticks 3 All_A_B world_without_backend)) = true /\
  trace (snd (ticks 3 All_A_B world_without_backend))
  = [Emitted "A1"; Emitted "B1"; Emitted "B2"; Emitted "B3"] /\
  completion_slot (fst (ticks 3 All_A_B world_without_backend))
  = Some (Ok [Kept 1%nat; VoidResult]).
Proof.
  destruct (All_completes_when_all_done
              leftmost [task_A; task_B] world_without_backend 3)
    as (_ & Hlater & _).
  destruct Hlater as (_ & Hdone & Hworld & _ & Htuple).
  - reflexivity.
  - intros j Hj. destruct j as [| [| [| j]]]; try lia; reflexivity.
  - reflexivity.
  - split; [exact Hdone |]. split.
    + unfold All_A_B. rewrite Hworld. reflexivity.
    + refine (Htuple [Returned 1%nat; ReturnedVoid] _).
      match goal with
      | |- Forall2 ?P ?l ?l' =>
          let l1 := eval vm_compute in l in change (Forall2 P l1 l')
      end.
      constructor; [reflexivity |]. constructor; [reflexivity |]. constructor.
Defined.

(** [Any(A, B)], one tick, through the theorem: [A] is done after the first
    round, [B] is not; [B] was resumed once, after [A]. *)
Lemma Any_completes_when_any_done_witness :
  Task_done (fst (ticks 1 (Any leftmost [task_A; task_B]) world_without_backend))
  = true /\
  trace (snd (ticks 1 (Any leftmost [task_A; task_B]) world_without_backend))
  = [Emitted "A1"; Emitted "B1"] /\
  completion_slot (fst (ticks 1 (Any leftmost [task_A; task_B])
                              world_without_backend))
  = Some (Ok [Some (Kept 1%nat); None]) /\
  ticks (1 + 4) (Any leftmost [task_A; task_B]) world_without_backend
  = ticks 1 (Any leftmost [task_A; task_B]) world_without_backend.
Proof.
  destruct (Any_completes_when_any_done
              leftmost [task_A; task_B] world_without_backend 1)
    as (_ & Hlater & _).
  destruct Hlater as (_ & Hdone & Hworld & _ & Hslots & _ & Hafter).
  - reflexivity.
  - intros j Hj. lia.
  - reflexivity.
  - split; [exact Hdone |]. split; [| split].
    + rewrite Hworld. reflexivity.
    + refine (Hslots [Some (Kept 1%nat); None] _).
      match goal with
      | |- Forall2 ?P ?l ?l' =>
          let l1 := eval vm_compute in l in change (Forall2 P l1 l')
      end.
      constructor; [exists (Returned 1%nat); split; reflexivity |].
      constructor; [reflexivity |]. constructor.
    + exact (Hafter 4%nat).
Defined.

(** * More of Core.hpp *)

(** ** [OrderedExecutor]: the key order, [add], [remove], [hasSortingOrder] *)

(** X1. [CallerKey::operator<] is a strict total order: no key is below
    itself, the relation is transitive and asymmetric, and two keys of
    which neither is below the other are the same key (same identifier and
    same priority).  So the keys that [std::map] treats as equivalent are
    exactly the equal ones. *)
Theorem CallerKey_lt_strict_total_order :
  (forall a : CallerKey, CallerKey_lt a a = false) /\
  (forall a b c : CallerKey,
     CallerKey_lt a b = true -> CallerKey_lt b c = true -> CallerKey_lt a c = true) /\
  (forall a b : CallerKey, CallerKey_lt a b = true -> CallerKey_lt b a = false) /\
  (forall a b : CallerKey,
     CallerKey_lt a b = false -> CallerKey_lt b a = false -> a = b).
Proof.
  repeat split.
  - intros a. apply CallerKey_lt_false. apply key_lt_irrefl.
  - intros a b c Hab Hbc. exact (key_lt_trans a b c Hab Hbc).
  - intros a b Hab. apply CallerKey_lt_false. apply key_lt_asym. exact Hab.
  - intros a b Hab Hba. apply CallerKey_lt_false in Hab, Hba.
    exact (key_trichotomy a b Hab Hba).
Qed.

Section ExecutorExtras.
Context {Env : Type}.
Implicit Types (m : CallerMap Env) (key k : CallerKey) (c : Caller Env).
Implicit Types (ex : OrderedExecutor Env) (env : Env).

(** *** [insert], then [find] and [erase] of the same key *)

Lemma callers_insert_find_erase key c m m' :
  callers_insert key c m = (m', true) ->
  callers_find key m' = Some c /\ callers_erase key m' = m.
Proof.
  revert m'. induction m as [| [k c'] m IH]; intros m' Hins; simpl in Hins.
  - injection Hins as <-. simpl.
    rewrite (proj2 (CallerKey_lt_false key key) (key_lt_irrefl key)).
    split; reflexivity.
  - destruct (CallerKey_lt key k) eqn:Hlt.
    + injection Hins as <-. simpl.
      rewrite (proj2 (CallerKey_lt_false key key) (key_lt_irrefl key)).
      split; reflexivity.
    + destruct (CallerKey_lt k key) eqn:Hgt; [| discriminate Hins].
      destruct (callers_insert key c m) as [rest' inserted] eqn:Hrec.
      injection Hins as <- ->.
      destruct (IH rest' eq_refl) as [Hfind Herase].
      simpl. rewrite Hgt. simpl. rewrite Hfind, Herase. split; reflexivity.
Qed.

Lemma key_of_next_id_fresh ex (order : Z) c :
  executor_wf ex -> ids_below ex ->
  ~ In ({| key_id := m_nextID ex; sortingOrder := order |}, c) (m_callers ex).
Proof.
  intros (_ & _ & Hby & _) Hbelow Hin.
  pose proof (Hby _ _ Hin) as Hk. simpl in Hk. apply Hbelow in Hk. lia.
Qed.

(** What [add] does on a well-formed executor. *)
Lemma add_spec (f : Env -> option Exn * Env) (orderFunc : Env -> Z) ex env :
  executor_wf ex -> ids_below ex ->
  let key := {| key_id := m_nextID ex; sortingOrder := orderFunc env |} in
  let caller := {| func := f; sortingOrderFunc := orderFunc |} in
  exists callers',
    callers_insert key caller (m_callers ex) = (callers', true) /\
    add f orderFunc ex env =
      (Ok (m_nextID ex),
       {| m_nextID := uint64_succ (m_nextID ex);
          m_callers := callers';
          m_callerKeyByID := <[m_nextID ex := key]> (m_callerKeyByID ex) |}) /\
    m_callerKeyByID ex !! m_nextID ex = None.
Proof.
  intros Hwf Hbelow key caller.
  destruct (callers_insert_fresh key caller (m_callers ex)) as (m' & Hins & _ & _).
  - apply Hwf.
  - intros c'. apply key_of_next_id_fresh; assumption.
  - assert (Hnone : m_callerKeyByID ex !! m_nextID ex = None).
    { destruct (m_callerKeyByID ex !! m_nextID ex) as [k |] eqn:Hk; [| reflexivity].
      apply Hbelow in Hk. lia. }
    exists m'. split; [exact Hins |]. split; [| exact Hnone].
    unfold add. fold key caller. rewrite Hins. simpl. rewrite Hnone. reflexivity.
Qed.

Lemma add_index_sound (f : Env -> option Exn * Env) (orderFunc : Env -> Z) ex env :
  executor_wf ex -> ids_below ex -> index_sound ex ->
  index_sound (snd (add f orderFunc ex env)).
Proof.
  intros Hwf Hbelow Hsound.
  destruct (add_spec f orderFunc ex env Hwf Hbelow) as (m' & Hins & Hadd & Hnone).
  rewrite Hadd. simpl.
  destruct (callers_insert_true _ _ _ _ (proj1 Hwf) Hins) as [Hperm _].
  intros id k Hlook. simpl in Hlook.
  destruct (decide (m_nextID ex = id)) as [<- | Hne].
  - rewrite lookup_insert_eq in Hlook. injection Hlook as <-.
    split; [reflexivity |]. eexists. simpl.
    apply (Permutation_in _ (Permutation_sym Hperm)). left. reflexivity.
  - rewrite lookup_insert_ne in Hlook by exact Hne.
    destruct (Hsound id k Hlook) as [Hid [c Hin]].
    split; [exact Hid |]. exists c. simpl.
    apply (Permutation_in _ (Permutation_sym Hperm)). right. exact Hin.
Qed.

Lemma add_ids_below (f : Env -> option Exn * Env) (orderFunc : Env -> Z) ex env :
  executor_wf ex -> ids_below ex -> m_nextID ex + 1 < 2 ^ 64 ->
  ids_below (snd (add f orderFunc ex env)).
Proof.
  intros Hwf Hbelow Hsmall.
  destruct (add_spec f orderFunc ex env Hwf Hbelow) as (m' & _ & Hadd & _).
  rewrite Hadd. simpl. intros id k Hlook. simpl in *.
  unfold uint64_succ. rewrite N.mod_small by exact Hsmall.
  destruct (decide (m_nextID ex = id)) as [<- | Hne]; [lia |].
  rewrite lookup_insert_ne in Hlook by exact Hne.
  apply Hbelow in Hlook. lia.
Qed.

(** X2. On a well-formed executor in which every identifier in use lies
    below [m_nextID], [add] never throws: it returns [m_nextID], registers
    the callback beside the ones already there, advances [m_nextID] by one
    (modulo 2^64), and leaves the executor well formed.  The identifiers in
    use stay below [m_nextID] as long as the counter does not wrap. *)
Theorem add_returns_fresh_id (f : Env -> option Exn * Env) (orderFunc : Env -> Z) ex env :
  executor_wf ex -> index_sound ex -> ids_below ex ->
  exists ex',
    add f orderFunc ex env = (Ok (m_nextID ex), ex') /\
    m_nextID ex' = uint64_succ (m_nextID ex) /\
    Permutation (registered (m_callers ex'))
                ((m_nextID ex, {| func := f; sortingOrderFunc := orderFunc |})
                   :: registered (m_callers ex)) /\
    executor_wf ex' /\ index_sound ex' /\
    (m_nextID ex + 1 < 2 ^ 64 -> ids_below ex').
Proof.
  intros Hwf Hsound Hbelow.
  pose proof (add_index_sound f orderFunc ex env Hwf Hbelow Hsound) as Hsound'.
  pose proof (add_ids_below f orderFunc ex env Hwf Hbelow) as Hbelow'.
  destruct (add_spec f orderFunc ex env Hwf Hbelow) as (m' & _ & Hadd & _).
  rewrite Hadd in Hsound', Hbelow'. simpl in Hsound', Hbelow'.
  eexists. split; [exact Hadd |].
  destruct (add_wf f orderFunc ex env _ _ Hwf Hadd) as (Hwf' & _ & Hperm).
  split; [reflexivity |]. split; [exact Hperm |].
  split; [exact Hwf' |]. split; [exact Hsound' |]. exact Hbelow'.
Qed.

Lemma add_then_remove_eq (f : Env -> option Exn * Env) (orderFunc : Env -> Z) ex env :
  executor_wf ex -> ids_below ex ->
  remove (m_nextID ex) (snd (add f orderFunc ex env)) = (None, with_next_id ex).
Proof.
  intros Hwf Hbelow.
  destruct (add_spec f orderFunc ex env Hwf Hbelow) as (m' & Hins & Hadd & Hnone).
  rewrite Hadd. simpl.
  destruct (callers_insert_find_erase _ _ _ _ Hins) as [Hfind Herase].
  unfold remove, findByID. simpl.
  rewrite lookup_insert_eq, Hfind, Herase.
  rewrite (delete_insert_id _ _ _ Hnone). reflexivity.
Qed.

(** X3. [add] followed by [remove] of the identifier it returned gives the
    executor back: the callers and the index are those of before, only
    [m_nextID] has advanced; [remove] does not throw. *)
Theorem add_then_remove (f : Env -> option Exn * Env) (orderFunc : Env -> Z) ex env :
  executor_wf ex -> ids_below ex ->
  remove (m_nextID ex) (snd (add f orderFunc ex env)) = (None, with_next_id ex).
Proof. exact (add_then_remove_eq f orderFunc ex env). Qed.

(** *** [remove] *)

Lemma filter_all {X : Type} (P : X -> Prop) `{!forall x, Decision (P x)} (l : list X) :
  (forall x, x ∈ l -> P x) -> filter P l = l.
Proof.
  induction l as [| x l IH]; intros Hall; [reflexivity |].
  rewrite filter_cons_True by (apply Hall; left).
  rewrite IH; [reflexivity |]. intros y Hy. apply Hall. right. exact Hy.
Qed.

Lemma remove_unknown (id : IDType) ex :
  m_callerKeyByID ex !! id = None -> remove id ex = (None, ex).
Proof. intros Hnone. unfold remove, findByID. rewrite Hnone. reflexivity. Qed.

Lemma remove_found (id : IDType) ex key :
  callers_sorted (m_callers ex) -> index_sound ex ->
  m_callerKeyByID ex !! id = Some key ->
  key_id key = id /\
  (exists c, In (key, c) (m_callers ex)) /\
  remove id ex =
    (None, {| m_nextID := m_nextID ex;
              m_callers := callers_erase key (m_callers ex);
              m_callerKeyByID := delete id (m_callerKeyByID ex) |}).
Proof.
  intros Hsorted Hsound Hlook.
  destruct (Hsound id key Hlook) as [Hid [c Hin]].
  split; [exact Hid |]. split; [exists c; exact Hin |].
  unfold remove, findByID. rewrite Hlook.
  rewrite (callers_find_in key c _ Hsorted Hin). reflexivity.
Qed.

(** Erasing the entry of identifier [id] from a map without duplicate
    identifiers leaves the entries of the other identifiers, in order. *)
Lemma registered_callers_erase key c m :
  callers_sorted m ->
  NoDup (map (fun x => key_id (fst x)) m) ->
  In (key, c) m ->
  registered (callers_erase key m)
  = filter (fun x => fst x <> key_id key) (registered m).
Proof.
  induction m as [| [k c'] m IH]; intros Hs Hnd Hin; [destruct Hin |].
  apply callers_sorted_inv in Hs as [Hm Hk].
  apply NoDup_cons in Hnd as [Hnotin Hnd].
  simpl. destruct Hin as [[= -> ->] | Hin].
  - rewrite (proj2 (CallerKey_lt_false key key) (key_lt_irrefl key)). simpl.
    rewrite filter_cons_False by (simpl; intros Hne; apply Hne; reflexivity).
    symmetry. apply filter_all.
    intros [id0 c0] Hx Heq. simpl in Heq. apply Hnotin.
    apply list_elem_of_In in Hx. unfold registered in Hx.
    apply in_map_iff in Hx as ([k0 c1] & [= <- <-] & Hx).
    apply list_elem_of_In. apply in_map_iff. exists (k0, c1).
    split; [simpl; congruence | exact Hx].
  - pose proof (Hk _ Hin) as Hlt. simpl in Hlt. unfold key_lt in Hlt.
    rewrite Hlt. simpl.
    rewrite filter_cons_True.
    + rewrite (IH Hm Hnd Hin). reflexivity.
    + simpl. intros Heq. apply Hnotin. apply list_elem_of_In. apply in_map_iff.
      exists (key, c). split; [simpl; congruence | exact Hin].
Qed.

Lemma remove_index_sound (id : IDType) ex :
  executor_wf ex -> index_sound ex -> index_sound (snd (remove id ex)).
Proof.
  intros Hwf Hsound. pose proof Hwf as (Hsorted & Hnodup & Hby & Hfiled).
  destruct (m_callerKeyByID ex !! id) as [key |] eqn:Hlook.
  - destruct (remove_found id ex key Hsorted Hsound Hlook)
      as (Hkey & [c Hin] & Hrem).
    rewrite Hrem. simpl. intros id' k Hlook'. simpl in Hlook'.
    destruct (decide (id = id')) as [<- | Hne].
    + rewrite lookup_delete_eq in Hlook'. discriminate.
    + rewrite lookup_delete_ne in Hlook' by exact Hne.
      destruct (Hsound id' k Hlook') as [Hid' [c' Hin']].
      split; [exact Hid' |]. exists c'. simpl.
      destruct (callers_erase_in key c _ Hsorted Hin) as [Hperm _].
      apply (Permutation_in _ (Permutation_sym Hperm)) in Hin'.
      destruct Hin' as [[= <- <-] | Hin']; [congruence | exact Hin'].
  - rewrite (remove_unknown id ex Hlook). exact Hsound.
Qed.

(** X4. [remove(id)] on a well-formed executor never throws and leaves it
    well formed; the callbacks registered afterwards are the ones of
    before, in the same order, without the one of identifier [id]; the
    identifier is gone from the index, so a second [remove(id)] changes
    nothing.  For an identifier that is not in the index nothing changes at
    all. *)
Theorem remove_erases_one_id (id : IDType) ex :
  executor_wf ex -> index_sound ex ->
  let ex' := snd (remove id ex) in
  fst (remove id ex) = None /\
  executor_wf ex' /\ index_sound ex' /\
  m_nextID ex' = m_nextID ex /\
  registered (m_callers ex')
    = filter (fun x => fst x <> id) (registered (m_callers ex)) /\
  m_callerKeyByID ex' = delete id (m_callerKeyByID ex) /\
  remove id ex' = (None, ex') /\
  (m_callerKeyByID ex !! id = None -> ex' = ex).
Proof.
  intros Hwf Hsound ex'.
  pose proof (remove_wf id ex Hwf) as Hwf'.
  pose proof (remove_index_sound id ex Hwf Hsound) as Hsound'.
  fold ex' in Hwf', Hsound'.
  pose proof Hwf as (Hsorted & Hnodup & Hby & Hfiled).
  destruct (m_callerKeyByID ex !! id) as [key |] eqn:Hlook.
  - destruct (remove_found id ex key Hsorted Hsound Hlook)
      as (Hkey & [c Hin] & Hrem).
    subst ex'. rewrite Hrem in *. simpl.
    split; [reflexivity |]. split; [exact Hwf' |]. split; [exact Hsound' |].
    split; [reflexivity |].
    split; [rewrite <- Hkey;
            exact (registered_callers_erase key c _ Hsorted Hnodup Hin) |].
    split; [reflexivity |].
    split; [apply remove_unknown; simpl; apply lookup_delete_eq | discriminate].
  - subst ex'. rewrite (remove_unknown id ex Hlook) in *. simpl.
    split; [reflexivity |]. split; [exact Hwf' |]. split; [exact Hsound' |].
    split; [reflexivity |].
    split.
    + symmetry. apply filter_all. intros [id0 c0] Hx Heq. simpl in Heq.
      subst id0. apply list_elem_of_In in Hx. unfold registered in Hx.
      apply in_map_iff in Hx as ([k0 c1] & [= Hk0 <-] & Hx).
      pose proof (Hby _ _ Hx) as Hk. rewrite Hk0 in Hk. congruence.
    + split; [symmetry; apply delete_id; exact Hlook |].
      split; [apply remove_unknown; exact Hlook | reflexivity].
Qed.

End ExecutorExtras.

(** ** [hasSortingOrder], [HasActiveDrawer] and the like *)

Lemma existsb_orb_pointwise {X : Type} (f g : X -> bool) (l : list X) :
  existsb (fun x => f x || g x) l = existsb f l || existsb g l.
Proof.
  induction l as [| x l IH]; simpl; [reflexivity |].
  rewrite IH. destruct (f x), (g x), (existsb f l), (existsb g l); reflexivity.
Qed.

Lemma existsb_pointwise {X : Type} (f g : X -> bool) (l : list X) :
  (forall x, f x = g x) -> existsb f l = existsb g l.
Proof.
  intros Hfg. induction l as [| x l IH]; simpl; [reflexivity |].
  rewrite Hfg, IH. reflexivity.
Qed.

Lemma existsb_Permutation {X : Type} (f : X -> bool) (l l' : list X) :
  l ≡ₚ l' -> existsb f l = existsb f l'.
Proof.
  induction 1 as [| x l l' _ IH | x y l | l l' l'' _ IH1 _ IH2]; simpl.
  - reflexivity.
  - rewrite IH. reflexivity.
  - destruct (f x), (f y); reflexivity.
  - congruence.
Qed.

Section ExecutorQueries.
Context {Env : Type}.
Implicit Types (m : CallerMap Env) (key k : CallerKey) (c : Caller Env).
Implicit Types (ex : OrderedExecutor Env) (env : Env).

(** The answer of [hasSortingOrderInRange] in terms of the registered
    callbacks: the keys play no part in it. *)
Lemma hasSortingOrderInRange_registered (lo hi : Z) ex env :
  hasSortingOrderInRange lo hi ex env =
  existsb (fun x => Z.leb lo (sortingOrderFunc (snd x) env)
                    && Z.leb (sortingOrderFunc (snd x) env) hi)
          (registered (m_callers ex)).
Proof.
  unfold hasSortingOrderInRange, registered.
  induction (m_callers ex) as [| [k c] m IH]; simpl; [reflexivity |].
  rewrite IH. reflexivity.
Qed.

(** X5. [hasSortingOrderInRange(min, max)] reads the priority functions at
    the time of the call, not the priorities under which the entries are
    filed: it answers true exactly when some registered callback has its
    current priority in [min, max] (both ends included).  So re-keying the
    entries ([refreshSortingOrder], done by [call]) never changes its
    answer.  An empty range gives false, and [hasSortingOrder(o)] is the
    range query for [o, o]. *)
Theorem hasSortingOrderInRange_reads_current_priorities (lo hi : Z) ex env :
  executor_wf ex ->
  (hasSortingOrderInRange lo hi ex env = true <->
   exists (id : IDType) c,
     In (id, c) (registered (m_callers ex)) /\
     (lo <= sortingOrderFunc c env <= hi)%Z) /\
  (forall env', hasSortingOrderInRange lo hi (snd (refreshSortingOrder ex env')) env
                = hasSortingOrderInRange lo hi ex env) /\
  ((hi < lo)%Z -> hasSortingOrderInRange lo hi ex env = false) /\
  hasSortingOrder lo ex env = hasSortingOrderInRange lo lo ex env.
Proof.
  intros Hwf. repeat split.
  - rewrite hasSortingOrderInRange_registered. intros Hex.
    apply existsb_exists in Hex as ([id c] & Hin & Hrange). simpl in Hrange.
    exists id, c. split; [exact Hin | lia].
  - intros (id & c & Hin & Hrange). rewrite hasSortingOrderInRange_registered.
    apply existsb_exists. exists (id, c). split; [exact Hin | simpl; lia].
  - intros env'.
    destruct (refreshSortingOrder_spec ex env' Hwf) as (ex' & Hre & _ & Hperm & _).
    rewrite Hre. simpl. rewrite !hasSortingOrderInRange_registered.
    apply existsb_Permutation. exact Hperm.
  - intros Hempty. rewrite hasSortingOrderInRange_registered.
    destruct (existsb _ _) eqn:Hex; [| reflexivity].
    apply existsb_exists in Hex as (x & _ & Hrange). lia.
  - unfold hasSortingOrder, hasSortingOrderInRange.
    apply existsb_pointwise. intros [k c]. lia.
Qed.

Lemma HasActiveFade_range (inst : option (Executors Env)) env :
  HasActiveFade inst env
  = HasActiveDrawerInRange DrawIndex.FadeInMin DrawIndex.FadeOutMax inst env.
Proof.
  unfold HasActiveFade, HasActiveFadeIn, HasActiveFadeOut, HasActiveDrawerInRange.
  destruct inst as [b |]; [| reflexivity].
  rewrite !hasSortingOrderInRange_registered.
  rewrite (existsb_pointwise
             (fun x => Z.leb DrawIndex.FadeInMin (sortingOrderFunc (snd x) env)
                       && Z.leb (sortingOrderFunc (snd x) env) DrawIndex.FadeOutMax)
             (fun x => (Z.leb DrawIndex.FadeInMin (sortingOrderFunc (snd x) env)
                        && Z.leb (sortingOrderFunc (snd x) env) DrawIndex.FadeInMax)
                       || (Z.leb DrawIndex.FadeOutMin (sortingOrderFunc (snd x) env)
                           && Z.leb (sortingOrderFunc (snd x) env)
                                    DrawIndex.FadeOutMax))).
  - rewrite existsb_orb_pointwise.
    destruct (existsb _ _); reflexivity.
  - intros x. unfold DrawIndex.FadeInMin, DrawIndex.FadeInMax,
      DrawIndex.FadeOutMin, DrawIndex.FadeOutMax. lia.
Qed.

(** X6. [HasActiveFade()] answers as one range query over the fade-in and
    fade-out indices together, [HasActiveDrawerInRange(FadeInMin,
    FadeOutMax)]: the two ranges are adjacent.  Without a backend instance
    both throw the same error. *)
Theorem HasActiveFade_is_one_range (inst : option (Executors Env)) env :
  HasActiveFade inst env
  = HasActiveDrawerInRange DrawIndex.FadeInMin DrawIndex.FadeOutMax inst env.
Proof. exact (HasActiveFade_range inst env). Qed.

(** What one [call()] does on a well-formed executor. *)
Lemma call_spec ex env :
  executor_wf ex ->
  let ex' := snd (refreshSortingOrder ex env) in
  let invoked := fold_left invoke_next (map snd (m_callers ex')) (None, env) in
  call ex env = (fst invoked, ex', snd invoked) /\
  executor_wf ex' /\
  registered (m_callers ex') ≡ₚ registered (m_callers ex) /\
  (forall k c, In (k, c) (m_callers ex') ->
     sortingOrder k = sortingOrderFunc c env).
Proof.
  intros Hwf ex' invoked.
  destruct (refreshSortingOrder_spec ex env Hwf)
    as (ex1 & Hre & Hwf' & Hreg & _ & Hprio).
  assert (Hex : ex' = ex1) by (subst ex'; rewrite Hre; reflexivity).
  subst ex1.
  split; [| split; [exact Hwf' | split; [exact Hreg | exact Hprio]]].
  unfold call. rewrite Hre, call_all_invoke. fold invoked.
  destruct invoked as [thrown env']. reflexivity.
Qed.

(** [Backend::draw()] is the call of the update-input executor followed,
    when no update-input callback has thrown, by the call of the draw
    executor. *)
Lemma draw_input_stage (b : Executors Env) env :
  executor_wf (m_updateInputExecutor b) ->
  let ex1 := snd (refreshSortingOrder (m_updateInputExecutor b) env) in
  let input := fold_left invoke_next (map snd (m_callers ex1)) (None, env) in
  Backend_draw b env =
    match fst input with
    | Some e => (Some e, set_updateInputExecutor ex1 b, snd input)
    | None =>
        let '(thrown, ex2, env2) := call (m_drawExecutor b) (snd input) in
        (thrown, {| m_updateInputExecutor := ex1; m_drawExecutor := ex2 |}, env2)
    end.
Proof.
  intros Hwf ex1 input.
  destruct (call_spec (m_updateInputExecutor b) env Hwf) as (Hcall & _).
  unfold Backend_draw. rewrite Hcall. fold ex1. fold input.
  destruct (fst input); reflexivity.
Qed.

(** X7. [Backend::draw()] with well-formed executors throws no error of its
    own.  It invokes the update-input callbacks in ascending order of
    (priority, identifier), with the priorities read before the first of
    them runs, each from the program state the one before it has left.  If
    one of them throws, its exception leaves [draw()]: the update-input
    callbacks after it and all the drawers are not invoked.  Otherwise it
    then invokes the drawers, in ascending order of (priority, identifier)
    with the priorities read after the last update-input callback has run
    (a priority changed by an update-input callback is seen by the drawers
    of the same frame), up to the first drawer that throws.  When no
    callback throws, every update-input callback and then every drawer is
    invoked, once. *)
Theorem draw_runs_input_callers_then_drawers (b : Executors Env) env :
  executor_wf (m_updateInputExecutor b) ->
  executor_wf (m_drawExecutor b) ->
  let ascending :=
    StronglySorted
      (fun a b => (sortingOrder a < sortingOrder b)%Z \/
                  (sortingOrder a = sortingOrder b /\ key_id a < key_id b)) in
  let ex1 := snd (refreshSortingOrder (m_updateInputExecutor b) env) in
  let input := fold_left invoke_next (map snd (m_callers ex1)) (None, env) in
  let ex2 := snd (refreshSortingOrder (m_drawExecutor b) (snd input)) in
  let drawn := fold_left invoke_next (map snd (m_callers ex2)) (None, snd input) in
  Backend_draw b env =
    match fst input with
    | Some e =>
        (Some e,
         {| m_updateInputExecutor := ex1; m_drawExecutor := m_drawExecutor b |},
         snd input)
    | None =>
        (fst drawn, {| m_updateInputExecutor := ex1; m_drawExecutor := ex2 |},
         snd drawn)
    end /\
  registered (m_callers ex1) ≡ₚ registered (m_callers (m_updateInputExecutor b)) /\
  registered (m_callers ex2) ≡ₚ registered (m_callers (m_drawExecutor b)) /\
  (forall k c, In (k, c) (m_callers ex1) -> sortingOrder k = sortingOrderFunc c env) /\
  (forall k c, In (k, c) (m_callers ex2) ->
     sortingOrder k = sortingOrderFunc c (snd input)) /\
  ascending (map fst (m_callers ex1)) /\
  ascending (map fst (m_callers ex2)) /\
  executor_wf ex1 /\ executor_wf ex2 /\
  ((forall (id : IDType) c e,
      In (id, c) (registered (m_callers (m_updateInputExecutor b))
                  ++ registered (m_callers (m_drawExecutor b))) ->
      fst (func c e) = None) ->
   Backend_draw b env =
     (None, {| m_updateInputExecutor := ex1; m_drawExecutor := ex2 |},
      fold_left (fun e c => snd (func c e))
                (map snd (m_callers ex1) ++ map snd (m_callers ex2)) env)).
Proof.
  intros Hwf1 Hwf2 ascending ex1 input ex2 drawn.
  destruct (call_spec (m_updateInputExecutor b) env Hwf1)
    as (Hcall1 & Hwf1' & Hreg1 & Hprio1).
  destruct (call_spec (m_drawExecutor b) (snd input) Hwf2)
    as (Hcall2 & Hwf2' & Hreg2 & Hprio2).
  fold ex1 in Hcall1, Hwf1', Hreg1, Hprio1.
  fold ex2 in Hcall2, Hwf2', Hreg2, Hprio2. fold drawn in Hcall2.
  assert (Hdraw : Backend_draw b env =
            match fst input with
            | Some e =>
                (Some e,
                 {| m_updateInputExecutor := ex1; m_drawExecutor := m_drawExecutor b |},
                 snd input)
            | None =>
                (fst drawn, {| m_updateInputExecutor := ex1; m_drawExecutor := ex2 |},
                 snd drawn)
            end).
  { rewrite (draw_input_stage b env Hwf1). fold ex1. fold input.
    destruct (fst input); [reflexivity |]. rewrite Hcall2. reflexivity. }
  split; [exact Hdraw |].
  split; [exact Hreg1 |]. split; [exact Hreg2 |].
  split; [exact Hprio1 |]. split; [exact Hprio2 |].
  split; [apply callers_sorted_plain; apply Hwf1' |].
  split; [apply callers_sorted_plain; apply Hwf2' |].
  split; [exact Hwf1' |]. split; [exact Hwf2' |].
  intros Hquiet.
  assert (Hquiet_of : forall ex0 ex0',
            registered (m_callers ex0') ≡ₚ registered (m_callers ex0) ->
            (forall (id : IDType) c e,
               In (id, c) (registered (m_callers ex0)) -> fst (func c e) = None) ->
            forall c e, In c (map snd (m_callers ex0')) -> fst (func c e) = None).
  { intros ex0 ex0' Hperm Hq c e Hin.
    apply in_map_iff in Hin as ([k c'] & Hc & Hin). simpl in Hc. subst c'.
    apply (Hq (key_id k) c e). apply (Permutation_in _ Hperm).
    unfold registered. apply in_map_iff. exists (k, c).
    split; [reflexivity | exact Hin]. }
  assert (Hinput : input
            = (None, fold_left (fun e c => snd (func c e))
                               (map snd (m_callers ex1)) env)).
  { apply invoke_all. apply (Hquiet_of _ _ Hreg1).
    intros id c e Hin. apply (Hquiet id c e). apply in_or_app. left. exact Hin. }
  assert (Hdrawn : drawn
            = (None, fold_left (fun e c => snd (func c e))
                               (map snd (m_callers ex2)) (snd input))).
  { apply invoke_all. apply (Hquiet_of _ _ Hreg2).
    intros id c e Hin. apply (Hquiet id c e). apply in_or_app. right. exact Hin. }
  rewrite Hdraw, Hdrawn. rewrite Hinput. cbn [fst snd].
  rewrite fold_left_app. reflexivity.
Qed.

End ExecutorQueries.

(** ** [ScopedDrawer] and [ScopedUpdateInputCaller] *)

Section ScopedCallers.
Context {Env : Type}.
Implicit Types (m : CallerMap Env) (key k : CallerKey) (c : Caller Env).
Implicit Types (ex : OrderedExecutor Env) (env : Env) (b : Executors Env).

Lemma add_wf_snd (f : Env -> option Exn * Env) (orderFunc : Env -> Z) ex env :
  executor_wf ex -> ids_below ex -> executor_wf (snd (add f orderFunc ex env)).
Proof.
  intros Hwf Hbelow.
  destruct (add_spec f orderFunc ex env Hwf Hbelow) as (m' & _ & Hadd & _).
  destruct (add_wf f orderFunc ex env _ _ Hwf Hadd) as (Hwf' & _ & _).
  rewrite Hadd. exact Hwf'.
Qed.

Lemma add_registers (f : Env -> option Exn * Env) (orderFunc : Env -> Z) ex env :
  executor_wf ex -> ids_below ex ->
  In (m_nextID ex, {| func := f; sortingOrderFunc := orderFunc |})
     (registered (m_callers (snd (add f orderFunc ex env)))).
Proof.
  intros Hwf Hbelow.
  destruct (add_spec f orderFunc ex env Hwf Hbelow) as (m' & _ & Hadd & _).
  destruct (add_wf f orderFunc ex env _ _ Hwf Hadd) as (_ & _ & Hperm).
  rewrite Hadd. apply (Permutation_in _ (Permutation_sym Hperm)). left. reflexivity.
Qed.

Lemma id_not_registered (id : IDType) ex :
  executor_wf ex -> ids_below ex -> m_nextID ex <= id ->
  ~ In id (map fst (registered (m_callers ex))).
Proof.
  intros (_ & _ & Hby & _) Hbelow Hle Hin.
  rewrite ids_registered in Hin. apply in_map_iff in Hin as ([k c] & Hk & Hin).
  simpl in Hk. pose proof (Hby _ _ Hin) as Hlook. rewrite Hk in Hlook.
  apply Hbelow in Hlook. lia.
Qed.

(** X8. The life of a [ScopedDrawer(func, drawIndex)] on a backend whose
    draw executor is well formed: the constructor registers the drawer under
    the next identifier and does not throw; from then on
    [HasActiveDrawer(drawIndex)] is true; the destructor removes the drawer
    without throwing and leaves the callers and the index of the executor
    as they were before the constructor (only [m_nextID] has moved on).
    A moved-from object removes nothing.  Without a backend instance the
    constructor throws [Backend is not initialized] and the destructor is
    silent. *)
Theorem ScopedDrawer_lifetime (f : Env -> option Exn * Env) (drawIndex : Z) b env :
  executor_wf (m_drawExecutor b) -> ids_below (m_drawExecutor b) ->
  let id := m_nextID (m_drawExecutor b) in
  let b1 :=
    set_drawExecutor (snd (add f (fun _ => drawIndex) (m_drawExecutor b) env)) b in
  ScopedDrawer_new_at f drawIndex (Some b) env
    = (Ok {| drawer_id := Some id |}, Some b1) /\
  (forall env', HasActiveDrawer drawIndex (Some b1) env' = Ok true) /\
  ScopedDrawer_destroy {| drawer_id := Some id |} (Some b1)
    = (None, Some (set_drawExecutor (with_next_id (m_drawExecutor b)) b)) /\
  (forall inst : option (Executors Env),
     ScopedDrawer_destroy (snd (ScopedDrawer_move {| drawer_id := Some id |})) inst
     = (None, inst)) /\
  ScopedDrawer_new_at f drawIndex None env
    = (Raise (SivError BackendNotInitialized), None) /\
  ScopedDrawer_destroy {| drawer_id := Some id |} (@None (Executors Env))
    = (None, None).
Proof.
  intros Hwf Hbelow id b1.
  pose proof (add_then_remove_eq f (fun _ => drawIndex) (m_drawExecutor b) env
                Hwf Hbelow) as Hround.
  pose proof (add_registers f (fun _ => drawIndex) (m_drawExecutor b) env
                Hwf Hbelow) as Hreg.
  destruct (add_spec f (fun _ => drawIndex) (m_drawExecutor b) env Hwf Hbelow)
    as (m' & _ & Hadd & _).
  split.
  { unfold ScopedDrawer_new_at, ScopedDrawer_new_with, AddDrawer.
    subst b1. rewrite Hadd. reflexivity. }
  split.
  { intros env'. unfold HasActiveDrawer. f_equal. subst b1. simpl.
    unfold hasSortingOrder. apply existsb_exists.
    unfold registered in Hreg. apply in_map_iff in Hreg as ([k c] & [= Hk Hc] & Hin).
    exists (k, c). split; [exact Hin |]. subst c. simpl. apply Z.eqb_refl. }
  split.
  { unfold ScopedDrawer_destroy, RemoveDrawer. subst b1. simpl.
    fold id in Hround. rewrite Hround. reflexivity. }
  split; [intros inst; reflexivity |].
  split; reflexivity.
Qed.

(** X9. The life of a [ScopedUpdateInputCaller] on a backend with
    well-formed executors.  The constructor registers the callback under the
    next identifier.  In every [Backend::draw()] made while the object
    lives, the callback is one of the update-input callbacks that [draw()]
    goes through: unless a callback before it has thrown, it is invoked, in
    the program state the callbacks before it have left, and [draw()] goes
    on from the state it leaves.  After the destructor the update-input
    executor has the callers and the index it had before the constructor;
    the update-input callbacks that [draw()] goes through are those of
    before the constructor, none of them under the identifier of the
    object. *)
Theorem ScopedUpdateInputCaller_lifetime
    (f : Env -> option Exn * Env) (negativeDrawIndexFunc : Env -> Z) b env env' :
  executor_wf (m_updateInputExecutor b) -> ids_below (m_updateInputExecutor b) ->
  executor_wf (m_drawExecutor b) ->
  let id := m_nextID (m_updateInputExecutor b) in
  let caller := {| func := f; sortingOrderFunc := negativeDrawIndexFunc |} in
  let b1 :=
    set_updateInputExecutor
      (snd (add f negativeDrawIndexFunc (m_updateInputExecutor b) env)) b in
  let b2 := set_updateInputExecutor (with_next_id (m_updateInputExecutor b)) b in
  let refreshed (bk : Executors Env) :=
    snd (refreshSortingOrder (m_updateInputExecutor bk) env') in
  let rest_of_draw (bk : Executors Env) (input : option Exn * Env) :=
    match fst input with
    | Some e => (Some e, set_updateInputExecutor (refreshed bk) bk, snd input)
    | None =>
        let '(thrown, ex2, env2) := call (m_drawExecutor bk) (snd input) in
        (thrown,
         {| m_updateInputExecutor := refreshed bk; m_drawExecutor := ex2 |}, env2)
    end in
  ScopedUpdateInputCaller_new f negativeDrawIndexFunc (Some b) env
    = (Ok {| caller_id := Some id |}, Some b1) /\
  (exists pre post k,
     m_callers (refreshed b1) = pre ++ (k, caller) :: post /\
     key_id k = id /\
     (fst (fold_left invoke_next (map snd pre) (None, env')) = None ->
      Backend_draw b1 env' =
        rest_of_draw b1
          (fold_left invoke_next (map snd post)
             (f (snd (fold_left invoke_next (map snd pre) (None, env'))))))) /\
  ScopedUpdateInputCaller_destroy {| caller_id := Some id |} (Some b1)
    = (None, Some b2) /\
  Backend_draw b2 env' =
    rest_of_draw b2
      (fold_left invoke_next (map snd (m_callers (refreshed b2))) (None, env')) /\
  registered (m_callers (refreshed b2))
    ≡ₚ registered (m_callers (m_updateInputExecutor b)) /\
  (forall k c, In (k, c) (m_callers (refreshed b2)) -> key_id k <> id).
Proof.
  intros Hwf Hbelow Hwfd id caller b1 b2 refreshed rest_of_draw.
  pose proof (add_then_remove_eq f negativeDrawIndexFunc (m_updateInputExecutor b) env
                Hwf Hbelow) as Hround.
  pose proof (add_registers f negativeDrawIndexFunc (m_updateInputExecutor b) env
                Hwf Hbelow) as Hreg.
  pose proof (add_wf_snd f negativeDrawIndexFunc (m_updateInputExecutor b) env
                Hwf Hbelow) as Hwf1.
  destruct (add_spec f negativeDrawIndexFunc (m_updateInputExecutor b) env Hwf Hbelow)
    as (m' & _ & Hadd & _).
  assert (Hwf2 : executor_wf (with_next_id (m_updateInputExecutor b))) by exact Hwf.
  split.
  { unfold ScopedUpdateInputCaller_new, AddUpdateInputCaller.
    subst b1. rewrite Hadd. reflexivity. }
  split.
  { destruct (call_spec (m_updateInputExecutor b1) env' Hwf1) as (_ & _ & Hperm & _).
    fold (refreshed b1) in Hperm.
    apply (Permutation_in _ (Permutation_sym Hperm)) in Hreg.
    unfold registered in Hreg.
    apply in_map_iff in Hreg as ([k c] & [= Hk Hc] & Hin). subst c.
    apply in_split in Hin as (pre & post & Hsplit).
    exists pre, post, k. split; [exact Hsplit |]. split; [exact Hk |].
    intros Hbefore.
    rewrite (draw_input_stage b1 env' Hwf1). fold (refreshed b1).
    rewrite Hsplit, map_app, fold_left_app. cbn [map fold_left snd].
    assert (Hnext : invoke_next (fold_left invoke_next (map snd pre) (None, env'))
                                {| func := f; sortingOrderFunc := negativeDrawIndexFunc |}
                    = f (snd (fold_left invoke_next (map snd pre) (None, env'))))
      by (unfold invoke_next at 1; rewrite Hbefore; reflexivity).
    rewrite Hnext. reflexivity. }
  split.
  { unfold ScopedUpdateInputCaller_destroy, RemoveUpdateInputCaller. subst b1. simpl.
    fold id in Hround. rewrite Hround. reflexivity. }
  destruct (call_spec (m_updateInputExecutor b2) env' Hwf2) as (_ & _ & Hperm & _).
  fold (refreshed b2) in Hperm.
  split; [exact (draw_input_stage b2 env' Hwf2) |].
  split; [exact Hperm |].
  intros k c Hin Hk.
  apply (id_not_registered id (m_updateInputExecutor b) Hwf Hbelow);
    [subst id; lia |].
  apply (Permutation_in _ (Permutation_map fst Hperm)).
  apply in_map_iff. exists (key_id k, c). split; [exact Hk |].
  unfold registered. apply in_map_iff. exists (k, c).
  split; [reflexivity | exact Hin].
Qed.

(** X10. Adding a drawer changes the answer of
    [HasActiveDrawerInRange(min, max)] in one way only: the answer
    afterwards is the answer of before, or true when the current index of
    the new drawer lies in [min, max].  So a [ScopedDrawer(func)], whose
    index is [DrawIndex::Default], changes neither [HasActiveModal()] nor
    [HasActiveFade()], and a [ScopedDrawer(func, DrawIndex::Modal)] makes
    [HasActiveModal()] true. *)
Theorem AddDrawer_then_HasActiveDrawerInRange
    (f : Env -> option Exn * Env) (drawIndexFunc : Env -> Z) b env0 (lo hi : Z) env :
  executor_wf (m_drawExecutor b) -> ids_below (m_drawExecutor b) ->
  HasActiveDrawerInRange lo hi (snd (AddDrawer f drawIndexFunc (Some b) env0)) env
  = Ok (hasSortingOrderInRange lo hi (m_drawExecutor b) env
        || (Z.leb lo (drawIndexFunc env) && Z.leb (drawIndexFunc env) hi)) /\
  HasActiveModal (snd (ScopedDrawer_new f (Some b) env0)) env
  = HasActiveModal (Some b) env /\
  HasActiveFade (snd (ScopedDrawer_new f (Some b) env0)) env
  = HasActiveFade (Some b) env /\
  HasActiveModal (snd (ScopedDrawer_new_at f DrawIndex.Modal (Some b) env0)) env
  = Ok true.
Proof.
  intros Hwf Hbelow.
  assert (Hadd : forall (g : Env -> Z) (lo' hi' : Z),
            HasActiveDrawerInRange lo' hi' (snd (AddDrawer f g (Some b) env0)) env
            = Ok (hasSortingOrderInRange lo' hi' (m_drawExecutor b) env
                  || (Z.leb lo' (g env) && Z.leb (g env) hi'))).
  { intros g lo' hi'.
    destruct (add_spec f g (m_drawExecutor b) env0 Hwf Hbelow) as (m' & _ & Hadd & _).
    destruct (add_wf f g (m_drawExecutor b) env0 _ _ Hwf Hadd) as (_ & _ & Hperm).
    unfold AddDrawer, HasActiveDrawerInRange. rewrite Hadd. cbn [fst snd].
    f_equal. cbn [m_drawExecutor set_drawExecutor].
    rewrite !hasSortingOrderInRange_registered.
    rewrite (existsb_Permutation _ _ _ Hperm). cbn [existsb fst snd sortingOrderFunc].
    apply orb_comm. }
  assert (Hnew : forall (g : Env -> Z),
            snd (ScopedDrawer_new_with f g (Some b) env0)
            = snd (AddDrawer f g (Some b) env0)).
  { intros g. unfold ScopedDrawer_new_with.
    destruct (AddDrawer f g (Some b) env0) as [[id | e] inst']; reflexivity. }
  split; [apply Hadd |].
  split; [| split].
  - unfold HasActiveModal, ScopedDrawer_new. rewrite Hnew, Hadd.
    unfold HasActiveDrawerInRange. rewrite orb_false_r. reflexivity.
  - rewrite !HasActiveFade_range. unfold ScopedDrawer_new. rewrite Hnew, Hadd.
    unfold HasActiveDrawerInRange. rewrite orb_false_r. reflexivity.
  - unfold HasActiveModal, ScopedDrawer_new_at. rewrite Hnew, Hadd.
    rewrite orb_true_r. reflexivity.
Qed.

End ScopedCallers.

(** *** The example executor *)

Section ExecutorInvariants.
Context {Env : Type}.
Implicit Types (ex : OrderedExecutor Env) (env : Env).

Lemma OrderedExecutor_new_sound :
  index_sound (OrderedExecutor_new (Env:=Env)) /\
  ids_below (OrderedExecutor_new (Env:=Env)).
Proof.
  split; intros id k Hlook; simpl in Hlook; rewrite lookup_empty in Hlook;
    discriminate.
Qed.

Lemma add_keeps_invariants (f : Env -> option Exn * Env) (orderFunc : Env -> Z) ex env :
  executor_wf ex /\ index_sound ex /\ ids_below ex ->
  m_nextID ex + 1 < 2 ^ 64 ->
  executor_wf (snd (add f orderFunc ex env)) /\
  index_sound (snd (add f orderFunc ex env)) /\
  ids_below (snd (add f orderFunc ex env)).
Proof.
  intros (Hwf & Hsound & Hbelow) Hsmall.
  split; [apply add_wf_snd; assumption |].
  split; [apply add_index_sound; assumption | apply add_ids_below; assumption].
Qed.

End ExecutorInvariants.

Lemma executor_10_5_5_invariants :
  executor_wf executor_10_5_5 /\ index_sound executor_10_5_5 /\
  ids_below executor_10_5_5.
Proof.
  unfold executor_10_5_5.
  repeat (apply add_keeps_invariants; [| vm_compute; reflexivity]).
  split; [apply OrderedExecutor_new_wf | apply OrderedExecutor_new_sound].
Qed.

(** A fourth callback added to [executor_10_5_5] gets identifier 4. *)
Lemma add_returns_fresh_id_witness :
  fst (add (fun env : Z => (None, env)) (fun _ : Z => 7%Z) executor_10_5_5 10%Z) = Ok 4.
Proof.
  destruct executor_10_5_5_invariants as (Hwf & Hsound & Hbelow).
  destruct (add_returns_fresh_id (fun env : Z => (None, env)) (fun _ : Z => 7%Z)
              executor_10_5_5 10%Z Hwf Hsound Hbelow) as (ex' & Hadd & _).
  rewrite Hadd. reflexivity.
Defined.

Lemma add_then_remove_witness :
  remove 4 (snd (add (fun env : Z => (None, env)) (fun _ : Z => 7%Z) executor_10_5_5 10%Z))
  = (None, with_next_id executor_10_5_5).
Proof.
  destruct executor_10_5_5_invariants as (Hwf & _ & Hbelow).
  exact (add_then_remove (fun env : Z => (None, env)) (fun _ : Z => 7%Z)
           executor_10_5_5 10%Z Hwf Hbelow).
Defined.

(** Removing the callback of identifier 2 from [executor_10_5_5] leaves the
    callbacks 3 and 1, in that order. *)
Lemma remove_erases_one_id_witness :
  fst (remove 2 executor_10_5_5) = None /\
  map fst (registered (m_callers (snd (remove 2 executor_10_5_5)))) = [3; 1].
Proof.
  destruct executor_10_5_5_invariants as (Hwf & Hsound & _).
  destruct (remove_erases_one_id 2 executor_10_5_5 Hwf Hsound)
    as (Hnone & _ & _ & _ & Hreg & _).
  split; [exact Hnone |]. rewrite Hreg. vm_compute. reflexivity.
Defined.

(** Whether a callback of [executor_10_5_5] has priority 5 does not depend
    on the keys: re-keying in the state 1 does not change the answer in the
    state 10. *)
Lemma hasSortingOrderInRange_reads_current_priorities_witness :
  hasSortingOrderInRange 5 5 (snd (refreshSortingOrder executor_10_5_5 1%Z)) 10%Z
  = hasSortingOrderInRange 5 5 executor_10_5_5 10%Z.
Proof.
  destruct executor_10_5_5_invariants as (Hwf & _ & _).
  destruct (hasSortingOrderInRange_reads_current_priorities
              5 5 executor_10_5_5 10%Z Hwf) as (_ & Hrefresh & _).
  exact (Hrefresh 1%Z).
Defined.

Lemma executors_with_journal_invariants :
  executor_wf (m_updateInputExecutor executors_with_journal) /\
  index_sound (m_updateInputExecutor executors_with_journal) /\
  ids_below (m_updateInputExecutor executors_with_journal).
Proof.
  unfold executors_with_journal, m_updateInputExecutor.
  apply add_keeps_invariants; [| vm_compute; reflexivity].
  split; [apply OrderedExecutor_new_wf | apply OrderedExecutor_new_sound].
Qed.

(** One [draw()] of [executors_with_journal]: the update-input callback
    runs first and raises the priority of the first drawer to 20, which is
    therefore drawn last (the second drawer then lowers that priority to 1).  With the failing update-input callback added, its
    exception leaves [draw()] and no drawer is invoked. *)
Lemma draw_runs_input_callers_then_drawers_witness :
  (fst (fst (Backend_draw executors_with_journal (10%Z, []))) = None /\
   snd (Backend_draw executors_with_journal (10%Z, []))
   = (1%Z, ["input"; "second"; "third"; "first"]%string)) /\
  (fst (fst (Backend_draw executors_with_failing_input (10%Z, [])))
   = Some (UserException 5) /\
   snd (Backend_draw executors_with_failing_input (10%Z, []))
   = (20%Z, ["input"; "failing"]%string)).
Proof.
  destruct executors_with_journal_invariants as (Hwf & Hsound & Hbelow).
  split.
  - destruct (draw_runs_input_callers_then_drawers executors_with_journal (10%Z, [])
                Hwf executor_with_journal_wf) as (Hdraw & _).
    rewrite Hdraw. vm_compute. split; reflexivity.
  - assert (Hwf' : executor_wf (m_updateInputExecutor executors_with_failing_input)).
    { unfold executors_with_failing_input, set_updateInputExecutor, m_updateInputExecutor at 1.
      apply add_wf_snd; assumption. }
    destruct (draw_runs_input_callers_then_drawers executors_with_failing_input
                (10%Z, []) Hwf' executor_with_journal_wf) as (Hdraw & _).
    rewrite Hdraw. vm_compute. split; reflexivity.
Defined.

Lemma ScopedDrawer_lifetime_witness :
  fst (ScopedDrawer_new_at (fun env : Z => (None, env)) DrawIndex.Modal
         (Some executors_10_5_5) 10%Z)
  = Ok {| drawer_id := Some 4 |}.
Proof.
  destruct executor_10_5_5_invariants as (Hwf & _ & Hbelow).
  destruct (ScopedDrawer_lifetime (fun env : Z => (None, env)) DrawIndex.Modal
              executors_10_5_5 10%Z Hwf Hbelow) as (Hnew & _).
  rewrite Hnew. reflexivity.
Defined.

(** A [ScopedUpdateInputCaller] of priority -5 made on
    [executors_with_journal] gets identifier 2; once it is destroyed, a
    [draw()] invokes the callbacks of before, and not the one of the
    object. *)
Lemma ScopedUpdateInputCaller_lifetime_witness :
  fst (ScopedUpdateInputCaller_new (noting "scoped") (fun _ => (-5)%Z)
         (Some executors_with_journal) (10%Z, []))
  = Ok {| caller_id := Some 2 |} /\
  snd (Backend_draw
         (set_updateInputExecutor
            (with_next_id (m_updateInputExecutor executors_with_journal))
            executors_with_journal)
         (10%Z, []))
  = (1%Z, ["input"; "second"; "third"; "first"]%string).
Proof.
  destruct executors_with_journal_invariants as (Hwf & _ & Hbelow).
  destruct (ScopedUpdateInputCaller_lifetime
              (noting "scoped") (fun _ => (-5)%Z) executors_with_journal
              (10%Z, []) (10%Z, []) Hwf Hbelow executor_with_journal_wf)
    as (Hnew & _ & _ & Hdraw & _).
  split; [rewrite Hnew; reflexivity |].
  rewrite Hdraw. vm_compute. reflexivity.
Defined.

(** While the object lives, [draw()] invokes its callback, here before the
    other update-input callback. *)
Example ScopedUpdateInputCaller_is_invoked :
  snd (Backend_draw
         (set_updateInputExecutor
            (snd (add (noting "scoped") (fun _ => (-5)%Z)
                      (m_updateInputExecutor executors_with_journal) (10%Z, [])))
            executors_with_journal)
         (10%Z, []))
  = (1%Z, ["scoped"; "input"; "second"; "third"; "first"]%string).
Proof. vm_compute. reflexivity. Qed.

(** ** The awaiter registry: [Add], [IsDone], [update] *)

Lemma StronglySorted_snoc {X : Type} (lt : X -> X -> Prop) (l : list X) (a : X) :
  StronglySorted lt l -> Forall (fun x => lt x a) l -> StronglySorted lt (l ++ [a]).
Proof.
  induction 1 as [| x l Hl IH Hx]; intros Hall; simpl.
  - repeat constructor.
  - apply Forall_cons in Hall as [Hxa Hall].
    constructor; [apply IH; exact Hall |].
    apply Forall_app. split; [exact Hx | repeat constructor; exact Hxa].
Qed.

Section RegistryExtraFacts.
Context {R A : Type} `{!TaskAwaiter R A}.
Implicit Types (m : EntryMap (A:=A)) (e : AwaiterEntry (A:=A)).
Implicit Types (b : Backend (A:=A)) (w : World (R:=R) (A:=A)) (tr : Trace (R:=R)).
Implicit Types (id : AwaiterID).

Lemma keys_below_entries id m :
  Forall (fun k => k < id) (keys m) -> Forall (fun x => fst x < id) m.
Proof. unfold keys. intros Hall. apply List.Forall_map in Hall. exact Hall. Qed.

(** With every key below [id], [emplace(id, e)] puts the entry last. *)
Lemma map_emplace_last id e m :
  Forall (fun k => k < id) (keys m) -> map_emplace id e m = m ++ [(id, e)].
Proof.
  unfold keys. induction m as [| [k e'] m IH]; simpl; intros Hall; [reflexivity |].
  apply Forall_cons in Hall as [Hk Hall].
  destruct (N.ltb_spec id k) as [Hlt | _]; [lia |].
  destruct (N.eqb_spec k id) as [Heq | _]; [lia |].
  rewrite (IH Hall). reflexivity.
Qed.

Lemma map_find_snoc_other id id' e m :
  id' <> id -> map_find id' (m ++ [(id, e)]) = map_find id' m.
Proof.
  intros Hne. induction m as [| [k e'] m IH]; simpl.
  - destruct (N.eqb_spec id id'); [congruence | reflexivity].
  - destruct (N.eqb k id'); [reflexivity | exact IH].
Qed.

Lemma sorted_keys_snoc id e m :
  sorted_keys m -> Forall (fun k => k < id) (keys m) -> sorted_keys (m ++ [(id, e)]).
Proof.
  unfold sorted_keys, keys. rewrite map_app. simpl.
  apply StronglySorted_snoc.
Qed.

(** What [Add] does on an initialised backend whose identifiers in use are
    below [m_nextAwaiterID]. *)
Lemma Add_spec (a : A) (finish cancel : option Callback) w b :
  s_pInstance w = Some b -> ids_issued b ->
  Add (Some a) finish cancel w =
    (Ok (m_nextAwaiterID b),
     {| s_pInstance :=
          Some {| m_nextAwaiterID := uint64_succ (m_nextAwaiterID b);
                  m_currentAwaiterID := m_currentAwaiterID b;
                  m_currentAwaiterRemovalNeeded := m_currentAwaiterRemovalNeeded b;
                  m_awaiterEntries :=
                    m_awaiterEntries b
                      ++ [(m_nextAwaiterID b, new_entry a finish cancel)] |};
        trace := trace w |}).
Proof.
  intros Hb Hissued. unfold Add. rewrite Hb. simpl.
  rewrite (map_emplace_last _ _ _ Hissued). reflexivity.
Qed.

(** X11. [Backend::Add]: a null awaiter is refused before anything else,
    then a missing backend instance.  On a backend whose identifiers in use
    are all below [m_nextAwaiterID], [Add] returns [m_nextAwaiterID],
    advances the counter by one (modulo 2^64) and places the new entry
    after all the others, so that it is resumed last by [update]; the other
    entries are untouched, looking the new identifier up gives the new
    entry, [IsDone] of it is [done()] of the awaiter, and the map stays in
    key order. *)
Theorem Add_registers_under_next_id (a : A) (finish cancel : option Callback) w b :
  s_pInstance w = Some b -> ids_issued b ->
  let id := m_nextAwaiterID b in
  let entries' := m_awaiterEntries b ++ [(id, new_entry a finish cancel)] in
  let w' :=
    {| s_pInstance :=
         Some {| m_nextAwaiterID := uint64_succ id;
                 m_currentAwaiterID := m_currentAwaiterID b;
                 m_currentAwaiterRemovalNeeded := m_currentAwaiterRemovalNeeded b;
                 m_awaiterEntries := entries' |};
       trace := trace w |} in
  Add (Some a) finish cancel w = (Ok id, w') /\
  map_find id entries' = Some (new_entry a finish cancel) /\
  (forall id', id' <> id ->
     map_find id' entries' = map_find id' (m_awaiterEntries b)) /\
  IsDone id w' = Ok (done a) /\
  (sorted_keys (m_awaiterEntries b) -> sorted_keys entries') /\
  (forall w0 : World (R:=R) (A:=A),
     Add None finish cancel w0 = (Raise (SivError AwaiterMustNotBeNull), w0)) /\
  (forall w0 : World (R:=R) (A:=A),
     s_pInstance w0 = None ->
     Add (Some a) finish cancel w0 = (Raise (SivError BackendNotInitialized), w0)).
Proof.
  intros Hb Hissued id entries' w'.
  assert (Hfind : map_find id entries' = Some (new_entry a finish cancel)).
  { apply map_find_middle. apply keys_below_entries. exact Hissued. }
  split; [exact (Add_spec a finish cancel w b Hb Hissued) |].
  split; [exact Hfind |].
  split; [intros id' Hne; apply map_find_snoc_other; exact Hne |].
  split; [unfold IsDone; simpl; fold entries'; rewrite Hfind; reflexivity |].
  split; [intros Hsorted; apply sorted_keys_snoc; assumption |].
  split; [intros w0; reflexivity |].
  intros w0 Hnone. unfold Add. rewrite Hnone. reflexivity.
Qed.

(** X12. [Add] followed by [Remove] of the identifier it returned, for an
    unfinished awaiter and while that identifier is not the one being
    resumed: the cancel callback is called, once, and the finish callback
    is not, whether the cancel callback throws or not.  When it returns
    normally the entries are those of before [Add] again (only the counter
    has advanced).  When it throws, its exception leaves [Remove] and the
    entry stays registered. *)
Theorem Add_then_Remove (a : A) (finish cancel : option Callback) w b :
  s_pInstance w = Some b -> ids_issued b ->
  optN_eqb (m_currentAwaiterID b) (m_nextAwaiterID b) = false ->
  done a = false ->
  let id := m_nextAwaiterID b in
  let thrown := match cancel with
                | Some cb => cb_throws cb
                | None => None
                end in
  let events : Trace (R:=R) :=
    match cancel with
    | Some cb => [CancelCalled (cb_label cb)]
    | None => []
    end in
  Remove id (snd (Add (Some a) finish cancel w)) =
    (thrown,
     {| s_pInstance :=
          Some {| m_nextAwaiterID := uint64_succ id;
                  m_currentAwaiterID := m_currentAwaiterID b;
                  m_currentAwaiterRemovalNeeded := m_currentAwaiterRemovalNeeded b;
                  m_awaiterEntries :=
                    match thrown with
                    | None => m_awaiterEntries b
                    | Some _ =>
                        m_awaiterEntries b ++ [(id, new_entry a finish cancel)]
                    end |};
        trace := trace w ++ events |}).
Proof.
  intros Hb Hissued Hcur Hdone id thrown events.
  rewrite (Add_spec a finish cancel w b Hb Hissued). simpl.
  unfold Remove. simpl. subst id. rewrite Hcur.
  rewrite (map_find_middle _ _ _ [] (keys_below_entries _ _ Hissued)).
  rewrite (callEndCallback_unfinished (new_entry a finish cancel) _ Hdone). simpl.
  unfold call_cancel, thrown, events.
  destruct cancel as [[label [exn |]] |]; unfold set_trace, set_instance, set_entries;
    simpl.
  - rewrite map_assign_same; [reflexivity |].
    apply map_find_middle. apply keys_below_entries. exact Hissued.
  - rewrite (map_erase_middle _ _ _ [] (keys_below_entries _ _ Hissued)).
    rewrite app_nil_r. reflexivity.
  - rewrite (map_erase_middle _ _ _ [] (keys_below_entries _ _ Hissued)).
    rewrite !app_nil_r. reflexivity.
Qed.

(** X13. [IsDone(id)] between two calls into an initialised backend, when
    every registered awaiter is unfinished and every identifier in use is
    below [m_nextAwaiterID]: it never throws, and it is true exactly for the
    identifiers below [m_nextAwaiterID] that are not registered.  These are
    the identifiers that were handed out and have been erased since, and
    also 0, which is never handed out (the counter starts at 1): on a fresh
    backend [IsDone] is true for 0 and for no other identifier. *)
Theorem IsDone_iff_below_counter_and_gone id w b :
  s_pInstance w = Some b ->
  entries_wf (m_awaiterEntries b) -> ids_issued b ->
  (exists d : bool,
     IsDone id w = Ok d /\
     (d = true <->
      id < m_nextAwaiterID b /\ ~ In id (keys (m_awaiterEntries b)))) /\
  (forall (id' : AwaiterID) tr,
     IsDone id' {| s_pInstance := Some (Backend_new (A:=A)); trace := tr |}
     = Ok (N.eqb id' 0)).
Proof.
  intros Hb [_ Hall] Hissued. split.
  - unfold IsDone. rewrite Hb.
    destruct (map_find id (m_awaiterEntries b)) as [e |] eqn:Hfind.
    + apply map_find_In in Hfind.
      exists (done (awaiter e)). split; [reflexivity |].
      rewrite Forall_forall in Hall.
      pose proof (Hall (id, e) (proj2 (list_elem_of_In _ _) Hfind)) as He.
      simpl in He. rewrite He.
      split; [discriminate |]. intros [_ Hnot]. exfalso. apply Hnot.
      unfold keys. apply in_map_iff. exists (id, e). split; [reflexivity | exact Hfind].
    + exists (N.ltb id (m_nextAwaiterID b)). split; [reflexivity |].
      rewrite N.ltb_lt. split.
      * intros Hlt. split; [exact Hlt |]. intros Hin.
        destruct (map_find_of_key id _ Hin) as [e He]. congruence.
      * intros [Hlt _]. exact Hlt.
  - intros id' tr. unfold IsDone. simpl. f_equal.
    destruct (N.ltb_spec id' 1), (N.eqb_spec id' 0); try reflexivity; lia.
Qed.

End RegistryExtraFacts.

(** ** [update] adds nothing *)

Section UpdateExtraFacts.
Context {R A : Type} `{!TaskAwaiter R A}.
Implicit Types (m : EntryMap (A:=A)) (e : AwaiterEntry (A:=A)).
Implicit Types (b : Backend (A:=A)) (w : World (R:=R) (A:=A)) (tr : Trace (R:=R)).
Implicit Types (id : AwaiterID).

Lemma no_new_entries_refl b : no_new_entries b b.
Proof. split; reflexivity. Qed.

Lemma no_new_entries_trans b1 b2 b3 :
  no_new_entries b1 b2 -> no_new_entries b2 b3 -> no_new_entries b1 b3.
Proof.
  intros [Hs12 Hn12] [Hs23 Hn23]. split; [| congruence].
  etransitivity; eassumption.
Qed.

Lemma Remove_no_new_entries id w b :
  s_pInstance w = Some b ->
  exists b', s_pInstance (snd (Remove id w)) = Some b' /\ no_new_entries b b'.
Proof.
  intros Hb. unfold Remove. rewrite Hb.
  destruct (optN_eqb (m_currentAwaiterID b) id).
  - eexists. split; [reflexivity |]. split; reflexivity.
  - destruct (map_find id (m_awaiterEntries b)) as [e |];
      [| exists b; split; [exact Hb | apply no_new_entries_refl]].
    destruct (callEndCallback e (trace w)) as [[[exn |] e'] tr'].
    + eexists. split; [reflexivity |]. split; [| reflexivity].
      simpl. rewrite keys_map_assign. reflexivity.
    + eexists. split; [reflexivity |]. split; [| reflexivity].
      simpl. apply keys_map_erase_sublist.
Qed.

Lemma run_no_new_entries {X : Type} (p : Prog X) : forall w b,
  s_pInstance w = Some b ->
  exists b', s_pInstance (snd (run p w)) = Some b' /\ no_new_entries b b'.
Proof.
  induction p as [x | msg k IH | id k IH]; intros w b Hb; simpl.
  - exists b. split; [exact Hb | apply no_new_entries_refl].
  - apply IH. exact Hb.
  - destruct (Remove_no_new_entries id w b Hb) as (b1 & Hb1 & Hno1).
    destruct (Remove id w) as [thrown w1]. simpl in Hb1.
    destruct (IH thrown w1 b1 Hb1) as (b' & Hb' & Hno').
    exists b'. split; [exact Hb' |]. exact (no_new_entries_trans _ _ _ Hno1 Hno').
Qed.

Lemma update_iteration_no_new_entries id (exceptionPtr : option Exn) w b :
  s_pInstance w = Some b ->
  exists b',
    s_pInstance (snd (update_iteration id exceptionPtr w)) = Some b' /\
    no_new_entries b b'.
Proof.
  intros Hb. unfold update_iteration. rewrite Hb.
  destruct (map_find id (m_awaiterEntries b)) as [entry |];
    [| exists b; split; [exact Hb | apply no_new_entries_refl]].
  destruct (run_no_new_entries (resume (awaiter entry))
              (set_instance (set_current (Some id) b) w) (set_current (Some id) b)
              eq_refl) as (b1 & Hb1 & [Hsub1 Hnext1]).
  destruct (run (resume (awaiter entry)) (set_instance (set_current (Some id) b) w))
    as [a1 w1]. simpl in Hb1. rewrite Hb1. simpl in Hsub1, Hnext1.
  destruct (m_currentAwaiterRemovalNeeded b1 || done a1).
  - destruct (callEndCallback (set_awaiter a1 entry) (trace w1)) as [[thrown e'] tr2].
    simpl. eexists. split; [reflexivity |]. split; [| exact Hnext1]. simpl.
    rewrite map_erase_assign.
    etransitivity; [apply keys_map_erase_sublist | exact Hsub1].
  - simpl. eexists. split; [reflexivity |]. split; [| exact Hnext1]. simpl.
    rewrite keys_map_assign. exact Hsub1.
Qed.

Lemma update_loop_no_new_entries (fuel : nat) :
  forall (it : option AwaiterID) (exceptionPtr : option Exn) w b exn w',
    s_pInstance w = Some b ->
    update_loop fuel it exceptionPtr w = Some (exn, w') ->
    exists b', s_pInstance w' = Some b' /\ no_new_entries b b'.
Proof.
  induction fuel as [| fuel IH]; intros it exceptionPtr w b exn w' Hb Hloop.
  - destruct it; [discriminate |]. injection Hloop as <- <-.
    exists b. split; [exact Hb | apply no_new_entries_refl].
  - destruct it as [id |];
      [| injection Hloop as <- <-; exists b;
         split; [exact Hb | apply no_new_entries_refl]].
    simpl in Hloop.
    destruct (update_iteration_no_new_entries id exceptionPtr w b Hb)
      as (b1 & Hb1 & Hno1).
    destruct (update_iteration id exceptionPtr w) as [[exn1 it1] w1].
    simpl in Hb1.
    destruct (IH it1 exn1 w1 b1 exn w' Hb1 Hloop) as (b' & Hb' & Hno').
    exists b'. split; [exact Hb' |]. exact (no_new_entries_trans _ _ _ Hno1 Hno').
Qed.

Lemma update_no_new_entries w b (exn : option Exn) w' :
  s_pInstance w = Some b ->
  update w = Some (exn, w') ->
  exists b',
    s_pInstance w' = Some b' /\ m_currentAwaiterID b' = None /\ no_new_entries b b'.
Proof.
  intros Hb Hupdate. unfold update in Hupdate. rewrite Hb in Hupdate.
  destruct (update_loop (length (m_awaiterEntries b)) (map_begin (m_awaiterEntries b))
                        None w) as [[exn1 w1] |] eqn:Hloop; [| discriminate].
  destruct (update_loop_no_new_entries _ _ _ _ _ _ _ Hb Hloop) as (b1 & Hb1 & Hno).
  rewrite Hb1 in Hupdate. injection Hupdate as <- <-.
  exists (set_current None b1). split; [reflexivity |]. split; [reflexivity | exact Hno].
Qed.

Lemma Forall_of_sublist {X : Type} (P : X -> Prop) (l' l : list X) :
  sublist l' l -> Forall P l -> Forall P l'.
Proof.
  induction 1 as [| x l1 l2 _ IH | x l1 l2 _ IH]; intros Hall.
  - constructor.
  - apply Forall_cons in Hall as [Hx Hall]. constructor; [exact Hx | exact (IH Hall)].
  - apply Forall_cons in Hall as [_ Hall]. exact (IH Hall).
Qed.

Lemma ids_issued_no_new_entries b b' :
  ids_issued b -> no_new_entries b b' -> ids_issued b'.
Proof.
  unfold ids_issued. intros Hissued [Hsub Hnext]. rewrite Hnext.
  exact (Forall_of_sublist _ _ _ Hsub Hissued).
Qed.


(** X15. Spawning ([ScopedTaskRunner] constructor, [Task::runScoped]) an
    awaiter that is still unfinished after its first resume.  The first
    resume runs in any case.  Without a backend instance the constructor
    then throws [Backend is not initialized].  With one, the awaiter is
    registered, as resumed, under the next identifier and after all other
    entries; no callback is called; the runner holds that identifier and
    its [done()] is false. *)
Theorem spawn_of_unfinished_task (a : A) (finish cancel : option Callback) w :
  done a = false ->
  done (fst (run (resume a) w)) = false ->
  let a1 := fst (run (resume a) w) in
  let w1 := snd (run (resume a) w) in
  (s_pInstance w1 = None ->
   ScopedTaskRunner_new a finish cancel w
   = (Raise (SivError BackendNotInitialized), w1)) /\
  (forall b1, s_pInstance w1 = Some b1 -> ids_issued b1 ->
     let id := m_nextAwaiterID b1 in
     let w2 :=
       {| s_pInstance :=
            Some {| m_nextAwaiterID := uint64_succ id;
                    m_currentAwaiterID := m_currentAwaiterID b1;
                    m_currentAwaiterRemovalNeeded := m_currentAwaiterRemovalNeeded b1;
                    m_awaiterEntries :=
                      m_awaiterEntries b1 ++ [(id, new_entry a1 finish cancel)] |};
          trace := trace w1 |} in
     ScopedTaskRunner_new a finish cancel w = (Ok {| m_id := Some id |}, w2) /\
     ScopedTaskRunner_done {| m_id := Some id |} w2 = Ok false).
Proof.
  intros Hdone Hdone1 a1 w1.
  unfold ScopedTaskRunner_new, ResumeAwaiterOnceAndRegisterIfNotDone.
  rewrite Hdone. rewrite (surjective_pairing (run (resume a) w)).
  fold a1 w1. fold a1 in Hdone1. rewrite Hdone1.
  split.
  - intros Hnone. unfold Add. rewrite Hnone. reflexivity.
  - intros b1 Hb1 Hissued.
    rewrite (Add_spec a1 finish cancel w1 b1 Hb1 Hissued).
    split; [reflexivity |].
    unfold ScopedTaskRunner_done, IsDone. simpl.
    rewrite (map_find_middle _ _ _ [] (keys_below_entries _ _ Hissued)).
    simpl. rewrite Hdone1. reflexivity.
Qed.

(** X16. The state the registry is in between two frames is kept by
    everything that can be called then.  Say a backend is in order when no
    entry is being resumed, the removal flag is down, the map is in key
    order, every registered awaiter is unfinished and every registered
    identifier is below [m_nextAwaiterID].  A fresh backend is in order;
    [Remove(id)] for any [id], [update()], and the spawn of any awaiter
    (while the identifier counter does not wrap) take a backend in order
    to a backend in order. *)
Theorem backend_stays_in_order w b :
  s_pInstance w = Some b -> backend_idle b -> ids_issued b ->
  (forall id : AwaiterID,
     exists b', s_pInstance (snd (Remove id w)) = Some b' /\
                backend_idle b' /\ ids_issued b') /\
  (forall (exn : option Exn) w',
     update w = Some (exn, w') ->
     exists b', s_pInstance w' = Some b' /\ backend_idle b' /\ ids_issued b') /\
  (forall (a : A) (finish cancel : option Callback),
     m_nextAwaiterID b + 1 < 2 ^ 64 ->
     exists b',
       s_pInstance (snd (ScopedTaskRunner_new a finish cancel w)) = Some b' /\
       backend_idle b' /\ ids_issued b') /\
  backend_idle (Backend_new (A:=A)) /\ ids_issued (Backend_new (A:=A)).
Proof.
  intros Hb Hidle Hissued.
  assert (Hworld : world_idle w).
  { intros b0 Hb0. rewrite Hb in Hb0. injection Hb0 as <-. exact Hidle. }
  split; [| split; [| split]].
  - intros id.
    destruct (Remove_no_new_entries id w b Hb) as (b' & Hb' & Hno).
    exists b'. split; [exact Hb' |].
    split; [exact (Remove_idle id w Hworld b' Hb') |].
    exact (ids_issued_no_new_entries b b' Hissued Hno).
  - intros exn w' Hupdate.
    destruct (update_no_new_entries w b exn w' Hb Hupdate) as (b' & Hb' & _ & Hno).
    exists b'. split; [exact Hb' |].
    split; [exact (update_idle w exn w' Hworld Hupdate b' Hb') |].
    exact (ids_issued_no_new_entries b b' Hissued Hno).
  - intros a finish cancel Hsmall.
    pose proof (ResumeAwaiterOnceAndRegisterIfNotDone_idle a finish cancel w Hworld)
      as Hidle'.
    assert (Hsnd : snd (ScopedTaskRunner_new a finish cancel w)
                   = snd (ResumeAwaiterOnceAndRegisterIfNotDone a finish cancel w)).
    { unfold ScopedTaskRunner_new.
      destruct (ResumeAwaiterOnceAndRegisterIfNotDone a finish cancel w)
        as [[id | e] w']; reflexivity. }
    rewrite Hsnd.
    assert (Hstate :
              exists b', s_pInstance
                           (snd (ResumeAwaiterOnceAndRegisterIfNotDone a finish cancel w))
                         = Some b' /\ ids_issued b').
    { unfold ResumeAwaiterOnceAndRegisterIfNotDone.
      destruct (done a).
      - destruct (fnCallFinishCallback finish cancel a (trace w))
          as [[[exn |] a'] tr']; exists b; split; assumption.
      - destruct (run_no_new_entries (resume a) w b Hb) as (b1 & Hb1 & Hno1).
        pose proof (ids_issued_no_new_entries b b1 Hissued Hno1) as Hissued1.
        destruct (run (resume a) w) as [a1 w1]. simpl in Hb1.
        destruct (done a1).
        + destruct (fnCallFinishCallback finish cancel a1 (trace w1))
            as [[[exn |] a'] tr']; exists b1; split; assumption.
        + rewrite (Add_spec a1 finish cancel w1 b1 Hb1 Hissued1).
          eexists. split; [reflexivity |].
          unfold ids_issued, keys in *. cbn [m_nextAwaiterID m_awaiterEntries].
          destruct Hno1 as [_ Hnext1]. rewrite Hnext1.
          unfold uint64_succ. rewrite N.mod_small by exact Hsmall.
          rewrite map_app. apply Forall_app. split.
          * rewrite Hnext1 in Hissued1.
            eapply Forall_impl; [exact Hissued1 |]. intros k Hk. simpl in Hk. lia.
          * repeat constructor. simpl. lia. }
    destruct Hstate as (b' & Hb' & Hissued').
    exists b'. split; [exact Hb' |]. split; [exact (Hidle' b' Hb') | exact Hissued'].
  - split; [| constructor].
    repeat split; simpl; constructor.
Qed.

End UpdateExtraFacts.

(** ** [ScopedTaskRunner] and [MultiRunner] *)

Section RunnerFacts.
Context {R A : Type} `{!TaskAwaiter R A}.
Implicit Types (m : EntryMap (A:=A)) (e : AwaiterEntry (A:=A)).
Implicit Types (b : Backend (A:=A)) (w : World (R:=R) (A:=A)) (tr : Trace (R:=R)).
Implicit Types (id : AwaiterID) (r : ScopedTaskRunner).

(** [Remove] of a registered, unfinished entry that is not being resumed. *)
Lemma Remove_unfinished id w b e :
  s_pInstance w = Some b ->
  map_find id (m_awaiterEntries b) = Some e ->
  done (awaiter e) = false ->
  optN_eqb (m_currentAwaiterID b) id = false ->
  Remove id w =
    (fst (call_cancel (cancelCallback e) (trace w)),
     {| s_pInstance :=
          Some (match fst (call_cancel (cancelCallback e) (trace w)) with
                | None => set_entries (map_erase id (m_awaiterEntries b)) b
                | Some _ => b
                end);
        trace := snd (call_cancel (cancelCallback e) (trace w)) |}).
Proof.
  intros Hb Hfind Hdone Hcur. unfold Remove. rewrite Hb, Hcur, Hfind.
  rewrite (callEndCallback_unfinished e _ Hdone).
  destruct (call_cancel (cancelCallback e) (trace w)) as [[exn |] tr'];
    unfold set_trace, set_instance; simpl.
  - rewrite (map_assign_same _ _ _ Hfind), set_entries_same. reflexivity.
  - reflexivity.
Qed.

(** X17. A [ScopedTaskRunner] that owns a registered, unfinished entry.
    - While the entry is not the one being resumed and its cancel callback
      does not throw, [requestCancel()] calls the cancel callback and erases
      the entry, and the destructor alone does the same.
    - When the entry is the one being resumed (the runner is cancelled or
      destroyed from inside the resume of its own task), [requestCancel()]
      and the destructor only raise the removal flag: no callback is
      called and nothing is erased by them.
    - In both cases [requestCancel()] leaves the runner empty: its [done()]
      is true, and a second [requestCancel()] or the destructor changes
      nothing, so the runner cannot make the callback be called twice.
    - [forget()] empties the runner without touching the backend: the entry
      stays registered and [IsDone] of it stays false although [done()] of
      the runner is now true.  After a move the moved-from runner is empty
      and the new one owns the entry. *)
Theorem ScopedTaskRunner_releases_once id w b e :
  s_pInstance w = Some b ->
  sorted_keys (m_awaiterEntries b) ->
  map_find id (m_awaiterEntries b) = Some e ->
  done (awaiter e) = false ->
  let r := {| m_id := Some id |} in
  let gone := {| m_id := None |} in
  let thrown := match cancelCallback e with
                | Some cb => cb_throws cb
                | None => None
                end in
  let events : Trace (R:=R) :=
    match cancelCallback e with
    | Some cb => [CancelCalled (cb_label cb)]
    | None => []
    end in
  let erased :=
    {| s_pInstance := Some (set_entries (map_erase id (m_awaiterEntries b)) b);
       trace := trace w ++ events |} in
  let flagged :=
    {| s_pInstance := Some (set_removalNeeded true b); trace := trace w |} in
  ScopedTaskRunner_done r w = Ok false /\
  (optN_eqb (m_currentAwaiterID b) id = false -> thrown = None ->
   ScopedTaskRunner_requestCancel r w = (None, gone, erased) /\
   ScopedTaskRunner_destroy r w = (None, erased)) /\
  (m_currentAwaiterID b = Some id ->
   ScopedTaskRunner_requestCancel r w = (None, gone, flagged) /\
   ScopedTaskRunner_destroy r w = (None, flagged) /\
   map_find id (m_awaiterEntries (set_removalNeeded true b)) = Some e) /\
  map_find id (map_erase id (m_awaiterEntries b)) = None /\
  (forall w0 : World (R:=R) (A:=A),
     ScopedTaskRunner_done gone w0 = Ok true /\
     ScopedTaskRunner_requestCancel gone w0 = (None, gone, w0) /\
     ScopedTaskRunner_destroy gone w0 = (None, w0)) /\
  ScopedTaskRunner_forget r = gone /\
  IsDone id w = Ok false /\
  ScopedTaskRunner_move r = (r, gone).
Proof.
  intros Hb Hsorted Hfind Hdone r gone thrown events erased flagged.
  assert (His : IsDone id w = Ok false).
  { unfold IsDone. rewrite Hb, Hfind, Hdone. reflexivity. }
  split; [exact His |].
  split.
  { intros Hcur Hquiet.
    pose proof (Remove_unfinished id w b e Hb Hfind Hdone Hcur) as Hremove.
    assert (Hcall : call_cancel (cancelCallback e) (trace w)
                    = (thrown, trace w ++ events)).
    { unfold call_cancel, thrown, events.
      destruct (cancelCallback e); [reflexivity | rewrite app_nil_r; reflexivity]. }
    rewrite Hcall in Hremove. cbn [fst snd] in Hremove. rewrite Hquiet in Hremove.
    fold erased in Hremove.
    split; [unfold ScopedTaskRunner_requestCancel; simpl; rewrite Hremove; reflexivity |].
    exact Hremove. }
  split.
  { intros Hcur.
    assert (Hremove : Remove id w = (None, flagged)).
    { unfold Remove. rewrite Hb, Hcur. simpl. rewrite N.eqb_refl. reflexivity. }
    split; [unfold ScopedTaskRunner_requestCancel; simpl; rewrite Hremove; reflexivity |].
    split; [exact Hremove | exact Hfind]. }
  split; [apply map_find_erase_sorted; exact Hsorted |].
  split; [intros w0; repeat split |].
  split; [reflexivity |]. split; [exact His | reflexivity].
Qed.

(** X18. The same runner when its cancel callback throws: [requestCancel()]
    lets the exception through after the callback has run, and neither
    erases the entry nor gives up the identifier ([erase] and
    [m_id.reset()] are not reached).  The entry is still registered, so a
    second [requestCancel()] calls the cancel callback again. *)
Theorem requestCancel_with_throwing_cancel_callback id w b e (exn : Exn) :
  s_pInstance w = Some b ->
  map_find id (m_awaiterEntries b) = Some e ->
  done (awaiter e) = false ->
  optN_eqb (m_currentAwaiterID b) id = false ->
  fst (call_cancel (cancelCallback e) (trace w)) = Some exn ->
  let r := {| m_id := Some id |} in
  let w' := {| s_pInstance := Some b;
               trace := snd (call_cancel (cancelCallback e) (trace w)) |} in
  ScopedTaskRunner_requestCancel r w = (Some exn, r, w') /\
  IsDone id w' = Ok false /\
  ScopedTaskRunner_requestCancel r w'
  = (Some exn, r,
     {| s_pInstance := Some b;
        trace := snd (call_cancel (cancelCallback e) (trace w')) |}) /\
  exists label,
    snd (call_cancel (cancelCallback e) (trace w'))
    = trace w ++ [CancelCalled label; CancelCalled label].
Proof.
  intros Hb Hfind Hdone Hcur Hthrows r w'.
  pose proof (Remove_unfinished id w b e Hb Hfind Hdone Hcur) as Hremove.
  rewrite Hthrows in Hremove. fold w' in Hremove.
  assert (Hthrows' : fst (call_cancel (cancelCallback e) (trace w')) = Some exn).
  { rewrite call_cancel_appends in Hthrows |- *. exact Hthrows. }
  pose proof (Remove_unfinished id w' b e eq_refl Hfind Hdone Hcur) as Hremove'.
  rewrite Hthrows' in Hremove'.
  split; [unfold ScopedTaskRunner_requestCancel; simpl; rewrite Hremove; reflexivity |].
  split; [unfold IsDone; simpl; rewrite Hfind, Hdone; reflexivity |].
  split; [unfold ScopedTaskRunner_requestCancel; simpl; rewrite Hremove'; reflexivity |].
  destruct (cancelCallback e) as [cb |]; [| discriminate Hthrows].
  exists (cb_label cb). simpl. rewrite <- app_assoc. reflexivity.
Qed.

(** *** [MultiRunner] *)

Lemma requestCancel_each_spec (runners : list ScopedTaskRunner) :
  forall w runners' w',
    requestCancel_each runners w = (None, runners', w') ->
    runners' = map (fun _ => {| m_id := None |}) runners.
Proof.
  induction runners as [| r rest IH]; intros w runners' w' Hall; simpl in Hall.
  - injection Hall as <- <-. reflexivity.
  - unfold ScopedTaskRunner_requestCancel in Hall.
    destruct (m_id r) as [id |] eqn:Hid.
    + destruct (Remove id w) as [[exn |] w1]; [discriminate |].
      destruct (requestCancel_each rest w1) as [[thrown rest'] w''] eqn:Hrest.
      injection Hall as -> <- <-. simpl. rewrite (IH _ _ _ Hrest). reflexivity.
    + destruct (requestCancel_each rest w) as [[thrown rest'] w''] eqn:Hrest.
      injection Hall as -> <- <-. simpl. rewrite (IH _ _ _ Hrest).
      destruct r as [o]. simpl in Hid. subst o. reflexivity.
Qed.

Lemma gone_runners_done (n : list ScopedTaskRunner) w :
  all_of_done (map (fun _ => {| m_id := None |}) n) w = Ok true /\
  any_of_done (map (fun _ => {| m_id := None |}) n) w
  = Ok (negb (Nat.eqb (length n) 0)) /\
  requestCancel_each (map (fun _ => {| m_id := None |}) n) w
  = (None, map (fun _ => {| m_id := None |}) n, w).
Proof.
  induction n as [| r rest (IHall & IHany & IHcancel)]; simpl;
    [repeat split |].
  split; [exact IHall |]. split; [reflexivity |].
  rewrite IHcancel. reflexivity.
Qed.

(** X19. When [MultiRunner::requestCancelAll()] returns normally, every
    runner it holds is empty, and as many runners are held as before.  From
    then on, in whatever state the backend is (even released), [allDone()]
    is true, [anyDone()] is true unless no runner is held, and another
    [requestCancelAll()] changes nothing. *)
Theorem requestCancelAll_empties_every_runner (mr mr' : MultiRunner) w w' :
  MultiRunner_requestCancelAll mr w = (None, mr', w') ->
  m_runners mr' = map (fun _ => {| m_id := None |}) (m_runners mr) /\
  forall w0 : World (R:=R) (A:=A),
    MultiRunner_allDone mr' w0 = Ok true /\
    MultiRunner_anyDone mr' w0 = Ok (negb (Nat.eqb (length (m_runners mr)) 0)) /\
    MultiRunner_requestCancelAll mr' w0 = (None, mr', w0).
Proof.
  unfold MultiRunner_requestCancelAll, MultiRunner_allDone, MultiRunner_anyDone.
  intros Hall.
  destruct (requestCancel_each (m_runners mr) w) as [[thrown runners'] w1] eqn:Heach.
  injection Hall as -> <- <-.
  pose proof (requestCancel_each_spec _ _ _ _ Heach) as Hgone. simpl.
  split; [exact Hgone |].
  intros w0. rewrite Hgone.
  destruct (gone_runners_done (m_runners mr) w0) as (Hall & Hany & Hcancel).
  split; [exact Hall |]. split; [exact Hany |]. rewrite Hcancel. reflexivity.
Qed.

(** X20. With a backend instance, [MultiRunner::allDone()] and
    [anyDone()] never throw: [allDone()] is true exactly when [done()] of
    every runner is true, [anyDone()] exactly when [done()] of some runner
    is.  So for a [MultiRunner] without runners [allDone()] is true and
    [anyDone()] is false, and otherwise [allDone()] implies [anyDone()]. *)
Theorem MultiRunner_done_queries (mr : MultiRunner) w b :
  s_pInstance w = Some b ->
  exists all any : bool,
    MultiRunner_allDone mr w = Ok all /\
    MultiRunner_anyDone mr w = Ok any /\
    (all = true <-> Forall (fun r => ScopedTaskRunner_done r w = Ok true) (m_runners mr)) /\
    (any = true <-> Exists (fun r => ScopedTaskRunner_done r w = Ok true) (m_runners mr)) /\
    (m_runners mr = [] -> all = true /\ any = false) /\
    (m_runners mr <> [] -> all = true -> any = true).
Proof.
  intros Hb. unfold MultiRunner_allDone, MultiRunner_anyDone.
  assert (Hdone : forall r, exists d : bool, ScopedTaskRunner_done r w = Ok d).
  { intros [[id |]]; unfold ScopedTaskRunner_done, IsDone; simpl; [| eauto].
    rewrite Hb. destruct (map_find id (m_awaiterEntries b)); eauto. }
  induction (m_runners mr) as [| r rest (all & any & Hall & Hany & Hiff1 & Hiff2 & _ & Himp)].
  - exists true, false. simpl. repeat split; try discriminate; try constructor.
    + intros Hex. inversion Hex.
    + intros Hne. contradiction.
  - destruct (Hdone r) as [d Hd]. simpl. rewrite Hd.
    destruct d.
    + exists all, true. rewrite Hall.
      split; [reflexivity |]. split; [reflexivity |].
      split.
      { rewrite Hiff1. split.
        - intros Hrest. constructor; assumption.
        - intros Hcons. apply Forall_cons in Hcons as [_ Hrest]. exact Hrest. }
      split; [split; [intros _; left; exact Hd | reflexivity] |].
      split; [discriminate | reflexivity].
    + exists false, any. rewrite Hany.
      split; [reflexivity |]. split; [reflexivity |].
      split.
      { split; [discriminate |]. intros Hcons.
        apply Forall_cons in Hcons as [Hr _]. congruence. }
      split.
      { rewrite Hiff2. split.
        - intros Hrest. right. exact Hrest.
        - intros Hex. apply Exists_cons in Hex as [Hr | Hrest]; [congruence | exact Hrest]. }
      split; [discriminate | discriminate].
Qed.

End RunnerFacts.

(** *** Runs on the example states *)

Lemma world_with_four_tasks_backend :
  s_pInstance world_with_four_tasks = Some (backend_of world_with_four_tasks).
Proof. reflexivity. Qed.

Lemma world_with_four_tasks_wf :
  entries_wf (m_awaiterEntries (backend_of world_with_four_tasks)) /\
  ids_issued (backend_of world_with_four_tasks).
Proof.
  split; [split |].
  - unfold sorted_keys. vm_compute. repeat constructor.
  - vm_compute. repeat constructor.
  - unfold ids_issued. vm_compute. repeat constructor.
Qed.

(** A fifth task added to [world_with_four_tasks] gets identifier 5. *)
Lemma Add_registers_under_next_id_witness :
  fst (Add (Some three_frames) (callback "E finished") (callback "E cancelled")
           world_with_four_tasks) = Ok 5.
Proof.
  destruct (Add_registers_under_next_id three_frames
              (callback "E finished") (callback "E cancelled")
              world_with_four_tasks (backend_of world_with_four_tasks)
              world_with_four_tasks_backend (proj2 world_with_four_tasks_wf))
    as (Hadd & _).
  rewrite Hadd. reflexivity.
Defined.

Lemma Add_then_Remove_witness :
  Remove 5 (snd (Add (Some three_frames) (callback "E finished")
                     (throwing_callback "E cancelled" 6) world_with_four_tasks))
  = (Some (UserException 6),
     {| s_pInstance :=
          s_pInstance (snd (Add (Some three_frames) (callback "E finished")
                                (throwing_callback "E cancelled" 6)
                                world_with_four_tasks));
        trace := trace world_with_four_tasks ++ [CancelCalled "E cancelled"] |}).
Proof.
  exact (Add_then_Remove (TaskAwaiter0:=Task_TaskAwaiter) three_frames
           (callback "E finished") (throwing_callback "E cancelled" 6)
           world_with_four_tasks (backend_of world_with_four_tasks)
           world_with_four_tasks_backend (proj2 world_with_four_tasks_wf)
           eq_refl eq_refl).
Defined.

(** In [world_with_four_tasks] the identifiers 1 to 4 are registered: 3 is
    not done, and neither is 7, which was never handed out. *)
Lemma IsDone_iff_below_counter_and_gone_witness :
  exists d : bool,
    IsDone 7 world_with_four_tasks = Ok d /\
    (d = true <->
     7 < m_nextAwaiterID (backend_of world_with_four_tasks) /\
     ~ In 7 (keys (m_awaiterEntries (backend_of world_with_four_tasks)))).
Proof.
  exact (proj1 (IsDone_iff_below_counter_and_gone 7 world_with_four_tasks
                  (backend_of world_with_four_tasks) world_with_four_tasks_backend
                  (proj1 world_with_four_tasks_wf) (proj2 world_with_four_tasks_wf))).
Defined.


(** [three_frames] spawned in a fresh program is registered under
    identifier 1; spawned without a backend it is resumed once and the
    constructor throws. *)
Lemma spawn_of_unfinished_task_witness :
  fst (ScopedTaskRunner_new three_frames (callback "finished") (callback "cancelled")
         world_after_Init) = Ok {| m_id := Some 1 |} /\
  ScopedTaskRunner_new three_frames (callback "finished") (callback "cancelled")
    world_without_backend
  = (Raise (SivError BackendNotInitialized),
     {| s_pInstance := None; trace := [Emitted "inner 1"] |}).
Proof.
  split.
  - destruct (spawn_of_unfinished_task (TaskAwaiter0:=Task_TaskAwaiter) three_frames
                (callback "finished") (callback "cancelled") world_after_Init
                eq_refl eq_refl) as [_ Hregistered].
    destruct (Hregistered Backend_new eq_refl (List.Forall_nil _)) as [Hnew _].
    rewrite Hnew. reflexivity.
  - destruct (spawn_of_unfinished_task (TaskAwaiter0:=Task_TaskAwaiter) three_frames
                (callback "finished") (callback "cancelled") world_without_backend
                eq_refl eq_refl) as [Hthrows _].
    exact (Hthrows eq_refl).
Defined.

Lemma ScopedTaskRunner_releases_once_witness :
  let w := world_with_first_task removing_itself_then_waiting
                                 "T finished" "T cancelled" in
  ScopedTaskRunner_requestCancel {| m_id := Some 1 |} w
  = (None, {| m_id := None |},
     {| s_pInstance := Some (set_entries [] (backend_of w));
        trace := [Emitted "T1"; CancelCalled "T cancelled"] |}).
Proof.
  intros w.
  assert (Hsorted : sorted_keys (m_awaiterEntries (backend_of w))).
  { unfold sorted_keys. vm_compute. repeat constructor. }
  destruct (ScopedTaskRunner_releases_once (TaskAwaiter0:=Task_TaskAwaiter) 1 w (backend_of w)
              (entry_of (fst (run (Task_resume removing_itself_then_waiting)
                                  world_after_Init))
                        "T finished" "T cancelled")
              eq_refl Hsorted eq_refl eq_refl)
    as (_ & Hcancel & _).
  exact (proj1 (Hcancel eq_refl eq_refl)).
Defined.

Lemma requestCancel_with_throwing_cancel_callback_witness :
  fst (fst (ScopedTaskRunner_requestCancel {| m_id := Some 1 |}
              world_with_throwing_cancel)) = Some (UserException 3) /\
  IsDone 1 (snd (ScopedTaskRunner_requestCancel {| m_id := Some 1 |}
                   world_with_throwing_cancel)) = Ok false.
Proof.
  destruct (requestCancel_with_throwing_cancel_callback (TaskAwaiter0:=Task_TaskAwaiter) 1
              world_with_throwing_cancel (backend_of world_with_throwing_cancel)
              (new_entry (fst (run (Task_resume three_frames) world_after_Init))
                         (callback "U finished") (throwing_callback "U cancelled" 3))
              (UserException 3)
              eq_refl eq_refl eq_refl eq_refl eq_refl)
    as (Hcancel & Hdone & _).
  split; [exact (f_equal (fun x => fst (fst x)) Hcancel) | exact Hdone].
Defined.

Lemma requestCancelAll_empties_every_runner_witness :
  m_runners (snd (fst (MultiRunner_requestCancelAll runners_1_3_none
                         world_with_four_tasks)))
  = [{| m_id := None |}; {| m_id := None |}; {| m_id := None |}].
Proof.
  destruct (requestCancelAll_empties_every_runner
              runners_1_3_none
              (snd (fst (MultiRunner_requestCancelAll runners_1_3_none
                           world_with_four_tasks)))
              world_with_four_tasks
              (snd (MultiRunner_requestCancelAll runners_1_3_none
                      world_with_four_tasks)))
    as (Hgone & _).
  - vm_compute. reflexivity.
  - rewrite Hgone. reflexivity.
Defined.

Lemma MultiRunner_done_queries_witness :
  exists all any : bool,
    MultiRunner_allDone runners_1_3_none world_with_four_tasks = Ok all /\
    MultiRunner_anyDone runners_1_3_none world_with_four_tasks = Ok any /\
    (all = true <->
     Forall (fun r => ScopedTaskRunner_done r world_with_four_tasks = Ok true)
            (m_runners runners_1_3_none)) /\
    (any = true <->
     Exists (fun r => ScopedTaskRunner_done r world_with_four_tasks = Ok true)
            (m_runners runners_1_3_none)) /\
    (m_runners runners_1_3_none = [] -> all = true /\ any = false) /\
    (m_runners runners_1_3_none <> [] -> all = true -> any = true).
Proof.
  exact (MultiRunner_done_queries runners_1_3_none world_with_four_tasks
           (backend_of world_with_four_tasks) world_with_four_tasks_backend).
Defined.

(** ** Coroutines that poll once per resume *)

Section PollingFacts.
Context {R' A' : Type} `{!TaskAwaiter R' A'}.
Context {F R : Type}.
Implicit Types (w : World (R:=R') (A:=A')).
Implicit Types (step : F -> Prog (option (Result R) * F)).
Implicit Types (body : F -> option Empty_set -> Prog (BodyStep Empty_set F R)).

Lemma polls_S step (n : nat) (fr : F) w :
  polls step (S n) fr w =
  match fst (fst (polls step n fr w)) with
  | Some _ => polls step n fr w
  | None =>
      (fst (fst (run (step (snd (fst (polls step n fr w)))) (snd (polls step n fr w)))),
       snd (fst (run (step (snd (fst (polls step n fr w)))) (snd (polls step n fr w)))),
       snd (run (step (snd (fst (polls step n fr w)))) (snd (polls step n fr w))))
  end.
Proof.
  simpl. destruct (polls step n fr w) as [[[r |] fr1] w1]; simpl; [reflexivity |].
  destruct (run (step fr1) w1) as [[outcome' fr2] w2]. reflexivity.
Qed.

(** The task after [n] resumes: suspended with the frame the polls left, or
    finished with what the last poll gave. *)
Lemma polling_ticks step body (fr0 : F) w :
  polls_with step body ->
  forall n : nat,
    exists fr_last : F,
      ticks n (Task_new (Conc:=Empty_set) (coroutine body fr0)) w =
      (match fst (fst (polls step n fr0 w)) with
       | None => Task_new (coroutine body (snd (fst (polls step n fr0 w))))
       | Some r =>
           Task_new (suspend_at (coroutine body fr_last)
                                (match r with
                                 | Ok v => CoReturn v
                                 | Raise e => Unhandled e
                                 end))
       end,
       snd (polls step n fr0 w)).
Proof.
  intros Hpolls. induction n as [| n [fr_last IH]].
  - exists fr0. reflexivity.
  - rewrite ticks_S, IH, polls_S. cbn [fst snd].
    destruct (fst (fst (polls step n fr0 w))) as [r |] eqn:Houtcome.
    + exists fr_last. rewrite Houtcome.
      apply run_Task_resume_done. destruct r; reflexivity.
    + exists (snd (fst (polls step n fr0 w))).
      cbn [resume Task_IAwaiter].
      rewrite run_Task_resume_plain by reflexivity.
      cbn [code locals coroutine]. rewrite Hpolls. cbn [fst snd].
      destruct (fst (fst (run (step (snd (fst (polls step n fr0 w))))
                              (snd (polls step n fr0 w))))) as [[v | e] |];
        reflexivity.
Qed.

(** What can be seen of the task after [n] resumes. *)
Lemma polling_task step body (fr0 : F) w (n : nat) :
  polls_with step body ->
  let t := ticks n (Task_new (Conc:=Empty_set) (coroutine body fr0)) w in
  let p := polls step n fr0 w in
  snd t = snd p /\
  completion_slot (fst t) = fst (fst p) /\
  Task_done (fst t) = match fst (fst p) with Some _ => true | None => false end.
Proof.
  intros Hpolls. cbv zeta.
  destruct (polling_ticks step body fr0 w Hpolls n) as [fr_last Hticks].
  rewrite Hticks. cbn [fst snd].
  destruct (fst (fst (polls step n fr0 w))) as [[v | e] |]; repeat split.
Qed.

(** Once a poll has ended the coroutine, no further poll is made. *)
Lemma polls_finished step (fr : F) w (n k : nat) :
  fst (fst (polls step n fr w)) <> None ->
  polls step (n + k) fr w = polls step n fr w.
Proof.
  intros Hdone. induction k as [| k IH].
  - rewrite Nat.add_0_r. reflexivity.
  - rewrite Nat.add_succ_r, polls_S, IH.
    destruct (fst (fst (polls step n fr w))); [reflexivity | contradiction].
Qed.

End PollingFacts.

Section PollingTheorems.
Context {R' A' : Type} `{!TaskAwaiter R' A'}.
Context {P : Type}.
Implicit Types (w : World (R:=R') (A:=A')).

Lemma WaitUntil_code_polls (predicate : P -> Prog (Result bool * P)) :
  polls_with (R':=R') (A':=A') (WaitUntil_poll predicate) (WaitUntil_code predicate).
Proof.
  intros fr o w. unfold WaitUntil_code, WaitUntil_poll. rewrite !run_bind.
  destruct (run (predicate fr) w) as [[[[|] | e] fr'] w']; reflexivity.
Qed.

Lemma WaitWhile_code_polls (predicate : P -> Prog (Result bool * P)) :
  polls_with (R':=R') (A':=A') (WaitWhile_poll predicate) (WaitWhile_code predicate).
Proof.
  intros fr o w. unfold WaitWhile_code, WaitWhile_poll. rewrite !run_bind.
  destruct (run (predicate fr) w) as [[[[|] | e] fr'] w']; reflexivity.
Qed.

Lemma WaitWhile_poll_negated (predicate : P -> Prog (Result bool * P)) (fr : P) w :
  run (WaitWhile_poll predicate fr) w = run (WaitUntil_poll (negated predicate) fr) w.
Proof.
  unfold WaitWhile_poll, WaitUntil_poll, negated. rewrite !run_bind.
  destruct (run (predicate fr) w) as [[[[|] | e] fr'] w']; reflexivity.
Qed.

Lemma polls_ext {F R : Type} (step step' : F -> Prog (option (Result R) * F)) :
  (forall fr w, run (step fr) w = run (step' fr) w) ->
  forall (n : nat) (fr : F) w, polls step n fr w = polls step' n fr w.
Proof.
  intros Hext n fr w. induction n as [| n IH]; [reflexivity |].
  rewrite !polls_S, IH, Hext. reflexivity.
Qed.

(** X21. [WaitUntil(predicate)] resumed [n] times has called the predicate
    once per resume, up to and including the first call that returned true
    or threw, and never again after it; it makes no other change to the
    program state.  It is done exactly when such a call has been made, and
    then holds the result (void) or the predicate's exception.
    [WaitWhile(predicate)] is the same with the call that first returns
    false, and behaves as [WaitUntil] of the opposite predicate. *)
Theorem WaitUntil_calls_predicate_once_per_resume
    (predicate : P -> Prog (Result bool * P)) (captured : P) w (n : nat) :
  (let t := ticks n (WaitUntil predicate captured) w in
   let p := polls (WaitUntil_poll predicate) n captured w in
   snd t = snd p /\
   completion_slot (fst t) = fst (fst p) /\
   Task_done (fst t) = match fst (fst p) with Some _ => true | None => false end) /\
  (let t := ticks n (WaitWhile predicate captured) w in
   let p := polls (WaitWhile_poll predicate) n captured w in
   snd t = snd p /\
   completion_slot (fst t) = fst (fst p) /\
   Task_done (fst t) = match fst (fst p) with Some _ => true | None => false end) /\
  polls (WaitWhile_poll predicate) n captured w
  = polls (WaitUntil_poll (negated predicate)) n captured w /\
  (forall k : nat,
     fst (fst (polls (WaitUntil_poll predicate) n captured w)) <> None ->
     polls (WaitUntil_poll predicate) (n + k) captured w
     = polls (WaitUntil_poll predicate) n captured w).
Proof.
  split; [exact (polling_task _ _ captured w n (WaitUntil_code_polls predicate)) |].
  split; [exact (polling_task _ _ captured w n (WaitWhile_code_polls predicate)) |].
  split; [apply polls_ext; apply WaitWhile_poll_negated |].
  intros k Hdone. apply polls_finished. exact Hdone.
Qed.

Lemma UpdaterTask_code_polls (updateFunc : P -> Prog (option Exn * P)) :
  polls_with (R':=R') (A':=A') (UpdaterTask_poll updateFunc) (UpdaterTask_code updateFunc).
Proof.
  intros fr o w. unfold UpdaterTask_code, UpdaterTask_poll. rewrite !run_bind.
  destruct (run (updateFunc fr) w) as [[[e |] fr'] w']; reflexivity.
Qed.

Lemma UpdaterTask_polls_never_return (updateFunc : P -> Prog (option Exn * P))
    (captured : P) w (n : nat) :
  forall v : unit,
    fst (fst (polls (UpdaterTask_poll updateFunc) n captured w)) <> Some (Ok v).
Proof.
  intros v. induction n as [| n IH]; [discriminate |].
  rewrite polls_S.
  destruct (fst (fst (polls (UpdaterTask_poll updateFunc) n captured w)))
    as [r |] eqn:Hn; [rewrite Hn; exact IH |].
  cbn [fst snd]. unfold UpdaterTask_poll. rewrite run_bind.
  destruct (run (updateFunc _) _) as [[[e |] fr'] w']; discriminate.
Qed.

(** X22. [UpdaterTask(updateFunc)] resumed [n] times has called
    [updateFunc] once per resume, up to and including the first call that
    threw.  It never completes normally: it is done only when a call of
    [updateFunc] has thrown, and then holds that exception.
    [WaitForever()] is never done, and resuming it changes nothing. *)
Theorem UpdaterTask_never_returns
    (updateFunc : P -> Prog (option Exn * P)) (captured : P) w (n : nat) :
  (let t := ticks n (UpdaterTask updateFunc captured) w in
   let p := polls (UpdaterTask_poll updateFunc) n captured w in
   snd t = snd p /\
   completion_slot (fst t) = fst (fst p) /\
   Task_done (fst t) = match fst (fst p) with Some _ => true | None => false end /\
   forall v : unit, completion_slot (fst t) <> Some (Ok v)) /\
  ticks n (WaitForever (R:=P)) w = (WaitForever, w) /\
  Task_done (WaitForever (R:=P)) = false.
Proof.
  split.
  - destruct (polling_task _ _ captured w n (UpdaterTask_code_polls updateFunc))
      as (Hworld & Hslot & Hdone).
    cbv zeta. split; [exact Hworld |]. split; [exact Hslot |].
    split; [exact Hdone |].
    intros v. unfold UpdaterTask. rewrite Hslot.
    apply UpdaterTask_polls_never_return.
  - split; [| reflexivity].
    induction n as [| n IH]; [reflexivity |].
    rewrite ticks_S, IH. reflexivity.
Qed.

Lemma UpdaterTaskFor_code_polls {V : Type}
    (updateFunc : P -> TaskFinishSource V -> Prog (option Exn * P * TaskFinishSource V)) :
  polls_with (R':=R') (A':=A')
             (UpdaterTaskFor_poll updateFunc) (UpdaterTaskFor_code updateFunc).
Proof.
  intros fr o w. unfold UpdaterTaskFor_code, UpdaterTaskFor_poll. rewrite !run_bind.
  destruct (run (updateFunc (fst fr) (snd fr)) w) as [[[[e |] fr'] src] w'];
    [reflexivity |].
  cbn [run fst snd]. destruct (hasResult src); [| reflexivity].
  destruct (fst (result src)); reflexivity.
Qed.

Lemma UpdaterTaskFor_poll_result {V : Type}
    (updateFunc : P -> TaskFinishSource V -> Prog (option Exn * P * TaskFinishSource V))
    (fr : P * TaskFinishSource V) w (v : V) :
  fst (fst (run (UpdaterTaskFor_poll updateFunc fr) w)) = Some (Ok v) ->
  m_result (snd (snd (fst (run (UpdaterTaskFor_poll updateFunc fr) w)))) = Some v /\
  fs_resultConsumed (snd (snd (fst (run (UpdaterTaskFor_poll updateFunc fr) w))))
  = false.
Proof.
  unfold UpdaterTaskFor_poll. rewrite run_bind.
  destruct (run (updateFunc (fst fr) (snd fr)) w) as [[[[e |] fr'] src] w'];
    [discriminate |].
  cbn [run fst snd]. unfold hasResult, result.
  destruct (m_result src) as [v' |] eqn:Hres; [| discriminate].
  destruct (fs_resultConsumed src) eqn:Hcons; [discriminate |].
  cbn [fst]. intros [= ->]. split; reflexivity.
Qed.

Lemma UpdaterTaskFor_polls_result {V : Type}
    (updateFunc : P -> TaskFinishSource V -> Prog (option Exn * P * TaskFinishSource V))
    (fr0 : P * TaskFinishSource V) w (n : nat) (v : V) :
  fst (fst (polls (UpdaterTaskFor_poll updateFunc) n fr0 w)) = Some (Ok v) ->
  m_result (snd (snd (fst (polls (UpdaterTaskFor_poll updateFunc) n fr0 w)))) = Some v /\
  fs_resultConsumed (snd (snd (fst (polls (UpdaterTaskFor_poll updateFunc) n fr0 w))))
  = false.
Proof.
  induction n as [| n IH]; [discriminate |].
  rewrite polls_S.
  destruct (fst (fst (polls (UpdaterTaskFor_poll updateFunc) n fr0 w)))
    as [r |] eqn:Hn; [rewrite Hn; exact IH |].
  cbn [fst snd]. apply UpdaterTaskFor_poll_result.
Qed.

(** X23. [UpdaterTask<TResult>(updateFunc)] starts from a fresh
    [TaskFinishSource] and, resumed [n] times, has called [updateFunc] on
    it once per resume, up to and including the first call after which the
    source has a result or which threw.  It is done exactly when such a
    call has been made.  When it has completed with a value, that value is
    the one [updateFunc] left in the source, and the source had not been
    read. *)
Theorem UpdaterTaskFor_returns_the_requested_result {V : Type}
    (updateFunc : P -> TaskFinishSource V -> Prog (option Exn * P * TaskFinishSource V))
    (captured : P) w (n : nat) :
  let t := ticks n (UpdaterTaskFor updateFunc captured) w in
  let p := polls (UpdaterTaskFor_poll updateFunc) n
                 (captured, TaskFinishSource_new) w in
  snd t = snd p /\
  completion_slot (fst t) = fst (fst p) /\
  Task_done (fst t) = match fst (fst p) with Some _ => true | None => false end /\
  (forall v : V,
     completion_slot (fst t) = Some (Ok v) ->
     m_result (snd (snd (fst p))) = Some v /\
     fs_resultConsumed (snd (snd (fst p))) = false).
Proof.
  destruct (polling_task _ _ (captured, TaskFinishSource_new) w n
              (UpdaterTaskFor_code_polls updateFunc))
    as (Hworld & Hslot & Hdone).
  cbv zeta. split; [exact Hworld |]. split; [exact Hslot |].
  split; [exact Hdone |].
  intros v Hv. unfold UpdaterTaskFor in Hv. rewrite Hslot in Hv.
  exact (UpdaterTaskFor_polls_result updateFunc _ w n v Hv).
Qed.

End PollingTheorems.

(** ** [DelayFrame], [FromResult] *)

Section DelayFrameFacts.
Context {R' A' : Type} `{!TaskAwaiter R' A'}.
Implicit Types (w : World (R:=R') (A:=A')).

Lemma DelayFrame_code_polls :
  polls_with (R':=R') (A':=A') DelayFrame_poll DelayFrame_code.
Proof.
  intros [frames at_loop] o w. unfold DelayFrame_code, DelayFrame_poll.
  destruct (_ <? frames)%Z; reflexivity.
Qed.

(** While the loop runs: after [n] polls the counter [i] is [n - 1]. *)
Lemma DelayFrame_polls_waiting (frames : Z) w (n : nat) :
  (0 < n)%nat -> (Z.of_nat n <= frames)%Z ->
  polls DelayFrame_poll n (frames, None) w
  = (None, (frames, Some (Z.of_nat n - 1)%Z), w).
Proof.
  induction n as [| n IH]; intros Hpos Hle; [lia |].
  rewrite polls_S.
  destruct n as [| n].
  - simpl. destruct (Z.ltb_spec 0 frames); [reflexivity | lia].
  - rewrite IH by lia. cbn [fst snd]. unfold DelayFrame_poll. cbn [run fst snd].
    destruct (Z.ltb_spec (Z.of_nat (S n) - 1 + 1) frames) as [_ | Hge]; [| lia].
    cbn [fst snd].
    replace (Z.of_nat (S n) - 1 + 1)%Z with (Z.of_nat (S (S n)) - 1)%Z by lia.
    reflexivity.
Qed.

Lemma DelayFrame_polls_finished (frames : Z) w (n : nat) :
  (0 < n)%nat -> (frames < Z.of_nat n)%Z ->
  exists fr, polls DelayFrame_poll n (frames, None) w = (Some (Ok tt), fr, w).
Proof.
  induction n as [| n IH]; intros Hpos Hlt; [lia |].
  rewrite polls_S.
  destruct n as [| n].
  - simpl. destruct (Z.ltb_spec 0 frames); [lia | eauto].
  - destruct (Z.ltb_spec frames (Z.of_nat (S n))) as [Hdone | Hwaiting].
    + destruct (IH ltac:(lia) Hdone) as [fr Hfr]. rewrite Hfr. eauto.
    + rewrite DelayFrame_polls_waiting by lia. cbn [fst snd].
      unfold DelayFrame_poll. cbn [run fst snd].
      destruct (Z.ltb_spec (Z.of_nat (S n) - 1 + 1) frames) as [Hlt' | _]; [lia |].
      eauto.
Qed.

(** X24. [DelayFrame(frames)] never touches the program state.  It is not
    done before its first resume; for [frames <= 0] it is done after the
    first resume; for [frames > 0] it is not done after [frames] resumes
    and done after [frames + 1] of them.  So after [n] resumes it is done
    exactly when [n >= 1] and [n > frames].  Its result is then void, and
    further resumes change nothing. *)
Theorem DelayFrame_is_done_after_frames_plus_one_resumes (frames : Z) w (n : nat) :
  let t := fst (ticks n (DelayFrame frames) w) in
  snd (ticks n (DelayFrame frames) w) = w /\
  Task_done t = (Nat.ltb 0 n && Z.ltb frames (Z.of_nat n)) /\
  completion_slot t = (if Task_done t then Some (Ok tt) else None) /\
  (Task_done t = true ->
   ticks (S n) (DelayFrame frames) w = ticks n (DelayFrame frames) w).
Proof.
  cbv zeta.
  destruct (polling_task DelayFrame_poll DelayFrame_code (frames, None) w n
              DelayFrame_code_polls) as (Hworld & Hslot & Hdone).
  fold (DelayFrame frames) in Hworld, Hslot, Hdone.
  assert (Hpolls :
            polls DelayFrame_poll n (frames, None) w
            = (None, snd (fst (polls DelayFrame_poll n (frames, None) w)), w) /\
            (Nat.ltb 0 n && Z.ltb frames (Z.of_nat n)) = false \/
            polls DelayFrame_poll n (frames, None) w
            = (Some (Ok tt), snd (fst (polls DelayFrame_poll n (frames, None) w)), w) /\
            (Nat.ltb 0 n && Z.ltb frames (Z.of_nat n)) = true).
  { destruct n as [| n]; [left; split; reflexivity |].
    destruct (Z.ltb_spec frames (Z.of_nat (S n))) as [Hlt | Hge].
    - right. destruct (DelayFrame_polls_finished frames w (S n) ltac:(lia) Hlt)
        as [fr Hfr]. rewrite Hfr. split; reflexivity.
    - left. rewrite (DelayFrame_polls_waiting frames w (S n)) by lia.
      split; reflexivity. }
  split; [| split; [| split]].
  - rewrite Hworld. destruct Hpolls as [[-> _] | [-> _]]; reflexivity.
  - rewrite Hdone. destruct Hpolls as [[-> ->] | [-> ->]]; reflexivity.
  - rewrite Hdone, Hslot. destruct Hpolls as [[-> _] | [-> _]]; reflexivity.
  - intros Hfinished. rewrite ticks_S.
    rewrite (surjective_pairing (ticks n (DelayFrame frames) w)) at 3.
    apply run_Task_resume_done. exact Hfinished.
Qed.

End DelayFrameFacts.

Section FromResultFacts.
Context {R : Type}.

(** X25. Spawning [FromResult(result)]: the task completes in its first
    resume, so the finish callback is called with [result] during the
    constructor of the runner, nothing is registered (the backend, if
    there is one, is left as it is), and the runner is empty.  This does not
    need a backend instance.  Only an exception of the finish callback can
    make the constructor throw. *)
Theorem spawn_of_FromResult (result : R) (finish cancel : option Callback)
    (w : World (R:=R) (A:=Task Empty_set Empty_set R R)) :
  ScopedTaskRunner_new (FromResult result) finish cancel w =
    (match fst (call_finish finish result (trace w)) with
     | None => Ok {| m_id := None |}
     | Some exn => Raise exn
     end,
     {| s_pInstance := s_pInstance w;
        trace := snd (call_finish finish result (trace w)) |}) /\
  snd (call_finish finish result (trace w))
  = trace w ++ match finish with
               | Some cb => [FinishCalled (cb_label cb) result]
               | None => []
               end.
Proof.
  split.
  - unfold ScopedTaskRunner_new, ResumeAwaiterOnceAndRegisterIfNotDone.
    cbn. destruct finish as [[label [exn |]] |]; destruct w; reflexivity.
  - destruct finish as [cb |]; simpl; [reflexivity | rewrite app_nil_r; reflexivity].
Qed.

End FromResultFacts.

(** Runs of the polling coroutines on the example predicates. *)
Example WaitUntil_holds_at_third_call :
  Task_done (fst (ticks 2 (WaitUntil (holds_at_call 3) 0%nat) world_without_backend))
  = false /\
  Task_done (fst (ticks 3 (WaitUntil (holds_at_call 3) 0%nat) world_without_backend))
  = true /\
  trace (snd (ticks 5 (WaitUntil (holds_at_call 3) 0%nat) world_without_backend))
  = [Emitted "asked"; Emitted "asked"; Emitted "asked"] /\
  Task_done (fst (ticks 1 (WaitWhile (holds_at_call 3) 0%nat) world_without_backend))
  = true.
Proof. vm_compute. repeat split. Qed.

Example UpdaterTaskFor_finishes_at_second_call :
  Task_done (fst (ticks 1 (UpdaterTaskFor (finishes_at_call 2) 0%nat)
                        world_without_backend)) = false /\
  fst (Task_value (fst (ticks 2 (UpdaterTaskFor (finishes_at_call 2) 0%nat)
                              world_without_backend))) = Ok 2%nat /\
  trace (snd (ticks 4 (UpdaterTaskFor (finishes_at_call 2) 0%nat)
                    world_without_backend))
  = [Emitted "updated"; Emitted "updated"].
Proof. vm_compute. repeat split. Qed.

Example DelayFrame_two_frames :
  Task_done (fst (ticks 2 (DelayFrame 2) world_without_backend)) = false /\
  Task_done (fst (ticks 3 (DelayFrame 2) world_without_backend)) = true /\
  Task_done (fst (ticks 1 (DelayFrame (-1)) world_without_backend)) = true.
Proof. vm_compute. repeat split. Qed.

(** ** [discardResult] and [with] *)

Section AwaitingFacts.
Context {Sub : Type} `{!IAwaiter Sub}.
Context {F R : Type}.
Context {R' A' : Type} `{!TaskAwaiter R' A'}.
Implicit Types (w : World (R:=R') (A:=A')).

(** One resume of a task without companions whose coroutine is suspended
    on a sub-awaiter: the sub-awaiter is resumed, and the body goes on only
    if that finished it. *)
Lemma run_Task_resume_awaiting (h : CoroutineHandle Sub F R) (sub : Sub) w :
  at_final_suspend h = false ->
  m_pSubAwaiter (promise h) = Some sub ->
  let sub' := fst (run (resume sub) w) in
  let w1 := snd (run (resume sub) w) in
  let h0 := set_promise (setSubAwaiter None (promise h)) h in
  run (Task_resume (Conc:=Empty_set) (Task_new h)) w =
  if done sub' then
    (Task_new (suspend_at h0 (fst (run (code h (locals h) (Some sub')) w1))),
     snd (run (code h (locals h) (Some sub')) w1))
  else (Task_new (set_promise (setSubAwaiter (Some sub') (promise h)) h), w1).
Proof.
  intros Hrun Hsub. cbv zeta.
  unfold Task_resume, Task_new, CoroutineHandleWrapper_resume,
    CoroutineHandleWrapper_done, handle_done. simpl.
  rewrite Hrun. unfold resumeSubAwaiter. rewrite Hsub.
  rewrite !run_bind.
  destruct (run (resume sub) w) as [sub' w1]. cbn [fst snd].
  destruct (done sub'); simpl; [| reflexivity].
  unfold handle_resume. rewrite !run_bind. simpl.
  destruct (run (code h (locals h) (Some sub')) w1) as [step w2]. reflexivity.
Qed.

End AwaitingFacts.

Section DiscardResultFacts.
Context {Sub : Type} `{!IAwaiter Sub}.
Context {Conc : Type} `{!IAwaiter Conc}.
Context {F R : Type}.
Context {R' A' : Type} `{!TaskAwaiter R' A'}.
Implicit Types (t : Task Sub Conc F R) (w : World (R:=R') (A:=A')).

(** The coroutine of [discardResult] after [n >= 1] resumes: suspended on
    the task as long as the task is unfinished, finished as soon as it
    is. *)
Lemma discardResult_ticks t w (n : nat) :
  let tn := fst (ticks (S n) t w) in
  let d := fst (ticks (S n) (Task_discardResult t) w) in
  snd (ticks (S n) (Task_discardResult t) w) = snd (ticks (S n) t w) /\
  (Task_done tn = false /\
   d = Task_new {| code := DiscardResult_code; locals := None;
                   at_final_suspend := false;
                   promise := setSubAwaiter (Some tn) Promise_new |}
   \/
   Task_done tn = true /\ Task_done d = true /\
   completion_slot d = Some (discarded (fst (Task_value tn)))).
Proof.
  cbv zeta. induction n as [| n (Hworld & IH)].
  - rewrite !(ticks_S 0). cbn [ticks fst snd resume Task_IAwaiter].
    unfold Task_discardResult.
    rewrite run_Task_resume_plain by reflexivity.
    cbn [code locals coroutine]. unfold DiscardResult_code, co_await.
    cbn [done Task_IAwaiter resume].
    destruct (Task_done t) eqn:Hdone.
    + rewrite (run_Task_resume_done t w Hdone). cbn [run fst snd].
      split; [reflexivity |]. right. split; [first [exact Hdone | reflexivity] |].
      destruct (fst (Task_value t)); split; reflexivity.
    + rewrite run_bind.
      destruct (run (Task_resume t) w) as [t1 w1]. cbn [fst snd].
      destruct (Task_done t1) eqn:Hdone1; cbn [run fst snd].
      * split; [reflexivity |]. right. split; [first [exact Hdone1 | reflexivity] |].
        destruct (fst (Task_value t1)); split; reflexivity.
      * split; [reflexivity |]. left. split; [first [exact Hdone1 | reflexivity] | reflexivity].
  - rewrite (ticks_S (S n) t), (ticks_S (S n) (Task_discardResult t)).
    rewrite Hworld.
    destruct IH as [[Hwaiting Hd] | (Hdone & Hddone & Hslot)].
    + rewrite Hd. cbn [resume Task_IAwaiter].
      rewrite (run_Task_resume_awaiting _ (fst (ticks (S n) t w)))
        by reflexivity.
      cbn [resume done Task_IAwaiter code locals].
      destruct (run (Task_resume (fst (ticks (S n) t w))) (snd (ticks (S n) t w)))
        as [t1 w1]. cbn [fst snd].
      destruct (Task_done t1) eqn:Hdone1; cbn [run fst snd].
      * split; [reflexivity |]. right. split; [reflexivity |].
        unfold DiscardResult_code.
        destruct (fst (Task_value t1)); split; reflexivity.
      * split; [reflexivity |]. left. split; reflexivity.
    + cbn [resume Task_IAwaiter].
      rewrite (run_Task_resume_done (fst (ticks (S n) t w)) _ Hdone).
      rewrite (run_Task_resume_done (fst (ticks (S n) (Task_discardResult t) w))
                 _ Hddone).
      cbn [fst snd]. split; [reflexivity |]. right. auto.
Qed.

(** X26. [task.discardResult()] resumed [n >= 1] times has resumed the
    task [n] times and has done nothing else to the program state.  It is
    done exactly when the task is, that is, at the very resume in which the
    task finishes; its result is then void when the task returned a value,
    and the exception of the task when the task failed.  Before its first
    resume it is not done, even for a task that is. *)
Theorem discardResult_finishes_with_the_task t w (n : nat) :
  (0 < n)%nat ->
  let tn := fst (ticks n t w) in
  let d := fst (ticks n (Task_discardResult t) w) in
  snd (ticks n (Task_discardResult t) w) = snd (ticks n t w) /\
  Task_done d = Task_done tn /\
  completion_slot d
  = (if Task_done tn then Some (discarded (fst (Task_value tn))) else None) /\
  Task_done (Task_discardResult t) = false.
Proof.
  intros Hpos. destruct n as [| n]; [lia |]. cbv zeta.
  destruct (discardResult_ticks t w n) as (Hworld & Hstate).
  split; [exact Hworld |].
  destruct Hstate as [[Hwaiting ->] | (Hdone & Hddone & Hslot)].
  - rewrite Hwaiting. repeat split.
  - rewrite Hdone, Hddone, Hslot. repeat split.
Qed.

End DiscardResultFacts.

(** [three_frames.discardResult()] is done at the third resume, when
    [three_frames] is. *)
Lemma discardResult_finishes_with_the_task_witness :
  Task_done (fst (ticks 3 (Task_discardResult three_frames) world_without_backend))
  = Task_done (fst (ticks 3 three_frames world_without_backend)) /\
  Task_done (fst (ticks 3 three_frames world_without_backend)) = true /\
  Task_done (fst (ticks 2 three_frames world_without_backend)) = false.
Proof.
  destruct (discardResult_finishes_with_the_task
              three_frames world_without_backend 3 ltac:(lia))
    as (_ & Hdone & _).
  split; [exact Hdone | split; reflexivity].
Defined.

(** *** [Task::with] *)

Lemma result_of_bind_intro {X Y : Type} (p : Prog X) (f : X -> Prog Y) (x : X) (y : Y) :
  result_of p x -> result_of (f x) y -> result_of (bind p f) y.
Proof.
  intros Hp Hf. induction Hp as [x | msg k x _ IH | id k answer x _ IH]; simpl.
  - exact Hf.
  - constructor. apply IH. exact Hf.
  - apply result_CallRemove with (answer := answer). apply IH. exact Hf.
Qed.

Lemma result_of_for_each {X : Type} (f : X -> Prog X) (xs ys : list X) :
  result_of (for_each f xs) ys <-> Forall2 (fun x y => result_of (f x) y) xs ys.
Proof.
  revert ys. induction xs as [| x xs IH]; intros ys; simpl.
  - split.
    + intros Hres. apply result_of_Ret_inv in Hres. subst ys. constructor.
    + intros Hall. inversion Hall. constructor.
  - split.
    + intros Hres.
      apply result_of_bind_inv in Hres as (x' & Hx & Hres).
      apply result_of_bind_inv in Hres as (xs' & Hxs & Hres).
      apply result_of_Ret_inv in Hres. subst ys.
      constructor; [exact Hx | apply IH; exact Hxs].
    + intros Hall. inversion Hall as [| x0 y xs0 ys' Hx Hxs]; subst.
      apply (result_of_bind_intro _ _ y); [exact Hx |].
      apply (result_of_bind_intro _ _ ys'); [apply IH; exact Hxs | constructor].
Qed.

Section WithFacts.
Context {Sub : Type} `{!IAwaiter Sub}.
Context {Conc : Type} `{!IAwaiter Conc}.
Context {F R : Type}.
Context {R' A' : Type} `{!TaskAwaiter R' A'}.
Implicit Types (t : Task Sub Conc F R) (c : Conc) (w : World (R:=R') (A:=A')).

(** X27. [task.with(child, timing)] adds the child after the children
    already given for that timing and changes nothing else: [done()] of the
    task is still [done()] of its own coroutine, whatever the children are.
    One [resume()] of an unfinished task resumes, in this order: every
    child given with [WithTiming::Before], first to last; then its own
    coroutine, from the program state these children have left; then every
    child given with [WithTiming::After], first to last, from the state the
    coroutine has left.  Each child is resumed once.  Once the coroutine
    is done, [resume()] does nothing at all: the children are no longer
    resumed, finished or not. *)
Theorem resume_resumes_every_child_once t :
  (forall c timing,
     Task_done (Task_with t c timing) = Task_done t /\
     m_handle (Task_with t c timing) = m_handle t) /\
  (forall c,
     m_concurrentTasksBefore (Task_with t c Before) = m_concurrentTasksBefore t ++ [c] /\
     m_concurrentTasksAfter (Task_with t c Before) = m_concurrentTasksAfter t /\
     m_concurrentTasksBefore (Task_with t c After) = m_concurrentTasksBefore t /\
     m_concurrentTasksAfter (Task_with t c After) = m_concurrentTasksAfter t ++ [c]) /\
  (Task_done t = true ->
   Task_resume t = Ret t /\ forall w, run (Task_resume t) w = (t, w)) /\
  (Task_done t = false ->
   forall w,
     let before := resumed_in_order (m_concurrentTasksBefore t) w in
     let body := run (CoroutineHandleWrapper_resume (m_handle t)) (snd before) in
     let after := resumed_in_order (m_concurrentTasksAfter t) (snd body) in
     run (Task_resume t) w =
       ({| m_handle := fst body;
           m_concurrentTasksBefore := fst before;
           m_concurrentTasksAfter := fst after |},
        snd after)) /\
  (Task_done t = false ->
   forall t',
     result_of (Task_resume t) t' <->
     Forall2 (fun c c' => result_of (resume c) c')
             (m_concurrentTasksBefore t) (m_concurrentTasksBefore t') /\
     result_of (CoroutineHandleWrapper_resume (m_handle t)) (m_handle t') /\
     Forall2 (fun c c' => result_of (resume c) c')
             (m_concurrentTasksAfter t) (m_concurrentTasksAfter t')).
Proof.
  split; [intros c [|]; split; reflexivity |].
  split; [intros c; repeat split |].
  split.
  { unfold Task_resume, Task_done. intros ->. split; reflexivity. }
  split.
  { intros Hrun w before body after.
    unfold Task_resume. unfold Task_done in Hrun. rewrite Hrun.
    rewrite run_bind, run_for_each_resume. fold before.
    destruct before as [before1 w1]. cbn [fst snd] in *.
    rewrite run_bind. subst body. 
    destruct (run (CoroutineHandleWrapper_resume (m_handle t)) w1) as [h w2].
    cbn [fst snd] in *.
    rewrite run_bind, run_for_each_resume. subst after.
    destruct (resumed_in_order (m_concurrentTasksAfter t) w2) as [after1 w3].
    reflexivity. }
  intros Hrun t'. unfold Task_resume. unfold Task_done in Hrun. rewrite Hrun.
  split.
  - intros Hres.
    apply result_of_bind_inv in Hres as (before & Hbefore & Hres).
    apply result_of_bind_inv in Hres as (h & Hh & Hres).
    apply result_of_bind_inv in Hres as (after & Hafter & Hres).
    apply result_of_Ret_inv in Hres. subst t'. simpl.
    split; [apply result_of_for_each; exact Hbefore |].
    split; [exact Hh | apply result_of_for_each; exact Hafter].
  - intros (Hbefore & Hh & Hafter). destruct t' as [h before after]. simpl in *.
    apply (result_of_bind_intro _ _ before); [apply result_of_for_each; exact Hbefore |].
    apply (result_of_bind_intro _ _ h); [exact Hh |].
    apply (result_of_bind_intro _ _ after); [apply result_of_for_each; exact Hafter |].
    constructor.
Qed.

End WithFacts.

(** A task with one child of each timing, resumed once: the child given
    with [Before] runs first, then the coroutine, then the child given with
    [After]. *)
Example resume_with_children_in_order :
  trace (snd (run (Task_resume
                     (Task_with
                        (Task_with
                           (Task_new (Conc:=Task Empty_set Empty_set (Script nat) nat)
                              (coroutine script_code
                                 ([say "body 1"], Ret (Ok 0%nat))))
                           (script_task [say "after 1"] (Ret (Ok 2%nat))) After)
                        (script_task [say "before 1"] (Ret (Ok 1%nat))) Before))
                  world_without_backend))
  = [Emitted "before 1"; Emitted "body 1"; Emitted "after 1"].
Proof. vm_compute. reflexivity. Qed.

(** ** [TaskFinishSource] once more *)

Section FinishSourceExtras.
Context {V : Type}.
Implicit Types (s : TaskFinishSource V) (c : FinishSourceCall V).

Lemma call_source_keeps_done c s :
  TaskFinishSource_done s = true ->
  TaskFinishSource_done (snd (call_source c s)) = true.
Proof.
  unfold TaskFinishSource_done, hasResult.
  destruct s as [[v |] [|]], c as [v' |]; simpl; intros Hdone;
    try reflexivity; try discriminate.
Qed.

(** X28. For a [TaskFinishSource] in any state: [requestFinish] succeeds
    exactly when [done()] is false, and [done()] is true after it either
    way.  [done()] never goes back to false, whatever is called on the
    source, whereas [hasResult()] does: after a successful [result()] the
    source has no result any more and is still done, so that no
    [requestFinish] can succeed again. *)
Theorem TaskFinishSource_done_is_final s :
  (forall v, fst (requestFinish v s) = negb (TaskFinishSource_done s)) /\
  (forall v, TaskFinishSource_done (snd (requestFinish v s)) = true) /\
  (forall cs, TaskFinishSource_done s = true ->
     TaskFinishSource_done (snd (call_sequence cs s)) = true /\
     forall (i : nat) v,
       cs !! i = Some (CallRequestFinish v) ->
       fst (call_sequence cs s) !! i = Some (RequestFinishAnswer false)) /\
  (forall v, fst (result s) = Ok v ->
     hasResult s = true /\
     hasResult (snd (result s)) = false /\
     TaskFinishSource_done (snd (result s)) = true).
Proof.
  split; [| split; [| split]].
  - intros v. unfold requestFinish, TaskFinishSource_done, hasResult.
    destruct s as [[v0 |] [|]]; reflexivity.
  - intros v. unfold requestFinish, TaskFinishSource_done, hasResult.
    destruct s as [[v0 |] [|]]; reflexivity.
  - intros cs. revert s. induction cs as [| c cs IH]; intros s Hdone.
    + split; [exact Hdone |]. intros i v Hi. destruct i; discriminate.
    + pose proof (call_source_keeps_done c s Hdone) as Hdone1.
      simpl. destruct (call_source c s) as [a s1] eqn:Hcall.
      destruct (IH s1 Hdone1) as [Hlast Hanswers].
      destruct (call_sequence cs s1) as [answers s2]. simpl in *.
      split; [exact Hlast |].
      intros [| i] v Hi; simpl in *; [| apply (Hanswers i v Hi)].
      injection Hi as ->. simpl in Hcall.
      unfold requestFinish in Hcall. unfold TaskFinishSource_done in Hdone.
      rewrite orb_comm in Hdone. rewrite Hdone in Hcall.
      injection Hcall as <- _. reflexivity.
  - intros v. unfold result, TaskFinishSource_done, hasResult.
    destruct s as [[v0 |] [|]]; simpl; intros Hres; try discriminate.
    repeat split.
Qed.

End FinishSourceExtras.

Lemma requestFinish_void_times_done (n : nat) :
  fst (requestFinish_void_times n {| m_finishRequested := true |}) = repeat false n /\
  snd (requestFinish_void_times n {| m_finishRequested := true |})
  = {| m_finishRequested := true |}.
Proof.
  induction n as [| n [IHanswers IHsource]]; [split; reflexivity |].
  simpl. destruct (requestFinish_void_times n {| m_finishRequested := true |})
    as [answers s2]. simpl in *. subst. split; reflexivity.
Qed.

(** X29. [TaskFinishSource<void>]: [requestFinish()] succeeds exactly when
    [done()] is false and leaves [done()] true.  So of any number of calls
    on a fresh source the first one returns true and every later one
    false, and the source is done from the first call on. *)
Theorem requestFinish_void_succeeds_once (s : TaskFinishSourceVoid) (n : nat) :
  fst (requestFinish_void s) = negb (TaskFinishSourceVoid_done s) /\
  TaskFinishSourceVoid_done (snd (requestFinish_void s)) = true /\
  fst (requestFinish_void_times (S n) {| m_finishRequested := false |})
  = true :: repeat false n /\
  TaskFinishSourceVoid_done
    (snd (requestFinish_void_times (S n) {| m_finishRequested := false |})) = true /\
  TaskFinishSourceVoid_done {| m_finishRequested := false |} = false.
Proof.
  split; [destruct s as [[|]]; reflexivity |].
  split; [destruct s as [[|]]; reflexivity |].
  destruct (requestFinish_void_times_done n) as [Hanswers Hsource].
  cbn [requestFinish_void_times requestFinish_void m_finishRequested].
  destruct (requestFinish_void_times n {| m_finishRequested := true |})
    as [answers s2]. simpl in *. subst. repeat split.
Qed.

Lemma AddDrawer_then_HasActiveDrawerInRange_witness :
  HasActiveModal
    (snd (ScopedDrawer_new_at (fun env : Z => (None, env)) DrawIndex.Modal
            (Some executors_10_5_5) 10%Z)) 10%Z = Ok true /\
  HasActiveModal (Some executors_10_5_5) 10%Z = Ok false.
Proof.
  destruct executor_10_5_5_invariants as (Hwf & _ & Hbelow).
  destruct (AddDrawer_then_HasActiveDrawerInRange
              (fun env : Z => (None, env)) (fun env : Z => env) executors_10_5_5 10%Z
              0%Z 0%Z 10%Z Hwf Hbelow) as (_ & _ & _ & Hmodal).
  split; [exact Hmodal | reflexivity].
Defined.

(** ** From the spawn to the end callback *)

Section AloneFacts.
Context {R A : Type} `{!TaskAwaiter R A}.
Implicit Types (a : A) (e : AwaiterEntry (A:=A)).
Implicit Types (b : Backend (A:=A)) (w : World (R:=R) (A:=A)) (tr : Trace (R:=R)).

(** One [update] of a backend with a single entry whose resume makes no
    call into the backend. *)
Lemma update_single_entry (id : AwaiterID) e b tr :
  m_awaiterEntries b = [(id, e)] ->
  m_currentAwaiterRemovalNeeded b = false ->
  no_backend_call (resume (awaiter e)) = true ->
  update {| s_pInstance := Some b; trace := tr |} =
    Some (if finishes e then end_callback_thrown (resumed_entry e) else None,
          {| s_pInstance :=
               Some {| m_nextAwaiterID := m_nextAwaiterID b;
                       m_currentAwaiterID := None;
                       m_currentAwaiterRemovalNeeded := false;
                       m_awaiterEntries :=
                         if finishes e then [] else [(id, resumed_entry e)] |};
             trace := tr ++ map Emitted (emitted (resume (awaiter e)))
                         ++ (if finishes e then end_callback_events (resumed_entry e)
                             else []) |}).
Proof.
  intros Hentries Hflag Hpure.
  destruct (update_loop_sweep [(id, e)] [] 1 None b tr) as [current Hloop].
  - simpl. lia.
  - unfold sorted_keys. simpl. repeat constructor.
  - exact Hentries.
  - exact Hflag.
  - repeat constructor. exact Hpure.
  - unfold update. cbn [s_pInstance]. rewrite Hentries.
    cbn [length]. simpl map_begin in Hloop |- *. rewrite Hloop.
    cbn [s_pInstance]. unfold set_instance, set_current.
    cbn [m_nextAwaiterID m_currentAwaiterRemovalNeeded m_awaiterEntries trace app].
    simpl sweep_exception. simpl sweep_survivors. simpl sweep_events.
    destruct (finishes e) eqn:Hfin; rewrite ?app_nil_r.
    + destruct (end_callback_thrown (resumed_entry e)); reflexivity.
    + reflexivity.
Qed.

Lemma updates_S (k : nat) w :
  updates (S k) w =
  match updates k w with
  | Some (thrown, w') =>
      match update w' with
      | Some (exn, w'') => Some (thrown ++ [exn], w'')
      | None => None
      end
  | None => None
  end.
Proof. reflexivity. Qed.

Lemma IsDone_alone (n : nat) a (finish cancel : option Callback) tr :
  done (resumed n a) = false ->
  IsDone 1 (alone_after n a finish cancel tr) = Ok false.
Proof.
  intros Hwaiting. unfold IsDone, alone_after.
  cbn [s_pInstance m_awaiterEntries map_find N.eqb Pos.eqb awaiter new_entry].
  rewrite Hwaiting. reflexivity.
Qed.

(** X30. A task spawned alone on a fresh backend, whose resumes make no
    call into the backend, which is still unfinished after [N >= 1]
    resumes and finished after [N + 1].  The constructor of the runner
    makes the first resume and registers the task under identifier 1.  Each
    of the next [N - 1] calls of [update] makes one more resume, calls no
    callback and throws nothing.  The [N]-th [update] makes the resume that
    finishes the task, calls its end callback once (the finish callback
    with the result, or the cancel callback when reading the result
    throws), erases the entry, and rethrows what the callback threw; from
    then on [IsDone] of the identifier is true. *)
Theorem nth_update_finishes_the_task
    a (finish cancel : option Callback) tr0 (N : nat) :
  (1 <= N)%nat ->
  (forall n : nat, (n <= N)%nat -> no_backend_call (resume (resumed n a)) = true) ->
  (forall n : nat, (n <= N)%nat -> done (resumed n a) = false) ->
  done (resumed (S N) a) = true ->
  let w0 := {| s_pInstance := Some Backend_new; trace := tr0 |} in
  let last := new_entry (resumed (S N) a) finish cancel in
  ScopedTaskRunner_new a finish cancel w0
    = (Ok {| m_id := Some 1 |}, alone_after 1 a finish cancel tr0) /\
  (forall k : nat, (k < N)%nat ->
     updates k (alone_after 1 a finish cancel tr0)
     = Some (repeat None k, alone_after (S k) a finish cancel tr0) /\
     IsDone 1 (alone_after (S k) a finish cancel tr0) = Ok false) /\
  update (alone_after N a finish cancel tr0)
    = Some (end_callback_thrown last,
            {| s_pInstance :=
                 Some {| m_nextAwaiterID := 2;
                         m_currentAwaiterID := None;
                         m_currentAwaiterRemovalNeeded := false;
                         m_awaiterEntries := [] |};
               trace := tr0 ++ map Emitted (messages (S N) a)
                            ++ end_callback_events last |}) /\
  (forall tr, IsDone 1 {| s_pInstance :=
                            Some {| m_nextAwaiterID := 2;
                                    m_currentAwaiterID := None;
                                    m_currentAwaiterRemovalNeeded := false;
                                    m_awaiterEntries := @nil (AwaiterID * AwaiterEntry (A:=A)) |};
                          trace := tr |} = Ok true).
Proof.
  intros HN Hpure Hwaiting Hdone w0 last.
  assert (Hstep : forall k : nat, (S k <= N)%nat ->
            update (alone_after (S k) a finish cancel tr0)
            = Some (if done (resumed (S (S k)) a)
                    then end_callback_thrown
                           (new_entry (resumed (S (S k)) a) finish cancel)
                    else None,
                    {| s_pInstance :=
                         Some {| m_nextAwaiterID := 2;
                                 m_currentAwaiterID := None;
                                 m_currentAwaiterRemovalNeeded := false;
                                 m_awaiterEntries :=
                                   if done (resumed (S (S k)) a) then []
                                   else [(1, new_entry (resumed (S (S k)) a)
                                                       finish cancel)] |};
                       trace := tr0 ++ map Emitted (messages (S (S k)) a)
                                    ++ (if done (resumed (S (S k)) a)
                                        then end_callback_events
                                               (new_entry (resumed (S (S k)) a)
                                                          finish cancel)
                                        else []) |})).
  { intros k Hk. unfold alone_after.
    rewrite (update_single_entry 1
               (new_entry (resumed (S k) a) finish cancel)
               {| m_nextAwaiterID := 2;
                  m_currentAwaiterID := None;
                  m_currentAwaiterRemovalNeeded := false;
                  m_awaiterEntries :=
                    [(1, new_entry (resumed (S k) a) finish cancel)] |}
               _ eq_refl eq_refl (Hpure (S k) Hk)).
    unfold finishes, resumed_entry. cbn [awaiter new_entry set_awaiter].
    change (returned (resume (resumed (S k) a))) with (resumed (S (S k)) a).
    cbn [m_nextAwaiterID messages]. rewrite !map_app, <- !app_assoc.
    reflexivity. }
  split; [| split; [| split]].
  - unfold ScopedTaskRunner_new, ResumeAwaiterOnceAndRegisterIfNotDone.
    pose proof (Hwaiting 0%nat ltac:(lia)) as Hdone0.
    pose proof (Hpure 0%nat ltac:(lia)) as Hpure0.
    pose proof (Hwaiting 1%nat HN) as Hdone1.
    cbn [resumed] in Hdone0, Hpure0, Hdone1.
    rewrite Hdone0, (run_no_backend_call _ _ Hpure0), Hdone1. reflexivity.
  - intros k. induction k as [| k IH]; intros Hk.
    + split; [reflexivity |]. apply IsDone_alone. apply Hwaiting. exact HN.
    + destruct (IH ltac:(lia)) as [Hupdates _].
      rewrite updates_S, Hupdates, (Hstep k ltac:(lia)).
      rewrite (Hwaiting (S (S k)) ltac:(lia)). rewrite app_nil_r.
      split.
      * unfold alone_after. rewrite <- repeat_cons. reflexivity.
      * apply IsDone_alone. apply Hwaiting. lia.
  - destruct N as [| N]; [lia |].
    rewrite (Hstep N ltac:(lia)). rewrite Hdone. reflexivity.
  - intros tr. reflexivity.
Qed.

End AloneFacts.

(** [three_frames] spawned alone: two resumes leave it unfinished, the
    third one finishes it, during the second [update]. *)
Lemma nth_update_finishes_the_task_witness :
  update (alone_after 2 three_frames (callback "finished") (callback "cancelled") [])
  = Some (None,
          {| s_pInstance :=
               Some {| m_nextAwaiterID := 2;
                       m_currentAwaiterID := None;
                       m_currentAwaiterRemovalNeeded := false;
                       m_awaiterEntries := [] |};
             trace := [Emitted "inner 1"; Emitted "inner 2"; Emitted "inner 3";
                       FinishCalled "finished" 7%nat] |}).
Proof.
  destruct (nth_update_finishes_the_task (TaskAwaiter0:=Task_TaskAwaiter)
              three_frames (callback "finished") (callback "cancelled") [] 2)
    as (_ & _ & Hlast & _).
  - lia.
  - intros [| [| [| n]]] Hn; [reflexivity | reflexivity | reflexivity | lia].
  - intros [| [| [| n]]] Hn; [reflexivity | reflexivity | reflexivity | lia].
  - reflexivity.
  - exact Hlast.
Defined.

Lemma backend_stays_in_order_witness :
  exists b',
    s_pInstance (snd (Remove 2 world_with_four_tasks)) = Some b' /\
    backend_idle b' /\ ids_issued b'.
Proof.
  destruct (backend_stays_in_order world_with_four_tasks
              (backend_of world_with_four_tasks) world_with_four_tasks_backend)
    as (Hremove & _).
  - split; [exact (proj1 world_with_four_tasks_wf) | split; reflexivity].
  - exact (proj2 world_with_four_tasks_wf).
  - exact (Hremove 2).
Defined.
